(** * salve: the interleave walker, the JSON writer and the conversion CLI

    A shallow embedding of
    - lib/salve/patterns/interleave.ts  (pattern and walker for <interleave>),
    - the salve-convert command line tool (format version gate),
    - the DefaultConversionWalker that writes the JSON schema format,
    - NameGatherer, Renamer and renameRefsDefines, which give the
      definitions short names before the schema is written,
    - the XML Schema regexp translator, as far as its tests exercise it.

    Walkers are mutable objects in the source; here every method takes the
    walker's state and returns the new state next to its result.  Where a
    statement depends on which objects two walkers share (cloning), the
    objects are kept in a store and walkers refer to their subwalkers by
    reference. *)

From stdpp Require Import base option list strings gmap pretty.
From Stdlib Require Import ZArith QArith Ascii.

Close Scope Q_scope.

Open Scope string_scope.

(** ** Values exchanged with walkers (patterns/base.ts, errors.ts) *)

(** errors.ts is not needed beyond the fact that an error is a value that
    carries a message. *)
Record ValidationError := mkValidationError { msg : string }.

(** An event is a name and its parameters: [new Event(name, ...params)]. *)
Record Event := mkEvent { ev_name : string; ev_params : list string }.

#[global] Instance Event_eq_dec : EqDecision Event.
Proof. solve_decision. Defined.

#[global] Instance Event_countable : Countable Event :=
  inj_countable' (λ e, (ev_name e, ev_params e))
                 (λ p, mkEvent p.1 p.2)
                 (λ e, match e with mkEvent _ _ => eq_refl end).

Abbreviation EventSet := (gset Event).

(** [InternalFireEventResult]: the [matched] flag and the optional errors. *)
Record InternalFireEventResult :=
  mkResult { matched : bool; errors : option (list ValidationError) }.

(** [EndResult = false | ValidationError[]]: [None] stands for [false].  An
    array, even an empty one, is truthy in the source. *)
Definition EndResult := option (list ValidationError).

(** Modelled from the spec: [isAttributeEvent] is defined in base.ts, which
    is outside the files embedded here.  The events of the spec that carry
    an attribute are [attributeName] and [attributeValue]. *)
Definition isAttributeEvent (name : string) : bool :=
  bool_decide (name = "attributeName") || bool_decide (name = "attributeValue").

(** The name resolver and the clone memo live in name_resolver.ts and
    base.ts; the interleave walker only stores the former and passes the
    latter on, so both are parameters of the development. *)
Class Host := {
  NameResolver : Type;
  CloneMap : Type;
  cloneIfNeeded : NameResolver → CloneMap → NameResolver * CloneMap;
}.

(** ** The walker interface ([InternalWalker] of base.ts) *)
Module Walker.

(** Modelled from the spec: base.ts is outside the files embedded here.
    The methods are those of the walker contract of the spec: [fireEvent],
    [end] (written [end_] here), [endAttributes], [possible],
    [possibleAttributes], the flags [canEnd] and [canEndAttribute], and
    [_clone], which takes the memo and may add to it. *)
Class InternalWalker `{Host} (W : Type) := {
  fireEvent : W → string → list string → W * InternalFireEventResult;
  end_ : W → W * EndResult;
  endAttributes : W → W * EndResult;
  possible : W → EventSet;
  possibleAttributes : W → EventSet;
  canEnd : W → bool;
  canEndAttribute : W → bool;
  _clone : W → CloneMap → W * CloneMap;
}.
#[global] Hint Mode InternalWalker - ! : typeclass_instances.

Section Runs.
Context `{InternalWalker W}.

Definition fire (w : W) (e : Event) : W * InternalFireEventResult :=
  fireEvent w (ev_name e) (ev_params e).

(** Feeding a sequence of events, keeping the last state. *)
Fixpoint run (evs : list Event) (w : W) : W :=
  match evs with
  | [] => w
  | e :: evs' => run evs' (fire w e).1
  end.

(** The results of feeding a sequence of events, in order. *)
Fixpoint trace (evs : list Event) (w : W) : list InternalFireEventResult :=
  match evs with
  | [] => []
  | e :: evs' => (fire w e).2 :: trace evs' (fire w e).1
  end.

(** What a caller can see of a walker without feeding it an event. *)
Definition observe (w : W) : bool * bool * EndResult * EndResult :=
  (canEnd w, canEndAttribute w, (end_ w).2, (endAttributes w).2).

(** An event is accepted when it is matched and reports no error. *)
Definition clean (r : InternalFireEventResult) : bool :=
  matched r && bool_decide (errors r = None).

(** A sequence is accepted when every event is and [end()] returns false. *)
Definition accepts (evs : list Event) (w : W) : bool :=
  forallb clean (trace evs w) && bool_decide ((end_ (run evs w)).2 = None).

(** States a walker goes through when it is only fed events. *)
Inductive Reachable (w0 : W) : W → Prop :=
| reach_init : Reachable w0 w0
| reach_fire w name params :
    Reachable w0 w → Reachable w0 (fireEvent w name params).1.

(** Two walkers that no sequence of events tells apart. *)
Definition Equivalent (w1 w2 : W) : Prop :=
  ∀ evs, trace evs w1 = trace evs w2
         ∧ observe (run evs w1) = observe (run evs w2).
End Runs.

End Walker.

(** ** The pattern interface ([BasePattern] of base.ts) *)
Module Pattern.

(** Modelled from the spec: base.ts is outside the files embedded here.  A
    pattern carries [hasEmptyPattern] and [hasAttrs] and makes walkers with
    [newWalker]. *)
Class BasePattern `{Host} (P W : Type) := {
  hasEmptyPattern : P → bool;
  hasAttrs : P → bool;
  newWalker : P → NameResolver → W;
}.
#[global] Hint Mode BasePattern - ! - : typeclass_instances.

End Pattern.

(** ** [class Interleave extends TwoSubpatterns] *)
Module Interleave.
Section Def.
Context `{Host} {PA WA PB WB : Type}.
Context `{!Pattern.BasePattern PA WA} `{!Pattern.BasePattern PB WB}.

Record t := mk { patA : PA; patB : PB }.

Definition _computeHasEmptyPattern (el : t) : bool :=
  Pattern.hasEmptyPattern (patA el) && Pattern.hasEmptyPattern (patB el).

(** [TwoSubpatterns.hasEmptyPattern] caches [_computeHasEmptyPattern];
    a pattern is immutable, so the cache is that value. *)
Definition hasEmptyPattern (el : t) : bool := _computeHasEmptyPattern el.

(** Modelled from the spec: [TwoSubpatterns.hasAttrs] is in base.ts, which
    is outside the files embedded here.  The spec describes [hasAttrs] as
    "whether it may contribute to attribute matching"; a pattern with two
    subpatterns may do so when either subpattern may. *)
Definition hasAttrs (el : t) : bool :=
  Pattern.hasAttrs (patA el) || Pattern.hasAttrs (patB el).
End Def.
Arguments t : clear implicits.
End Interleave.

(** ** [class InterleaveWalker extends InternalWalker<Interleave>] *)
Module InterleaveWalker.

(** The two subwalkers, for the call log of [fireEventLog]. *)
Inductive Branch := BranchA | BranchB.

#[global] Instance Branch_eq_dec : EqDecision Branch.
Proof. solve_decision. Defined.

Section Def.
Context `{Host} {WA WB : Type}.
Context `{!Walker.InternalWalker WA} `{!Walker.InternalWalker WB}.

(** The fields of the class.  The pattern reference [el] kept by the
    superclass is read by no method of the walker and is left out. *)
Record t := mk {
  ended : bool;
  hasAttrs : bool;
  walkerA : WA;
  walkerB : WB;
  nameResolver : NameResolver;
  canEndAttribute : bool;
  canEnd : bool;
}.

(** First overload of the constructor: a walker for a pattern. *)
Definition new {PA PB : Type}
    `{!Pattern.BasePattern PA WA} `{!Pattern.BasePattern PB WB}
    (el : Interleave.t PA PB) (nr : NameResolver) : t :=
  let hasAttrs := Interleave.hasAttrs el in
  let a := Pattern.newWalker (Interleave.patA el) nr in
  let b := Pattern.newWalker (Interleave.patB el) nr in
  {| ended := false;
     hasAttrs := hasAttrs;
     walkerA := a;
     walkerB := b;
     nameResolver := nr;
     canEndAttribute :=
       negb hasAttrs
       || (Walker.canEndAttribute a && Walker.canEndAttribute b);
     canEnd := Walker.canEnd a && Walker.canEnd b |}.

(** Second overload of the constructor, which is all [_clone] calls. *)
Definition _clone (w : t) (memo : CloneMap) : t * CloneMap :=
  let '(nr', memo1) := cloneIfNeeded (nameResolver w) memo in
  let '(a', memo2) := Walker._clone (walkerA w) memo1 in
  let '(b', memo3) := Walker._clone (walkerB w) memo2 in
  ({| ended := ended w;
      hasAttrs := hasAttrs w;
      walkerA := a';
      walkerB := b';
      nameResolver := nr';
      canEndAttribute := canEndAttribute w;
      canEnd := canEnd w |}, memo3).

Definition possible (w : t) : EventSet :=
  if ended w then ∅
  else Walker.possible (walkerA w) ∪ Walker.possible (walkerB w).

Definition possibleAttributes (w : t) : EventSet :=
  if ended w then ∅
  else Walker.possibleAttributes (walkerA w)
       ∪ Walker.possibleAttributes (walkerB w).

(** The walker after its subwalkers were called: the subwalkers are
    objects the walker points to, so their new states are part of it. *)
Definition withWalkers (w : t) (a : WA) (b : WB) : t :=
  {| ended := ended w; hasAttrs := hasAttrs w;
     walkerA := a; walkerB := b; nameResolver := nameResolver w;
     canEndAttribute := canEndAttribute w; canEnd := canEnd w |}.

(** The assignments made when a subwalker matched. *)
Definition updateCanEnd (w : t) (evIsAttributeEvent : bool) : t :=
  {| ended := ended w; hasAttrs := hasAttrs w;
     walkerA := walkerA w; walkerB := walkerB w;
     nameResolver := nameResolver w;
     canEndAttribute :=
       if evIsAttributeEvent
       then Walker.canEndAttribute (walkerA w)
            && Walker.canEndAttribute (walkerB w)
       else canEndAttribute w;
     canEnd := Walker.canEnd (walkerA w) && Walker.canEnd (walkerB w) |}.

Definition fireEvent (w : t) (name : string) (params : list string)
    : t * InternalFireEventResult :=
  let ret := mkResult false None in
  let evIsAttributeEvent := isAttributeEvent name in
  if evIsAttributeEvent && negb (hasAttrs w) then (w, ret)
  else if ended w then (w, ret)
  else
    let '(a', retA) := Walker.fireEvent (walkerA w) name params in
    if matched retA then
      (updateCanEnd (withWalkers w a' (walkerB w)) evIsAttributeEvent, retA)
    else
      let '(b', retB) := Walker.fireEvent (walkerB w) name params in
      if matched retB then
        (updateCanEnd (withWalkers w a' b') evIsAttributeEvent, retB)
      else (withWalkers w a' b', ret).

(** [fireEvent] with a log of the calls made to the subwalkers: which
    branch was called, in order, and whether it matched. *)
Definition fireEventLog (w : t) (name : string) (params : list string)
    : t * InternalFireEventResult * list (Branch * bool) :=
  let ret := mkResult false None in
  let evIsAttributeEvent := isAttributeEvent name in
  if evIsAttributeEvent && negb (hasAttrs w) then (w, ret, [])
  else if ended w then (w, ret, [])
  else
    let '(a', retA) := Walker.fireEvent (walkerA w) name params in
    if matched retA then
      (updateCanEnd (withWalkers w a' (walkerB w)) evIsAttributeEvent,
       retA, [(BranchA, true)])
    else
      let '(b', retB) := Walker.fireEvent (walkerB w) name params in
      if matched retB then
        (updateCanEnd (withWalkers w a' b') evIsAttributeEvent,
         retB, [(BranchA, false); (BranchB, true)])
      else (withWalkers w a' b', ret,
            [(BranchA, false); (BranchB, false)]).

Definition end_ (w : t) : t * EndResult :=
  if ended w then (w, None)
  else if canEnd w then
    ({| ended := true; hasAttrs := hasAttrs w;
        walkerA := walkerA w; walkerB := walkerB w;
        nameResolver := nameResolver w;
        canEndAttribute := canEndAttribute w; canEnd := canEnd w |}, None)
  else
    let '(a', retA) := Walker.end_ (walkerA w) in
    let '(b', retB) := Walker.end_ (walkerB w) in
    match retA with
    | Some ea =>
        (withWalkers w a' b',
         match retB with None => Some ea | Some eb => Some (ea ++ eb)%list end)
    | None => (withWalkers w a' b', retB)
    end.

Definition endAttributes (w : t) : t * EndResult :=
  if ended w || canEndAttribute w then (w, None)
  else
    let '(a', retA) := Walker.endAttributes (walkerA w) in
    let '(b', retB) := Walker.endAttributes (walkerB w) in
    match retA with
    | Some ea =>
        (withWalkers w a' b',
         match retB with Some eb => Some (ea ++ eb)%list | None => Some ea end)
    | None => (withWalkers w a' b', retB)
    end.

#[global] Instance walker : Walker.InternalWalker t := {|
  Walker.fireEvent := fireEvent;
  Walker.end_ := end_;
  Walker.endAttributes := endAttributes;
  Walker.possible := possible;
  Walker.possibleAttributes := possibleAttributes;
  Walker.canEnd := canEnd;
  Walker.canEndAttribute := canEndAttribute;
  Walker._clone := _clone;
|}.

(** *** Tag balance of the branches, as the spec words it

    "A branch is switchable when the count of start-tags it has consumed
    equals the count of end-tags it has consumed."  The code keeps no such
    counts; they are computed here from the call log. *)
Record Balance := mkBalance {
  startsA : nat; endsA : nat; startsB : nat; endsB : nat;
}.

Definition consumed (log : list (Branch * bool)) (x : Branch) : bool :=
  existsb (λ c, bool_decide (c.1 = x) && c.2) log.

Definition count (hit : bool) (n : nat) : nat := if hit then S n else n.

Definition tally (bal : Balance) (name : string)
    (log : list (Branch * bool)) : Balance :=
  let isStart := bool_decide (name = "enterStartTag") in
  let isEnd := bool_decide (name = "endTag") in
  {| startsA := count (isStart && consumed log BranchA) (startsA bal);
     endsA := count (isEnd && consumed log BranchA) (endsA bal);
     startsB := count (isStart && consumed log BranchB) (startsB bal);
     endsB := count (isEnd && consumed log BranchB) (endsB bal) |}.

Definition inFlight (bal : Balance) (x : Branch) : bool :=
  match x with
  | BranchA => (endsA bal <? startsA bal)%nat
  | BranchB => (endsB bal <? startsB bal)%nat
  end.

Fixpoint runBalance (evs : list Event) (w : t) (bal : Balance)
    : t * Balance :=
  match evs with
  | [] => (w, bal)
  | e :: evs' =>
      let '(w', _, log) := fireEventLog w (ev_name e) (ev_params e) in
      runBalance evs' w' (tally bal (ev_name e) log)
  end.

Definition other (x : Branch) : Branch :=
  match x with BranchA => BranchB | BranchB => BranchA end.

(** The rule of the spec for a walker started in state [w0]: while a
    branch is in flight an event is fed to that branch only, and the other
    branch consumes nothing. *)
Definition InFlightExclusive (w0 : t) : Prop :=
  ∀ evs e x,
    let '(w, bal) := runBalance evs w0 (mkBalance 0 0 0 0) in
    inFlight bal x = true →
    let log := (fireEventLog w (ev_name e) (ev_params e)).2 in
    (log.*1 = [] ∨ log.*1 = [x]) ∧ consumed log (other x) = false.
End Def.
Arguments t {_} WA WB.
End InterleaveWalker.

(** [Interleave.newWalker] returns [new InterleaveWalker(this, nameResolver)]. *)
#[global] Instance Interleave_pattern `{Host} {PA WA PB WB : Type}
    `{!Pattern.BasePattern PA WA} `{!Pattern.BasePattern PB WB}
    `{!Walker.InternalWalker WA} `{!Walker.InternalWalker WB}
  : Pattern.BasePattern (Interleave.t PA PB) (InterleaveWalker.t WA WB) := {|
  Pattern.hasEmptyPattern := Interleave.hasEmptyPattern;
  Pattern.hasAttrs := Interleave.hasAttrs;
  Pattern.newWalker := InterleaveWalker.new;
|}.

(** ** What the interleave walker expects of its subwalkers

    The subwalkers are instances of classes defined in other modules.  The
    properties below are what [InterleaveWalker] relies on; they are stated
    for the states a subwalker goes through when started in [w0]. *)
Module Contract.
Section Def.
Context `{Walker.InternalWalker W}.

(** An event that is not matched leaves [canEnd] as it was. *)
Definition UnmatchedKeepsCanEnd (w0 : W) : Prop :=
  ∀ w name params,
    Walker.Reachable w0 w →
    matched (Walker.fireEvent w name params).2 = false →
    Walker.canEnd (Walker.fireEvent w name params).1 = Walker.canEnd w.

(** [canEndAttribute] changes only when an attribute event is matched. *)
Record KeepsCanEndAttribute (w0 : W) : Prop := {
  unmatched_keeps : ∀ w name params,
    Walker.Reachable w0 w →
    matched (Walker.fireEvent w name params).2 = false →
    Walker.canEndAttribute (Walker.fireEvent w name params).1
    = Walker.canEndAttribute w;
  content_keeps : ∀ w name params,
    Walker.Reachable w0 w →
    isAttributeEvent name = false →
    Walker.canEndAttribute (Walker.fireEvent w name params).1
    = Walker.canEndAttribute w;
}.

(** [canEnd] tells whether [end()] returns false. *)
Definition EndAgrees (w0 : W) : Prop :=
  ∀ w, Walker.Reachable w0 w →
       (Walker.canEnd w = true ↔ (Walker.end_ w).2 = None).

(** An event that is not matched is not consumed: the walker is as it
    was before the call. *)
Definition UnmatchedIdle (w0 : W) : Prop :=
  ∀ w name params,
    Walker.Reachable w0 w →
    matched (Walker.fireEvent w name params).2 = false →
    (Walker.fireEvent w name params).1 = w.

(** Cloning through any memo gives a walker that behaves the same. *)
Definition CloneFaithful : Prop :=
  ∀ (w : W) (memo : CloneMap),
    Walker.Equivalent w (Walker._clone w memo).1.
End Def.

Section Two.
Context `{Host} {WA WB : Type}.
Context `{!Walker.InternalWalker WA} `{!Walker.InternalWalker WB}.

(** No event is matched both by a state that the first operand reaches
    and by a state that the second operand reaches, whatever the events
    that led each of them there.  This asks more than the restriction
    Relax NG puts on interleave: two attribute patterns with different
    names are allowed there, and both match an attribute value once each
    has matched its name. *)
Definition Disjoint (a0 : WA) (b0 : WB) : Prop :=
  ∀ a b name params,
    Walker.Reachable a0 a → Walker.Reachable b0 b →
    matched (Walker.fireEvent a name params).2 = true →
    matched (Walker.fireEvent b name params).2 = true → False.
End Two.
End Contract.

(** ** Relax NG nullability, as the Relax NG derivative algorithm defines it *)
Module RelaxNG.

Inductive nameClass :=
| AnyName
| AnyNameExcept (except : nameClass)
| NsName (ns : string)
| NsNameExcept (ns : string) (except : nameClass)
| Name (ns local : string)
| NameChoice (a b : nameClass).

Inductive pattern :=
| Empty
| NotAllowed
| Text
| Choice (a b : pattern)
| Interleave (a b : pattern)
| Group (a b : pattern)
| OneOrMore (p : pattern)
| List (p : pattern)
| Data (datatype : string)
| DataExcept (datatype : string) (except : pattern)
| Value (datatype value : string)
| Attribute (nc : nameClass) (p : pattern)
| Element (nc : nameClass) (p : pattern).

Fixpoint nullable (p : pattern) : bool :=
  match p with
  | Empty | Text => true
  | Choice a b => nullable a || nullable b
  | Interleave a b | Group a b => nullable a && nullable b
  | OneOrMore p => nullable p
  | NotAllowed | List _ | Data _ | DataExcept _ _ | Value _ _
  | Attribute _ _ | Element _ _ => false
  end.

End RelaxNG.

(** ** Walkers used in examples

    [Script.t] is a walker that expects a fixed sequence of events, one
    after the other: it matches an event that is the next one expected and
    nothing else.  It stands for a subwalker in examples. *)
Module Script.
Section Def.
Context `{Host}.

Definition t := list Event.

Definition fireEvent (w : t) (name : string) (params : list string)
    : t * InternalFireEventResult :=
  match w with
  | e :: rest =>
      if bool_decide (e = mkEvent name params)
      then (rest, mkResult true None)
      else (w, mkResult false None)
  | [] => (w, mkResult false None)
  end.

Definition canEnd (w : t) : bool := bool_decide (w = []).

Definition canEndAttribute (w : t) : bool :=
  forallb (λ e, negb (isAttributeEvent (ev_name e))) w.

Definition end_ (w : t) : t * EndResult :=
  if canEnd w then (w, None)
  else (w, Some [mkValidationError "events missing"]).

Definition endAttributes (w : t) : t * EndResult :=
  if canEndAttribute w then (w, None)
  else (w, Some [mkValidationError "attributes missing"]).

Definition possible (w : t) : EventSet :=
  match w with e :: _ => {[ e ]} | [] => ∅ end.

Definition possibleAttributes (w : t) : EventSet :=
  match w with
  | e :: _ => if isAttributeEvent (ev_name e) then {[ e ]} else ∅
  | [] => ∅
  end.

#[global] Instance walker : Walker.InternalWalker t := {|
  Walker.fireEvent := fireEvent;
  Walker.end_ := end_;
  Walker.endAttributes := endAttributes;
  Walker.possible := possible;
  Walker.possibleAttributes := possibleAttributes;
  Walker.canEnd := canEnd;
  Walker.canEndAttribute := canEndAttribute;
  Walker._clone := λ w memo, (w, memo);
|}.

(** The pattern of a script is the script itself. *)
Record pat := mkPat { events : list Event }.

#[global] Instance pattern : Pattern.BasePattern pat t := {|
  Pattern.hasEmptyPattern := λ p, bool_decide (events p = []);
  Pattern.hasAttrs :=
    λ p, existsb (λ e, isAttributeEvent (ev_name e)) (events p);
  Pattern.newWalker := λ p _, events p;
|}.
End Def.

(** A host for examples: resolvers are numbered objects and the memo is
    the list of the pairs (original, clone) made so far. *)
Definition memoLookup (r : nat) (memo : list (nat * nat)) : option nat :=
  snd <$> List.find (λ p, bool_decide (p.1 = r)) memo.

#[global] Instance host : Host := {|
  NameResolver := nat;
  CloneMap := list (nat * nat);
  cloneIfNeeded := λ r memo,
    match memoLookup r memo with
    | Some r' => (r', memo)
    | None =>
        let r' := S (foldr (λ p m, Nat.max (Nat.max p.1 p.2) m) r memo) in
        (r', (r, r') :: memo)
    end;
|}.

Definition startTag (n : string) : Event := mkEvent "enterStartTag" [""; n].
Definition endTag (n : string) : Event := mkEvent "endTag" [""; n].
Definition text (s : string) : Event := mkEvent "text" [s].
Definition attributeName (n : string) : Event :=
  mkEvent "attributeName" [""; n].
Definition attributeValue (s : string) : Event := mkEvent "attributeValue" [s].

End Script.

(** ** Patterns and walkers of the examples *)
Module Examples.
Import Script.

(** interleave { text "x", element b { empty } } *)
Definition textX : Script.pat := mkPat [text "x"].
Definition elementB : Script.pat := mkPat [startTag "b"; endTag "b"].

(** Operands that consume the start tag of an element and leave the rest
    of the element to the walker of that element. *)
Definition startA : Script.pat := mkPat [startTag "a"].
Definition startB : Script.pat := mkPat [startTag "b"].

(** interleave { (x, y), x } and the other way round *)
Definition elementX : Script.pat := mkPat [startTag "x"; endTag "x"].
Definition elementsXY : Script.pat :=
  mkPat [startTag "x"; endTag "x"; startTag "y"; endTag "y"].
Definition attributeA : Script.pat :=
  mkPat [attributeName "a"; attributeValue "1"].

Definition resolver : @NameResolver Script.host := 0.

Definition interleave (a b : Script.pat)
    : InterleaveWalker.t Script.t Script.t :=
  InterleaveWalker.new (Interleave.mk a b) resolver.

End Examples.

(** ** A subwalker whose [canEnd] changes on an event it does not match *)
Module Late.
Section Def.
Context `{Host}.

(** The state tells whether an event was offered.  The walker matches no
    event; it can end once an event was offered to it, and [end()] agrees
    with [canEnd]. *)
Definition t := bool.

Definition fireEvent (w : t) (name : string) (params : list string)
    : t * InternalFireEventResult :=
  (true, mkResult false None).

Definition canEnd (w : t) : bool := w.

Definition end_ (w : t) : t * EndResult :=
  if w then (w, None) else (w, Some [mkValidationError "nothing offered"]).

#[global] Instance walker : Walker.InternalWalker t := {|
  Walker.fireEvent := fireEvent;
  Walker.end_ := end_;
  Walker.endAttributes := λ w, (w, None);
  Walker.possible := λ _, ∅;
  Walker.possibleAttributes := λ _, ∅;
  Walker.canEnd := canEnd;
  Walker.canEndAttribute := λ _, true;
  Walker._clone := λ w memo, (w, memo);
|}.

Inductive pat := mkPat.

#[global] Instance pattern : Pattern.BasePattern pat t := {|
  Pattern.hasEmptyPattern := λ _, false;
  Pattern.hasAttrs := λ _, false;
  Pattern.newWalker := λ _ _, false;
|}.
End Def.

(** The interleave of two such operands. *)
Definition interleave : InterleaveWalker.t (H := Script.host) t t :=
  InterleaveWalker.new (Interleave.mk mkPat mkPat) Examples.resolver.

End Late.

(** ** Relations between interleave walkers used in the statements *)
Section Relations.
Context `{Host} {WA WB : Type}.
Context `{!Walker.InternalWalker WA} `{!Walker.InternalWalker WB}.

Import InterleaveWalker.

(** The two equations of the walker. *)
Definition CanEndCached (w : InterleaveWalker.t WA WB) : Prop :=
  canEnd w = Walker.canEnd (walkerA w) && Walker.canEnd (walkerB w).

Definition CanEndAttributeCached (w : InterleaveWalker.t WA WB) : Prop :=
  canEndAttribute w =
    negb (hasAttrs w)
    || (Walker.canEndAttribute (walkerA w)
        && Walker.canEndAttribute (walkerB w)).

(** A walker of [Interleave(a,b)] and one of [Interleave(b,a)] that hold
    the same subwalkers, each on the other side. *)
Definition Swapped (w : InterleaveWalker.t WA WB)
    (w' : InterleaveWalker.t WB WA) : Prop :=
  ended w = ended w' ∧ hasAttrs w = hasAttrs w'
  ∧ walkerA w = walkerB w' ∧ walkerB w = walkerA w'
  ∧ canEnd w = canEnd w' ∧ canEndAttribute w = canEndAttribute w'.

(** Two walkers with the same fields and subwalkers that behave alike. *)
Definition Alike (w w' : InterleaveWalker.t WA WB) : Prop :=
  ended w = ended w' ∧ hasAttrs w = hasAttrs w'
  ∧ canEnd w = canEnd w' ∧ canEndAttribute w = canEndAttribute w'
  ∧ Walker.Equivalent (walkerA w) (walkerA w')
  ∧ Walker.Equivalent (walkerB w) (walkerB w').
End Relations.

Section Languages.
Context `{Host} {PA WA PB WB : Type}.
Context `{!Walker.InternalWalker WA} `{!Walker.InternalWalker WB}.
Context `{!Pattern.BasePattern PA WA} `{!Pattern.BasePattern PB WB}.

(** Commutativity for two given patterns: the walkers of [Interleave(a,b)]
    and of [Interleave(b,a)] accept the same sequences of events. *)
Definition SameLanguage (pA : PA) (pB : PB) (nr : NameResolver) : Prop :=
  ∀ evs,
    Walker.accepts evs (InterleaveWalker.new (Interleave.mk pA pB) nr) = true
    ↔ Walker.accepts evs (InterleaveWalker.new (Interleave.mk pB pA) nr)
      = true.
End Languages.

(** ** JavaScript values the conversion tool handles *)
Module Js.

(** A [number]: every double is NaN, an infinity or a rational. *)
Inductive Number := NaN | Infinity (negative : bool) | Finite (q : Q).

Definition ofZ (z : Z) : Number := Finite (inject_Z z).

(** [a < b] *)
Definition lt (a b : Number) : bool :=
  match a, b with
  | NaN, _ | _, NaN => false
  | Infinity true, Infinity true => false
  | Infinity true, _ => true
  | _, Infinity true => false
  | Infinity false, _ => false
  | Finite _, Infinity false => true
  | Finite p, Finite q => negb (Qle_bool q p)
  end.

(** [a === b], which is also how [switch] compares. *)
Definition strictEq (a b : Number) : bool :=
  match a, b with
  | Finite p, Finite q => Qeq_bool p q
  | Infinity s, Infinity s' => bool_decide (s = s')
  | _, _ => false
  end.

(** The text of a template literal: a string, possibly followed by a
    number. *)
Inductive Message :=
| Msg (s : string)
| MsgNumber (s : string) (n : Number).

(** What is thrown: the class [Fatal] of the tool, a plain [Error], or the
    [TypeError] of an access through [undefined]. *)
Inductive Exception :=
| Fatal (message : Message)
| Error (message : Message)
| TypeError.

Definition Result (A : Type) : Type := Exception + A.

End Js.

(** ** The writer of the JSON format ([DefaultConversionWalker]) *)
Module Conversion.
Import Js.

(** Modelled from the spec: [OPTION_NO_PATHS] is defined in
    json-format/common.ts, which is outside the files embedded here.  The
    spec gives "Flags: bit 0 = OPTION_NO_PATHS". *)
Definition OPTION_NO_PATHS : Z := 1.

(** Modelled from the spec: the parsed tree is defined in
    conversion/parser.ts, which is outside the files embedded here.  The
    walker reads of an element its [local] name, its [path], its attributes
    (through [mustGetAttribute]), its [children] and its [text]; a child is
    an element or a text node. *)
#[local] Unset Elimination Schemes.
Inductive Node :=
| Element (local path : string) (attributes : list (string * string))
          (children : list Node)
| Text (text : string).
#[local] Set Elimination Schemes.

(** [node.text]: the text of a text node, the concatenated text of the
    children of an element. *)
Fixpoint nodeText (n : Node) : string :=
  match n with
  | Text s => s
  | Element _ _ _ children =>
      (fix go (l : list Node) : string :=
         match l with
         | [] => ""
         | c :: rest => nodeText c ++ go rest
         end) children
  end.

Definition localOf (n : Node) : option string :=
  match n with Element l _ _ _ => Some l | Text _ => None end.

(** [el.mustGetAttribute(name)] throws when the attribute is missing. *)
Definition mustGetAttribute (attributes : list (string * string))
    (name : string) : Result string :=
  match List.find (λ a, bool_decide (a.1 = name)) attributes with
  | Some a => inr a.2
  | None => inl (Error (Msg ("no attribute named " ++ name)))
  end.

Record ConstructState := mkConstruct {
  open : string;
  close : string;
  first : bool;
}.

(** An item given to [outputItem]: [string | number]. *)
Inductive Item := Str (s : string) | Num (n : Z).

Record t := mk {
  arrayStart : Item;
  inNameClass : bool;
  _output : string;
  _constructState : list ConstructState;
  includePaths : bool;
  verbose : bool;
}.

(** A method of the walker: the new state, or what it throws. *)
Definition Method : Type := t → Result t.

Definition done_ : Method := λ st, inr st.
Definition throw (e : Exception) : Method := λ _, inl e.
Definition andThen (m1 m2 : Method) : Method :=
  λ st, match m1 st with inl e => inl e | inr st' => m2 st' end.
Definition withValue {A : Type} (r : Result A) (k : A → Method) : Method :=
  λ st, match r with inl e => inl e | inr a => k a st end.
(** A method that reads fields of [this]. *)
Definition withState (f : t → Method) : Method := λ st, f st st.

Declare Scope method_scope.
Delimit Scope method_scope with method.
Bind Scope method_scope with Method.
Notation "m1 ;; m2" := (andThen m1 m2)
  (at level 100, m2 at level 200, right associativity) : method_scope.
Open Scope method_scope.

(** The double quote character and the string made of it. *)
Definition dquote : Ascii.ascii := Ascii.ascii_of_nat 34.
Definition backslash : Ascii.ascii := Ascii.ascii_of_nat 92.
Definition quoteMark : string := String dquote EmptyString.

(** The [replace] of [outputAsString]: a backslash is put before every
    double quote and every backslash. *)
Fixpoint escape (s : string) : string :=
  match s with
  | EmptyString => EmptyString
  | String c rest =>
      if bool_decide (c = dquote) || bool_decide (c = backslash)
      then String backslash (String c (escape rest))
      else String c (escape rest)
  end.

Definition quoted (s : string) : string := quoteMark ++ escape s ++ quoteMark.

(** The constructor: only version 3 is supported. *)
Definition new (version : Number) (includePaths verbose : bool) : Result t :=
  if negb (strictEq version (ofZ 3))
  then inl (Error (Msg "DefaultConversionWalker only supports version 3"))
  else inr {| arrayStart := if verbose then Str (quoted "Array") else Num 0;
              inNameClass := false;
              _output := "";
              _constructState := [mkConstruct "" "" true];
              includePaths := includePaths;
              verbose := verbose |}.

Definition emit (s : string) : Method :=
  λ st, inr {| arrayStart := arrayStart st; inNameClass := inNameClass st;
               _output := _output st ++ s;
               _constructState := _constructState st;
               includePaths := includePaths st; verbose := verbose st |}.

Definition setConstructState (cs : list ConstructState) : Method :=
  λ st, inr {| arrayStart := arrayStart st; inNameClass := inNameClass st;
               _output := _output st;
               _constructState := cs;
               includePaths := includePaths st; verbose := verbose st |}.

Definition setInNameClass (b : bool) : Method :=
  λ st, inr {| arrayStart := arrayStart st; inNameClass := b;
               _output := _output st;
               _constructState := _constructState st;
               includePaths := includePaths st; verbose := verbose st |}.

Definition openConstruct (open close : string) : Method :=
  λ st, (setConstructState (mkConstruct open close true :: _constructState st)
         ;; emit open) st.

Definition closeConstruct (close_ : string) : Method :=
  λ st, match _constructState st with
        | [] => inr st
        | top :: rest =>
            if bool_decide (close_ ≠ close top)
            then inl (Error (Msg ("construct mismatch: " ++ close top
                                  ++ " vs " ++ close_)))
            else (setConstructState rest ;; emit close_) st
        end.

Definition newItem : Method :=
  λ st, match _constructState st with
        | [] => inl TypeError
        | top :: rest =>
            if first top
            then setConstructState
                   (mkConstruct (open top) (close top) false :: rest) st
            else emit "," st
        end.

Definition itemText (item : Item) : string :=
  match item with Num n => pretty n | Str s => s end.

Definition outputItem (item : Item) : Method :=
  newItem ;; emit (itemText item).

Definition outputAsString (thing : string) : Method :=
  newItem ;; emit (quoted thing).

Definition openArray : Method :=
  openConstruct "[" "]" ;; withState (λ st, outputItem (arrayStart st)).

(** [s.charAt(0).toUpperCase() + s.slice(1)], for names in ASCII. *)
Definition toUpperCase (c : Ascii.ascii) : Ascii.ascii :=
  let n := Ascii.nat_of_ascii c in
  if (97 <=? n)%nat && (n <=? 122)%nat then Ascii.ascii_of_nat (n - 32) else c.

Definition capitalize (s : string) : string :=
  match s with
  | EmptyString => EmptyString
  | String c rest => String (toUpperCase c) rest
  end.

(** [/^\d+$/.test(name)] *)
Definition isDigit (c : Ascii.ascii) : bool :=
  let n := Ascii.nat_of_ascii c in (48 <=? n)%nat && (n <=? 57)%nat.

Fixpoint allDigits (s : string) : bool :=
  match s with
  | EmptyString => true
  | String c rest => isDigit c && allDigits rest
  end.

Definition isNumeric (s : string) : bool :=
  negb (bool_decide (s = "")) && allDigits s.

(** [parseInt(name)] of a string of digits.  The value is exact here; in
    the source it is a double, which is exact up to 2^53. *)
Fixpoint parseDigits (s : string) (acc : Z) : Z :=
  match s with
  | EmptyString => acc
  | String c rest =>
      parseDigits rest (10 * acc + Z.of_nat (Ascii.nat_of_ascii c - 48))%Z
  end.

Definition parseInt (s : string) : Z := parseDigits s 0.

(** A [ref] or [define] name: a number when it is all digits. *)
Definition outputName (name : string) : Method :=
  if isNumeric name then outputItem (Num (parseInt name))
  else outputAsString name.

Section Walk.
(** [nameToCode] of json-format/common.ts, the table of constructor
    codes. *)
Variable nameToCode : string → option Z.

Definition lookupCode (name : string) : Result Z :=
  match nameToCode name with
  | Some code => inr code
  | None => inl (Error (Msg ("can't find constructor for " ++ name)))
  end.

(** The text [{dq}v{dq}:3,{dq}o{dq}:<o>,{dq}d{dq}:] of the template literal
    in the [grammar] case, [{dq}] being the double quote. *)
Definition objectStart (o : Z) : string :=
  quoteMark ++ "v" ++ quoteMark ++ ":3,"
  ++ quoteMark ++ "o" ++ quoteMark ++ ":" ++ pretty o
  ++ "," ++ quoteMark ++ "d" ++ quoteMark ++ ":".

(** The constructor entry and, when paths are included, the path: the
    start of every array written for an element. *)
Definition outputHead (name : string) (code : Z) (path : string) : Method :=
  withState (λ st,
    if verbose st then outputAsString name else outputItem (Num code)) ;;
  withState (λ st,
    if includePaths st then outputAsString path else done_).

(** The arguments of an element, by its name: the inner [switch]. *)
Definition walkArguments (elName : string)
    (attributes : list (string * string)) (text : string)
    (hasParams hasExcept : bool) (length : nat)
    (walkChildren : nat → option nat → Method)
    (walkFirst walkLast : Method) : Method :=
  if bool_decide (elName = "ref") then
    withValue (mustGetAttribute attributes "name") (λ name,
    outputName name)
  else if bool_decide (elName = "define") then
    withValue (mustGetAttribute attributes "name") (λ name,
    outputName name ;;
    newItem ;; openArray ;; walkChildren 0%nat None ;; closeConstruct "]")
  else if bool_decide (elName = "value") then
    outputAsString text ;;
    withValue (mustGetAttribute attributes "type") (λ typeAttr,
    withValue (mustGetAttribute attributes "datatypeLibrary")
      (λ datatypeLibraryAttr,
    withValue (mustGetAttribute attributes "ns") (λ nsAttr,
    if bool_decide (typeAttr ≠ "token")
       || bool_decide (datatypeLibraryAttr ≠ "")
       || bool_decide (nsAttr ≠ "")
    then
      outputAsString typeAttr ;;
      if bool_decide (datatypeLibraryAttr ≠ "") || bool_decide (nsAttr ≠ "")
      then
        outputAsString datatypeLibraryAttr ;;
        if bool_decide (nsAttr ≠ "") then outputAsString nsAttr else done_
      else done_
    else done_)))
  else if bool_decide (elName = "data") then
    withValue (mustGetAttribute attributes "type") (λ typeAttr,
    withValue (mustGetAttribute attributes "datatypeLibrary")
      (λ datatypeLibraryAttr,
    if bool_decide (typeAttr ≠ "token")
       || bool_decide (datatypeLibraryAttr ≠ "")
       || hasParams || hasExcept
    then
      outputAsString typeAttr ;;
      if bool_decide (datatypeLibraryAttr ≠ "") || hasParams || hasExcept
      then
        outputAsString datatypeLibraryAttr ;;
        if hasParams || hasExcept then
          newItem ;; openArray ;;
          (if hasParams
           then walkChildren 0%nat
                  (if hasExcept then Some (length - 1)%nat else None)
           else done_) ;;
          closeConstruct "]" ;;
          (if hasExcept then walkLast else done_)
        else done_
      else done_
    else done_))
  else if bool_decide (elName = "group")
          || bool_decide (elName = "interleave")
          || bool_decide (elName = "choice")
          || bool_decide (elName = "oneOrMore") then
    newItem ;; openArray ;; walkChildren 0%nat None ;; closeConstruct "]"
  else if bool_decide (elName = "element")
          || bool_decide (elName = "attribute") then
    setInNameClass true ;; walkFirst ;; setInNameClass false ;;
    newItem ;; openArray ;; walkChildren 1%nat None ;; closeConstruct "]"
  else if bool_decide (elName = "name") then
    withValue (mustGetAttribute attributes "ns") (λ ns,
    outputAsString ns ;; outputAsString text)
  else if bool_decide (elName = "nsName") then
    withValue (mustGetAttribute attributes "ns") (λ ns,
    outputAsString ns ;; walkChildren 0%nat None)
  else walkChildren 0%nat None.

(** The name under which an element is written: capitalized, and
    [NameChoice] for a [choice] inside a name class. *)
Definition constructorName (inNameClass : bool) (elName : string) : string :=
  let capitalized := capitalize elName in
  if inNameClass && bool_decide (capitalized = "Choice") then "NameChoice"
  else capitalized.

(** The body of [walk] for an element, given what walking its children
    does: the outer [switch]. *)
Definition walkElement (elName path : string)
    (attributes : list (string * string)) (text : string)
    (firstText : option string)
    (hasParams hasExcept : bool) (length : nat)
    (walkChildren : nat → option nat → Method)
    (walkFirst walkLast : Method) : Method :=
  if bool_decide (elName = "start") then walkChildren 0%nat None
  else if bool_decide (elName = "param") then
    withValue (mustGetAttribute attributes "name") (λ name,
    outputAsString name ;;
    match firstText with
    | Some text0 => outputAsString text0
    | None => throw TypeError
    end)
  else if bool_decide (elName = "grammar") then
    openConstruct "{" "}" ;;
    withState (λ st,
      outputItem
        (Str (objectStart
                (if includePaths st then 0%Z else OPTION_NO_PATHS)))) ;;
    withValue (lookupCode "Grammar") (λ ctor,
    openConstruct "[" "]" ;;
    outputHead "Grammar" ctor path ;;
    walkFirst ;;
    newItem ;; openArray ;; walkChildren 1%nat None ;;
    closeConstruct "]" ;; closeConstruct "]" ;; closeConstruct "}")
  else if bool_decide (capitalize elName = "Except") then
    walkChildren 0%nat None
  else
    withState (λ st,
      let capitalized := constructorName (inNameClass st) elName in
      newItem ;;
      withValue (lookupCode capitalized) (λ ctor,
      openConstruct "[" "]" ;;
      outputHead capitalized ctor path ;;
      walkArguments elName attributes text hasParams hasExcept length
        walkChildren walkFirst walkLast ;;
      closeConstruct "]")).

Definition isNamed (name : string) (n : option Node) : bool :=
  match n with
  | Some (Element l _ _ _) => bool_decide (l = name)
  | _ => false
  end.

(** Modelled from the spec: [walkChildren(el, startAt, endAt)] belongs to
    the base class [ConversionWalker], which is outside the files embedded
    here.  It calls [walk] on the children that are elements, from
    [startAt] up to [endAt] or the last one. *)
Definition walkChildren (walk : Node → Method) (children : list Node)
    (startAt : nat) (endAt : option nat) : Method :=
  (fix go (l : list Node) (ix : nat) : Method :=
     match l with
     | [] => done_
     | child :: rest =>
         (if (startAt <=? ix)%nat
             && (ix <? default (List.length children) endAt)%nat
          then match child with
               | Element _ _ _ _ => walk child
               | Text _ => done_
               end
          else done_) ;; go rest (S ix)
     end) children 0%nat.

(** [this.walk(el.children[0] as Element)]: without a first child the
    source reads [.local] of [undefined] and throws a [TypeError]. *)
Definition walkFirst (walk : Node → Method) (children : list Node) : Method :=
  match children with
  | child :: _ => walk child
  | [] => throw TypeError
  end.

(** [this.walk(el.children[el.children.length - 1] as Element)] *)
Definition walkLast (walk : Node → Method) (children : list Node) : Method :=
  (fix last (l : list Node) : Method :=
     match l with
     | [] => throw TypeError
     | [child] => walk child
     | _ :: rest => last rest
     end) children.

(** [walk(el)].  A text node where the source expects an element has no
    [local]; the source then throws a [TypeError] in the default case. *)
Fixpoint walk (el : Node) : Method :=
  match el with
  | Text _ => throw TypeError
  | Element elName path attributes children =>
      walkElement elName path attributes (nodeText el)
        (nodeText <$> head children)
        (isNamed "param" (head children))
        (isNamed "except" (List.last (Some <$> children) None))
        (List.length children)
        (walkChildren walk children)
        (walkFirst walk children)
        (walkLast walk children)
  end.

End Walk.

(** *** What a method does to the output and to the stack of constructs *)

(** The stack after an item was announced in the construct on top. *)
Definition touch (cs : list ConstructState) : list ConstructState :=
  match cs with
  | top :: rest => mkConstruct (open top) (close top) false :: rest
  | [] => []
  end.

(** The separator [newItem] writes. *)
Definition separator (cs : list ConstructState) : string :=
  match cs with
  | top :: _ => if first top then "" else ","
  | [] => ""
  end.

(** The fields that are fixed when the walker is made. *)
Definition SameConfig (st st' : t) : Prop :=
  includePaths st' = includePaths st
  ∧ verbose st' = verbose st
  ∧ arrayStart st' = arrayStart st.

(** [Pops n m]: run in a state whose stack has at least [n] constructs,
    [m] only appends to the output and leaves the stack without its [n]
    topmost constructs, up to an item announced in the construct that is
    then on top. *)
Definition Pops (n : nat) (m : Method) : Prop :=
  ∀ st st',
    m st = inr st' →
    (n ≤ List.length (_constructState st))%nat →
    (∃ s, _output st' = _output st ++ s)
    ∧ (_constructState st' = drop n (_constructState st)
       ∨ _constructState st' = touch (drop n (_constructState st)))
    ∧ SameConfig st st'.

Abbreviation Appends := (Pops 0).

(** The text of the constructor entry and of the path entry. *)
Definition headText (st : t) (name : string) (code : Z) (path : string)
    : string :=
  (if verbose st then quoted name else pretty code)
  ++ (if includePaths st then "," ++ quoted path else "").


End Conversion.

(** ** The command line tool salve-convert *)
Module SalveConvert.
Import Js.

(** The parsed arguments ([parser.parseArgs()]). *)
Record Args := mkArgs {
  no_optimize_ids : bool;
  include_paths : bool;
  format_version : Number;
  simplify_only : bool;
  simplified_input : bool;
  keep_temp : bool;
  verbose : bool;
  timing : bool;
  verbose_format : bool;
  allow_incomplete_types : option string;
  input_path : string;
  output_path : string;
}.

(** How the process ends when an exception reaches the top level. *)
Inductive Termination :=
| Exit (code : Z) (stderr : list (string * Message))
| Rethrown (ex : Exception) (tempCleaned : bool)
| Ignored.

(** The handler installed with [process.on("uncaughtException", ...)].
    [prog] is the name of the program, [terminating] the flag of the
    module and [args] the arguments, if they were parsed already. *)
Definition onUncaughtException (prog : string) (terminating : bool)
    (args : option Args) (ex : Exception) : Termination :=
  if terminating then Ignored
  else
    match ex with
    | Fatal message => Exit 1 [(prog ++ ": ", message)]
    | _ =>
        Rethrown ex
          (match args with
           | None => true
           | Some a => negb (keep_temp a)
           end)
    end.

(** The two adjustments made right after parsing. *)
Definition adjust (args : Args) : Args :=
  let verbose' := if timing args then true else verbose args in
  let no_optimize_ids' :=
    if verbose_format args then true else no_optimize_ids args in
  {| no_optimize_ids := no_optimize_ids'; include_paths := include_paths args;
     format_version := format_version args;
     simplify_only := simplify_only args;
     simplified_input := simplified_input args; keep_temp := keep_temp args;
     verbose := verbose'; timing := timing args;
     verbose_format := verbose_format args;
     allow_incomplete_types := allow_incomplete_types args;
     input_path := input_path args; output_path := output_path args |}.

(** [if (args.format_version < 3) throw new Fatal(...)] *)
Definition checkFormatVersion (args : Args) : Result unit :=
  if lt (format_version args) (ofZ 3)
  then inl (Fatal (MsgNumber "can't produce format version "
                     (format_version args)))
  else inr tt.

(** What the top level of the module does with the arguments, up to the
    point where it starts validating, simplifying or converting. *)
Inductive Started :=
| Ended (how : Termination)
| Proceeds (args : Args).

Definition main (prog : string) (args : Args) : Started :=
  let args := adjust args in
  match checkFormatVersion args with
  | inl ex => Ended (onUncaughtException prog false (Some args) ex)
  | inr _ => Proceeds args
  end.

(** The [switch] of [convert] that makes the conversion walker. *)
Definition makeWalker (args : Args) : Result Conversion.t :=
  if strictEq (format_version args) (ofZ 3)
  then Conversion.new (format_version args) (include_paths args)
         (verbose_format args)
  else inl (Error (MsgNumber "unknown version: " (format_version args))).

End SalveConvert.

(** ** The regexp translator (datatypes/regexp)

    Modelled from the spec: the translator itself is outside the files
    embedded here, only its tests are (test/regexp_test.js).  The
    definitions below follow the translation table of the spec: grouping
    becomes a non-capturing group, [\s] and [\S] become the classes of the
    four XML space characters, a subtraction [[A-[B]]] becomes a negative
    lookahead for [B] followed by the positive class [A], a positive
    multi-character escape in a positive class is expanded in the class, and
    the whole expression is anchored.  The result is a pair of the string
    and of the matcher.  Constructs outside this fragment (category escapes,
    [\d], [\i], [\c], [\w], counted repetition) are not translated here:
    [parse] returns [None] for them. *)
Module Regexp.

Inductive quantifier := Opt | Star | Plus.

(** Expressions of XML Schema, as parsed. *)
Inductive xitem :=
| XChar (c : ascii)
| XRange (lo hi : ascii)
| XSpace.

Inductive xclass :=
| XClass (negated : bool) (items : list xitem)
| XSubtract (negated : bool) (items : list xitem) (sub : xclass).

Inductive xre :=
| XEmpty
| XLit (c : ascii)
| XDot
| XEscSpace (negative : bool)
| XCharClass (k : xclass)
| XGroup (r : xre)
| XSeq (a b : xre)
| XAlt (a b : xre)
| XQuant (r : xre) (q : quantifier).

(** Expressions of ECMAScript, as produced. *)
Inductive jitem :=
| JChar (c : ascii)
| JRange (lo hi : ascii).

Inductive jre :=
| JEmpty
| JLit (c : ascii)
| JDot
| JStart
| JEnd
| JSet (negated : bool) (items : list jitem)
| JGroup (r : jre)
| JNotAhead (r : jre)
| JSeq (a b : jre)
| JAlt (a b : jre)
| JQuant (r : jre) (q : quantifier).

(** *** Parsing the XML Schema syntax *)

Definition isMeta (c : ascii) : bool :=
  bool_decide (c ∈ ["."; "\"; "?"; "*"; "+"; "{"; "}"; "("; ")"; "|"; "[";
                    "]"]%char).

(** The items of a class after its opening bracket and optional [^], up
    to the closing bracket; [-[] starts the class that is subtracted. *)
Fixpoint parseClassItems (fuel : nat) (negated : bool) (acc : list xitem)
    (s : string) : option (xclass * string) :=
  match fuel with
  | O => None
  | S fuel' =>
      match s with
      | String "]" rest => Some (XClass negated acc, rest)
      | String "-" (String "[" rest) =>
          let '(negated', rest) :=
            match rest with
            | String "^" rest' => (true, rest')
            | _ => (false, rest)
            end in
          match parseClassItems fuel' negated' [] rest with
          | Some (sub, String "]" rest') =>
              Some (XSubtract negated acc sub, rest')
          | _ => None
          end
      | String "\" (String "s" rest) =>
          parseClassItems fuel' negated (acc ++ [XSpace])%list rest
      | String "\" _ => None
      | String lo (String "-" (String hi rest)) =>
          if bool_decide (hi = "["%char) || bool_decide (hi = "]"%char)
          then parseClassItems fuel' negated (acc ++ [XChar lo])%list
                 (String "-" (String hi rest))
          else parseClassItems fuel' negated (acc ++ [XRange lo hi])%list rest
      | String c rest =>
          parseClassItems fuel' negated (acc ++ [XChar c])%list rest
      | EmptyString => None
      end
  end.

Definition parseClass (fuel : nat) (s : string) : option (xclass * string) :=
  match s with
  | String "^" rest => parseClassItems fuel true [] rest
  | _ => parseClassItems fuel false [] s
  end.

Definition parseQuantifier (r : xre) (s : string) : xre * string :=
  match s with
  | String "?" rest => (XQuant r Opt, rest)
  | String "*" rest => (XQuant r Star, rest)
  | String "+" rest => (XQuant r Plus, rest)
  | _ => (r, s)
  end.

Fixpoint parseAlt (fuel : nat) (s : string) {struct fuel}
    : option (xre * string) :=
  match fuel with
  | O => None
  | S fuel' =>
      match parseSeq fuel' s with
      | Some (a, String "|" rest) =>
          match parseAlt fuel' rest with
          | Some (b, rest') => Some (XAlt a b, rest')
          | None => None
          end
      | r => r
      end
  end
with parseSeq (fuel : nat) (s : string) {struct fuel}
    : option (xre * string) :=
  match fuel with
  | O => None
  | S fuel' =>
      match s with
      | EmptyString => Some (XEmpty, s)
      | String c _ =>
          if bool_decide (c = "|"%char) || bool_decide (c = ")"%char)
          then Some (XEmpty, s)
          else
            match parseAtom fuel' s with
            | Some (a, rest) =>
                let '(p, rest) := parseQuantifier a rest in
                match parseSeq fuel' rest with
                | Some (XEmpty, rest') => Some (p, rest')
                | Some (q, rest') => Some (XSeq p q, rest')
                | None => None
                end
            | None => None
            end
      end
  end
with parseAtom (fuel : nat) (s : string) {struct fuel}
    : option (xre * string) :=
  match fuel with
  | O => None
  | S fuel' =>
      match s with
      | String "(" rest =>
          match parseAlt fuel' rest with
          | Some (r, String ")" rest') => Some (XGroup r, rest')
          | _ => None
          end
      | String "[" rest =>
          match parseClass fuel' rest with
          | Some (k, rest') => Some (XCharClass k, rest')
          | None => None
          end
      | String "\" (String "s" rest) => Some (XEscSpace false, rest)
      | String "\" (String "S" rest) => Some (XEscSpace true, rest)
      | String "." rest => Some (XDot, rest)
      | String c rest => if isMeta c then None else Some (XLit c, rest)
      | EmptyString => None
      end
  end.

Definition parseXsd (re : string) : option xre :=
  match parseAlt (3 * String.length re + 3) re with
  | Some (r, EmptyString) => Some r
  | _ => None
  end.

(** *** Translation

    Modelled from the spec: the rows of its translation table. *)

(** The four characters of [\s]: space, tab, newline, carriage return. *)
Definition spaceItems : list jitem :=
  [JChar " "; JChar "009"; JChar "010"; JChar "013"]%char.

Definition translateItem (i : xitem) : list jitem :=
  match i with
  | XChar c => [JChar c]
  | XRange lo hi => [JRange lo hi]
  | XSpace => spaceItems
  end.

(** Modelled from the spec: "[[A-[B]]] subtraction: [(?!B)A] (negative
    lookahead then positive class)", in a non-capturing group as in the
    expected strings of the tests. *)
Fixpoint translateClass (k : xclass) : jre :=
  match k with
  | XClass negated items => JSet negated (items ≫= translateItem)
  | XSubtract negated items sub =>
      JGroup (JSeq (JNotAhead (translateClass sub))
                   (JSet negated (items ≫= translateItem)))
  end.

(** Modelled from the spec: grouping becomes a non-capturing group, [\s]
    and [\S] the classes of the four space characters. *)
Fixpoint translate (r : xre) : jre :=
  match r with
  | XEmpty => JEmpty
  | XLit c => JLit c
  | XDot => JDot
  | XEscSpace negative => JSet negative spaceItems
  | XCharClass k => translateClass k
  | XGroup r => JGroup (translate r)
  | XSeq a b => JSeq (translate a) (translate b)
  | XAlt a b => JAlt (translate a) (translate b)
  | XQuant r q => JQuant (translate r) q
  end.

(** The expression whose string is [^] followed by the string of [r] and
    [$]: alternation binds less than the anchors, so [^] goes to the first
    branch and [$] to the last one. *)
Fixpoint withStart (r : jre) : jre :=
  match r with
  | JAlt a b => JAlt (withStart a) b
  | _ => JSeq JStart r
  end.

Fixpoint withEnd (r : jre) : jre :=
  match r with
  | JAlt a b => JAlt a (withEnd b)
  | _ => JSeq r JEnd
  end.

Definition anchored (r : jre) : jre := withEnd (withStart r).

(** *** The string of an ECMAScript expression *)

Definition charText (c : ascii) : string :=
  if bool_decide (c = "009"%char) then "\t"
  else if bool_decide (c = "010"%char) then "\n"
  else if bool_decide (c = "013"%char) then "\r"
  else String c EmptyString.

Definition itemText (i : jitem) : string :=
  match i with
  | JChar c => charText c
  | JRange lo hi => charText lo ++ "-" ++ charText hi
  end.

Definition quantifierText (q : quantifier) : string :=
  match q with Opt => "?" | Star => "*" | Plus => "+" end.

Fixpoint toString (r : jre) : string :=
  match r with
  | JEmpty => ""
  | JLit c => String c EmptyString
  | JDot => "."
  | JStart => "^"
  | JEnd => "$"
  | JSet negated items =>
      "[" ++ (if negated then "^" else "")
      ++ String.concat "" (itemText <$> items) ++ "]"
  | JGroup r => "(?:" ++ toString r ++ ")"
  | JNotAhead r => "(?!" ++ toString r ++ ")"
  | JSeq a b => toString a ++ toString b
  | JAlt a b => toString a ++ "|" ++ toString b
  | JQuant r q => toString r ++ quantifierText q
  end.

(** *** Matching an ECMAScript expression *)

Definition inItem (c : ascii) (i : jitem) : bool :=
  match i with
  | JChar c' => bool_decide (c = c')
  | JRange lo hi =>
      (nat_of_ascii lo <=? nat_of_ascii c)%nat
      && (nat_of_ascii c <=? nat_of_ascii hi)%nat
  end.

(** [matchAt r bos s k]: [r] matches a prefix of [s] and [k] accepts what
    follows; [bos] tells whether [s] is the whole input. *)
Fixpoint matchAt (r : jre) (bos : bool) (s : list ascii)
    (k : bool → list ascii → bool) : bool :=
  match r with
  | JEmpty => k bos s
  | JLit c =>
      match s with
      | c' :: s' => bool_decide (c = c') && k false s'
      | [] => false
      end
  | JDot =>
      match s with
      | c' :: s' =>
          negb (bool_decide (c' = "010"%char) || bool_decide (c' = "013"%char))
          && k false s'
      | [] => false
      end
  | JStart => bos && k bos s
  | JEnd => bool_decide (s = []) && k bos s
  | JSet negated items =>
      match s with
      | c :: s' => xorb negated (existsb (inItem c) items) && k false s'
      | [] => false
      end
  | JGroup r => matchAt r bos s k
  | JNotAhead r => negb (matchAt r bos s (λ _ _, true)) && k bos s
  | JSeq a b => matchAt a bos s (λ bos' s', matchAt b bos' s' k)
  | JAlt a b => matchAt a bos s k || matchAt b bos s k
  | JQuant r q =>
      let star :=
        fix star (n : nat) (bos : bool) (s : list ascii) : bool :=
          match n with
          | O => k bos s
          | S n' =>
              matchAt r bos s
                (λ bos' s',
                   (List.length s' <? List.length s)%nat && star n' bos' s')
              || k bos s
          end in
      match q with
      | Opt => matchAt r bos s k || k bos s
      | Star => star (List.length s) bos s
      | Plus => matchAt r bos s (λ bos' s', star (List.length s') bos' s')
      end
  end.

(** [RegExp.prototype.test]: a match starting anywhere in the text. *)
Fixpoint searchFrom (r : jre) (bos : bool) (s : list ascii) : bool :=
  matchAt r bos s (λ _ _, true)
  || match s with
     | _ :: s' => searchFrom r false s'
     | [] => false
     end.

Definition test (r : jre) (text : string) : bool :=
  searchFrom r true (String.list_ascii_of_string text).

(** Modelled from the spec: [parse(re)] gives "a pair: a string
    representation and a compiled matcher", the whole expression anchored. *)
Definition parse (re : string) : option (string * jre) :=
  match parseXsd re with
  | Some r => let j := anchored (translate r) in Some (toString j, j)
  | None => None
  end.

End Regexp.

(** ** A schema for the examples of the writer *)
Module ConversionExamples.
Import Conversion.

(** Constructor codes, as a table of json-format/common.ts could give
    them. *)
Definition codes (name : string) : option Z :=
  if bool_decide (name = "Empty") then Some 1%Z
  else if bool_decide (name = "Element") then Some 3%Z
  else if bool_decide (name = "Name") then Some 4%Z
  else if bool_decide (name = "Define") then Some 5%Z
  else if bool_decide (name = "Ref") then Some 6%Z
  else if bool_decide (name = "Grammar") then Some 20%Z
  else None.

(** element foo { empty } *)
Definition nameAndContent : list Node :=
  [Element "name" "/grammar/define/element/name" [("ns", "")] [Text "foo"];
   Element "empty" "/grammar/define/element/empty" [] []].

Definition elementFoo : Node :=
  Element "element" "/grammar/define/element" [] nameAndContent.

Definition definitions : list Node :=
  [Element "start" "/grammar/start" []
     [Element "ref" "/grammar/start/ref" [("name", "1")] []];
   Element "define" "/grammar/define" [("name", "1")] [elementFoo]].

Definition grammar : Node := Element "grammar" "/grammar" [] definitions.

(** A walker that is about to write the first item of an array. *)
Definition inArray (includePaths : bool) : Conversion.t :=
  {| arrayStart := Num 0; inNameClass := false; _output := "[0";
     _constructState := [mkConstruct "[" "]" false; mkConstruct "" "" true];
     includePaths := includePaths; verbose := false |}.

End ConversionExamples.

(** ** More of what the interleave walker expects of subwalkers *)
Section AttributeContract.
Context `{Walker.InternalWalker W}.

(** [canEndAttribute] tells whether [endAttributes()] returns false. *)
Definition EndAttributesAgrees (w0 : W) : Prop :=
  ∀ w, Walker.Reachable w0 w →
       (Walker.canEndAttribute w = true ↔ (Walker.endAttributes w).2 = None).
End AttributeContract.

(** ** More of [DefaultConversionWalker], and readers for what it writes *)
Module DefaultConversionWalker.
Import Js Conversion.

(** [reset()]: the output and the stack of constructs are set anew.  The
    other fields are not assigned. *)
Definition reset : Method :=
  λ st, inr {| arrayStart := arrayStart st; inNameClass := inNameClass st;
               _output := "";
               _constructState := [mkConstruct "" "" true];
               includePaths := includePaths st; verbose := verbose st |}.

(** The error [closeConstruct] throws. *)
Definition mismatch (expected found : string) : Exception :=
  Error (Msg ("construct mismatch: " ++ expected ++ " vs " ++ found)).

Definition IsMismatch (e : Exception) : Prop :=
  ∃ expected found, e = mismatch expected found.

(** [Paired expect m]: run on a stack whose topmost constructs close with
    the strings [expect], [m] closes exactly these, each with its own
    string, and so never throws the mismatch error. *)
Definition Paired (expect : list string) (m : Method) : Prop :=
  ∀ st,
    close <$> take (List.length expect) (_constructState st) = expect →
    match m st with
    | inl e => ¬ IsMismatch e
    | inr st' =>
        close <$> _constructState st'
        = close <$> drop (List.length expect) (_constructState st)
    end.

(** [LeavesNameClass m]: [m] leaves [inNameClass] as it was or false;
    [OutOfNameClass m]: it leaves it false. *)
Definition LeavesNameClass (m : Method) : Prop :=
  ∀ st st', m st = inr st' →
            inNameClass st' = inNameClass st ∨ inNameClass st' = false.

Definition OutOfNameClass (m : Method) : Prop :=
  ∀ st st', m st = inr st' → inNameClass st' = false.

(** *** Reading a string literal back

    What a JSON reader does with a string literal, for the two escapes the
    walker writes: the literal ends at the first double quote that no
    backslash precedes, a backslash stands before a double quote or a
    backslash only, and a control character is not allowed. *)
Definition isControl (c : Ascii.ascii) : bool :=
  (Ascii.nat_of_ascii c <? 32)%nat.




(** *** The arguments of [value]

    The table in the source: with one item the type is "token" and the
    library and the namespace are empty; with two the library and the
    namespace are empty; with three the namespace is empty. *)
Definition fillValue (items : list string)
    : option (string * string * string * string) :=
  match items with
  | [value] => Some (value, "token", "", "")
  | [value; type] => Some (value, type, "", "")
  | [value; type; datatypeLibrary] => Some (value, type, datatypeLibrary, "")
  | [value; type; datatypeLibrary; ns] =>
      Some (value, type, datatypeLibrary, ns)
  | _ => None
  end.

(** The text of a list of string items that follow another item. *)
Definition itemsText (items : list string) : string :=
  foldr (λ item rest, "," ++ quoted item ++ rest) "" items.

End DefaultConversionWalker.

(** ** Items written one after the other *)
Module Items.
Import Js Conversion.

(** [outputAsString] called on each of [items] in turn. *)
Fixpoint outputStrings (items : list string) : Method :=
  match items with
  | [] => done_
  | item :: rest => outputAsString item ;; outputStrings rest
  end.

End Items.

(** ** Renaming the names of [ref] and [define] *)
Module Renaming.
Import Js Conversion.

(** What an attribute can hold once the renamer has set it: a string, or
    what reading a key gives when the key is not an own property of the
    object of new names: the value that [Object.prototype] has under the
    key, or [undefined]. *)
Inductive Value :=
| StringValue (s : string)
| InheritedValue (key : string)
| UndefinedValue.

#[global] Instance Value_eq_dec : EqDecision Value.
Proof. solve_decision. Defined.

(** The tree after the renamer has walked it: the tree of the parser,
    with attributes that hold such values. *)
#[local] Unset Elimination Schemes.
Inductive Tree :=
| TElement (local path : string) (attributes : list (string * Value))
           (children : list Tree)
| TText (text : string).
#[local] Set Elimination Schemes.

(** The attributes as the parser made them: every value is a string. *)
Definition values (attributes : list (string * string))
    : list (string * Value) :=
  (λ a, (a.1, StringValue a.2)) <$> attributes.

(** A tree that the renamer has not touched. *)
Fixpoint ofNode (el : Node) : Tree :=
  match el with
  | Text s => TText s
  | Element local path attributes children =>
      TElement local path (values attributes) (ofNode <$> children)
  end.

(** *** Objects used as maps

    The own properties of an object, in the order in which they were
    added. *)
Definition getOwn {V : Type} (o : list (string * V)) (key : string)
    : option V :=
  snd <$> List.find (λ p, bool_decide (p.1 = key)) o.

(** [o[key] = value] on an object without setters. *)
Fixpoint setOwn {V : Type} (o : list (string * V)) (key : string) (value : V)
    : list (string * V) :=
  match o with
  | [] => [(key, value)]
  | (k, v) :: rest =>
      if bool_decide (k = key) then (k, value) :: rest
      else (k, v) :: setOwn rest key value
  end.

(** [key in o], for an object without a prototype. *)
Definition has {V : Type} (o : list (string * V)) (key : string) : bool :=
  bool_decide (key ∈ o.*1).

(** A key that is the canonical numeral of an array index. *)
Definition isArrayIndex (key : string) : bool :=
  isNumeric key
  && bool_decide (pretty (Z.to_N (parseInt key)) = key)
  && (parseInt key <? 2 ^ 32 - 1)%Z.

Fixpoint insertIndex (key : string) (sorted : list string) : list string :=
  match sorted with
  | [] => [key]
  | k :: rest =>
      if (parseInt key <? parseInt k)%Z then key :: sorted
      else k :: insertIndex key rest
  end.

(** [Object.keys(o)]: the array indices in ascending order, then the other
    keys in the order in which they were added. *)
Definition ownKeys {V : Type} (o : list (string * V)) : list string :=
  foldr insertIndex [] (filter (λ k, isArrayIndex k = true) o.*1)
  ++ filter (λ k, isArrayIndex k ≠ true) o.*1.

(** *** [NameGatherer] *)

(** [names], made with [Object.create(null)]: every string is an ordinary
    key. *)
Definition Names : Type := list (string * nat).

Definition isRefOrDefine (local : string) : bool :=
  bool_decide (local = "define") || bool_decide (local = "ref").

(** [if (!(name in this.names)) this.names[name] = 0; this.names[name]++] *)
Definition countName (names : Names) (name : string) : Names :=
  let names := if has names name then names else setOwn names name 0%nat in
  match getOwn names name with
  | Some n => setOwn names name (n + 1)%nat
  | None => names
  end.

(** Modelled from the spec: [walkChildren(el)] belongs to the base class
    [ConversionWalker], which is outside the files embedded here.  Without
    [startAt] and [endAt] it calls [walk] on every child that is an
    element, in order. *)
Definition eachElement {S : Type} (walk : Node → S → Result S)
    (children : list Node) : S → Result S :=
  (fix go (l : list Node) (s : S) : Result S :=
     match l with
     | [] => inr s
     | child :: rest =>
         match child with
         | Element _ _ _ _ =>
             match walk child s with
             | inl e => inl e
             | inr s' => go rest s'
             end
         | Text _ => go rest s
         end
     end) children.

(** [NameGatherer.walk(el)], with [names] passed along.  [walk] is given
    elements only; on a text node the model throws. *)
Fixpoint gather (el : Node) : Names → Result Names :=
  match el with
  | Text _ => λ _, inl TypeError
  | Element local _ attributes children => λ names,
      match eachElement gather children names with
      | inl e => inl e
      | inr names =>
          if isRefOrDefine local then
            match mustGetAttribute attributes "name" with
            | inl e => inl e
            | inr name => inr (countName names name)
            end
          else inr names
      end
  end.

(** *** [Renamer] *)

(** The object given to [Renamer].  [renameRefsDefines] makes it with
    [{}], so it inherits from [Object.prototype]: assigning a string to
    [__proto__] runs the setter of the prototype, which ignores what is not
    an object, and reading a key that is not an own property gives what the
    prototype has under this key. *)
Definition NewNames : Type := list (string * string).

Definition assign (o : NewNames) (key value : string) : NewNames :=
  if bool_decide (key = "__proto__") then o else setOwn o key value.

Definition objectPrototypeKeys : list string :=
  ["__proto__"; "constructor"; "hasOwnProperty"; "isPrototypeOf";
   "propertyIsEnumerable"; "toLocaleString"; "toString"; "valueOf";
   "__defineGetter__"; "__defineSetter__"; "__lookupGetter__";
   "__lookupSetter__"].

(** [names[key]] *)
Definition lookup (o : NewNames) (key : string) : Value :=
  match getOwn o key with
  | Some value => StringValue value
  | None =>
      if bool_decide (key ∈ objectPrototypeKeys) then InheritedValue key
      else UndefinedValue
  end.

(** Modelled from the spec: [el.setAttribute(name, value)] is defined in
    conversion/parser.ts, which is outside the files embedded here.  It
    gives the attribute the value, adding the attribute when the element
    does not have it. *)
Fixpoint setAttribute (attributes : list (string * Value))
    (name : string) (value : Value) : list (string * Value) :=
  match attributes with
  | [] => [(name, value)]
  | (k, v) :: rest =>
      if bool_decide (k = name) then (k, value) :: rest
      else (k, v) :: setAttribute rest name value
  end.

(** [walkChildren(el)] for a walk that changes the children in place. *)
Definition eachChild (walk : Node → Result Tree) (children : list Node)
    : Result (list Tree) :=
  (fix go (l : list Node) : Result (list Tree) :=
     match l with
     | [] => inr []
     | child :: rest =>
         match match child with
               | Element _ _ _ _ => walk child
               | Text s => inr (TText s)
               end with
         | inr child' =>
             match go rest with
             | inr rest' => inr (child' :: rest')
             | inl e => inl e
             end
         | inl e => inl e
         end
     end) children.

(** [Renamer.walk(el)]: the tree after the walk.  The attribute is set to
    whatever [this.names[...]] gives, a string or not, and the walk goes
    on; nothing but the [name] attributes is changed. *)
Fixpoint rename (names : NewNames) (el : Node) : Result Tree :=
  match el with
  | Text _ => inl TypeError
  | Element local path attributes children =>
      match (if isRefOrDefine local then
               match mustGetAttribute attributes "name" with
               | inl e => inl e
               | inr name =>
                   inr (setAttribute (values attributes) "name"
                          (lookup names name))
               end
             else inr (values attributes)) with
      | inr attributes' =>
          match eachChild (rename names) children with
          | inr children' =>
              inr (TElement local path attributes' children')
          | inl e => inl e
          end
      | inl e => inl e
      end
  end.

(** *** [renameRefsDefines] *)

Record Entry := mkEntry { key : string; freq : nat }.

(** [Object.keys(names).map((key) => ({ key: key, freq: names[key] }))] *)
Definition entries (names : Names) : list Entry :=
  (λ key, mkEntry key (default 0%nat (getOwn names key))) <$> ownKeys names.

(** [sorted.sort((a, b) => b.freq - a.freq)]: highest frequency first;
    entries of the same frequency stay in the order they had. *)
Fixpoint insertEntry (a : Entry) (sorted : list Entry) : list Entry :=
  match sorted with
  | [] => [a]
  | b :: rest =>
      if (freq b <=? freq a)%nat then a :: sorted
      else b :: insertEntry a rest
  end.

Definition sort (l : list Entry) : list Entry := foldr insertEntry [] l.

(** The [forEach] that fills [newNames], with [id] passed along. *)
Definition assignIds (sorted : list Entry) (newNames : NewNames) (id : N)
    : NewNames * N :=
  foldl (λ acc elem, (assign acc.1 (key elem) (pretty acc.2), N.succ acc.2))
        (newNames, id) sorted.

(** The tree after the call, or what the call throws. *)
Definition renameRefsDefines (tree : Node) : Result Tree :=
  match gather tree [] with
  | inl e => inl e
  | inr names =>
      let sorted := sort (entries names) in
      let newNames := (assignIds sorted [] 1%N).1 in
      rename newNames tree
  end.

(** The part of [convert] of the tool that renames: the same statements
    as [renameRefsDefines], unless the option says not to. *)
Definition optimizeIds (args : SalveConvert.Args) (tree : Node)
    : Result Tree :=
  if SalveConvert.no_optimize_ids args then inr (ofNode tree)
  else renameRefsDefines tree.

(** *** What the renaming is about *)

(** The names of the [define] and [ref] elements of a tree, in document
    order. *)
Fixpoint refNames (el : Node) : list string :=
  match el with
  | Text _ => []
  | Element local _ attributes children =>
      (if isRefOrDefine local then
         match mustGetAttribute attributes "name" with
         | inr name => [name]
         | inl _ => []
         end
       else [])
      ++ flat_map refNames children
  end.

(** How many [define] and [ref] elements have the name. *)
Definition occurrences (name : string) (tree : Node) : nat :=
  List.length (filter (λ n, n = name) (refNames tree)).

(** The tree with the name of every [define] and [ref] set to what [f]
    gives for it. *)
Fixpoint mapNames (f : string → Value) (el : Node) : Tree :=
  match el with
  | Text s => TText s
  | Element local path attributes children =>
      TElement local path
        (if isRefOrDefine local then
           match mustGetAttribute attributes "name" with
           | inr name => setAttribute (values attributes) "name" (f name)
           | inl _ => values attributes
           end
         else values attributes)
        (mapNames f <$> children)
  end.

(** The value of an attribute, if the element has the attribute. *)
Definition getAttribute (attributes : list (string * Value))
    (name : string) : option Value :=
  snd <$> List.find (λ a, bool_decide (a.1 = name)) attributes.

(** What the [name] attributes of the [define] and [ref] elements of a
    tree hold, in document order. *)
Fixpoint nameValues (el : Tree) : list Value :=
  match el with
  | TText _ => []
  | TElement local _ attributes children =>
      (if isRefOrDefine local then
         match getAttribute attributes "name" with
         | Some value => [value]
         | None => []
         end
       else [])
      ++ flat_map nameValues children
  end.

(** The place of a key in a list of keys. *)
Fixpoint position (k : string) (keys : list string) : option nat :=
  match keys with
  | [] => None
  | k' :: rest =>
      if bool_decide (k' = k) then Some 0%nat else S <$> position k rest
  end.

(** The number given to a name, from the sorted entries: its place,
    counted from one. *)
Definition number (sorted : list Entry) (name : string) : N :=
  match position name (key <$> sorted) with
  | Some i => N.of_nat (S i)
  | None => 0
  end.

(** What the renamer sets for a name that has the number [id]: the
    numeral of [id], except for [__proto__]. *)
Definition numbered (id : string → N) (name : string) : Value :=
  if bool_decide (name = "__proto__") then InheritedValue "__proto__"
  else StringValue (pretty (id name)).

End Renaming.

Module RenamingExamples.
Import Conversion Renaming.

(** start = ref a; a = element foo { ref b, ref b }; b = empty *)
Definition grammar : Node :=
  Element "grammar" "/grammar" []
    [Element "start" "/grammar/start" []
       [Element "ref" "/grammar/start/ref" [("name", "a")] []];
     Element "define" "/grammar/define" [("name", "a")]
       [Element "element" "/grammar/define/element" []
          [Element "name" "/grammar/define/element/name" [("ns", "")]
             [Text "foo"];
           Element "group" "/grammar/define/element/group" []
             [Element "ref" "/grammar/define/element/group/ref"
                [("name", "b")] [];
              Element "ref" "/grammar/define/element/group/ref"
                [("name", "b")] []]]];
     Element "define" "/grammar/define" [("name", "b")]
       [Element "empty" "/grammar/define/empty" [] []]].

(** A grammar with a definition named like the accessor of
    [Object.prototype]. *)
Definition protoGrammar : Node :=
  Element "grammar" "/grammar" []
    [Element "start" "/grammar/start" []
       [Element "ref" "/grammar/start/ref" [("name", "__proto__")] []];
     Element "define" "/grammar/define" [("name", "__proto__")]
       [Element "empty" "/grammar/define/empty" [] []]].

(** A grammar with a definition named [__proto__] and one named [a]. *)
Definition protoAndA : Node :=
  Element "grammar" "/grammar" []
    [Element "start" "/grammar/start" []
       [Element "ref" "/grammar/start/ref" [("name", "__proto__")] []];
     Element "define" "/grammar/define" [("name", "__proto__")]
       [Element "ref" "/grammar/define/ref" [("name", "a")] []];
     Element "define" "/grammar/define" [("name", "a")]
       [Element "empty" "/grammar/define/empty" [] []]].

End RenamingExamples.

(** ** What gathering adds to the names *)
Section Gathered.
Import Renaming.

(** [names'] is [names] after the names of [l] were counted: no key twice,
    the keys of [names] and the names of [l], each counted as many times
    more as it is in [l]. *)
Definition Gathered (names names' : Names) (l : list string) : Prop :=
  NoDup names.*1 →
  NoDup names'.*1
  ∧ (∀ k, k ∈ names'.*1 ↔ k ∈ names.*1 ∨ k ∈ l)
  ∧ (∀ k, default 0%nat (getOwn names' k)
          = (default 0%nat (getOwn names k)
             + List.length (filter (λ n, n = k) l))%nat).

(** Entries from the highest frequency to the lowest. *)
Fixpoint Descending (l : list Entry) : Prop :=
  match l with
  | [] => True
  | a :: rest => Forall (λ b, (freq b ≤ freq a)%nat) rest ∧ Descending rest
  end.
End Gathered.

Module WriterExamples.
Import Conversion.

(** The walker as the constructor makes it, without paths and not
    verbose. *)
Definition fresh : Conversion.t :=
  {| arrayStart := Num 0; inNameClass := false; _output := "";
     _constructState := [mkConstruct "" "" true];
     includePaths := false; verbose := false |}.

(** The table of [ConversionExamples], with a code for [Value]. *)
Definition codes (name : string) : option Z :=
  if bool_decide (name = "Value") then Some 19%Z
  else ConversionExamples.codes name.

(** <value type="string">yes</value> *)
Definition valueYes : Node :=
  Element "value" "/grammar/define/value"
    [("type", "string"); ("datatypeLibrary", ""); ("ns", "")] [Text "yes"].

End WriterExamples.

(** ** The files of the simplification steps *)
Module Steps.

(** The name of the file that [executeStep] makes a step write
    ([outBase]); [repeat_no] is given for a step that has [repeatWhen]. *)
Definition outBase (stepNo : nat) (repeat_no : option nat) : string :=
  "out" ++ pretty (stepNo + 1)%nat
  ++ match repeat_no with
     | Some n => "." ++ pretty (n + 1)%nat
     | None => ""
     end
  ++ ".rng".

End Steps.

(** ** What is written, told without the functions that write it *)
Module Written.
Import Js Conversion DefaultConversionWalker.







End Written.

(** ** Walkers as objects

    In the source a walker is an object that its methods change in place,
    and an [InterleaveWalker] refers to its two subwalkers.  The store
    keeps the objects that exist; a reference is the place of an object in
    the store, and a new object is put at the end. *)
Module Objects.

Abbreviation Ref := nat.

Section Def.
Context `{Host} {WA WB : Type}.
Context `{!Walker.InternalWalker WA} `{!Walker.InternalWalker WB}.

(** The fields of an [InterleaveWalker] object. *)
Record Fields := mkFields {
  ended : bool;
  hasAttrs : bool;
  walkerA : Ref;
  walkerB : Ref;
  nameResolver : NameResolver;
  canEndAttribute : bool;
  canEnd : bool;
}.

(** The subwalker objects of the two operands, each with its state, and
    the interleave walkers. *)
Record Store := mkStore {
  subwalkersA : list WA;
  subwalkersB : list WB;
  walkers : list Fields;
}.

(** The walker at [r] together with the states of the subwalkers it
    refers to. *)
Definition load (s : Store) (r : Ref) : option (InterleaveWalker.t WA WB) :=
  o ← walkers s !! r;
  a ← subwalkersA s !! walkerA o;
  b ← subwalkersB s !! walkerB o;
  Some (InterleaveWalker.mk (ended o) (hasAttrs o) a b (nameResolver o)
          (canEndAttribute o) (canEnd o)).

(** The assignments of a method, in place: the fields of the object at
    [r], and the states of the two subwalker objects it refers to. *)
Definition save (s : Store) (r : Ref) (w : InterleaveWalker.t WA WB)
    : option Store :=
  o ← walkers s !! r;
  Some {| subwalkersA :=
            <[walkerA o := InterleaveWalker.walkerA w]> (subwalkersA s);
          subwalkersB :=
            <[walkerB o := InterleaveWalker.walkerB w]> (subwalkersB s);
          walkers :=
            <[r := mkFields (InterleaveWalker.ended w)
                     (InterleaveWalker.hasAttrs w) (walkerA o) (walkerB o)
                     (InterleaveWalker.nameResolver w)
                     (InterleaveWalker.canEndAttribute w)
                     (InterleaveWalker.canEnd w)]> (walkers s) |}.

(** A method called on the walker at [r]. *)
Definition call {R : Type}
    (method : InterleaveWalker.t WA WB → InterleaveWalker.t WA WB * R)
    (r : Ref) (s : Store) : option (Store * R) :=
  w ← load s r;
  s' ← save s r (method w).1;
  Some (s', (method w).2).

Definition fireEvent (r : Ref) (name : string) (params : list string)
    : Store → option (Store * InternalFireEventResult) :=
  call (λ w, InterleaveWalker.fireEvent w name params) r.

Definition end_ (r : Ref) : Store → option (Store * EndResult) :=
  call InterleaveWalker.end_ r.

Definition endAttributes (r : Ref) : Store → option (Store * EndResult) :=
  call InterleaveWalker.endAttributes r.



(** [_clone(memo)] of a subwalker object: the reference it returns, the
    store and the memo afterwards. *)
Definition SubClone : Type :=
  Ref → CloneMap → Store → option (Ref * Store * CloneMap).




(** [_clone(memo)] of the walker at [r], that is the second overload of
    the constructor: a new object whose fields are read from the walker
    and whose subwalkers are what [_clone] of the subwalkers returns. *)
Definition _clone (cloneA cloneB : SubClone) (r : Ref) (memo : CloneMap)
    (s : Store) : option (Ref * Store * CloneMap) :=
  o ← walkers s !! r;
  let '(nr', memo1) := cloneIfNeeded (nameResolver o) memo in
  '(ra, s1, memo2) ← cloneA (walkerA o) memo1 s;
  o1 ← walkers s1 !! r;
  '(rb, s2, memo3) ← cloneB (walkerB o1) memo2 s1;
  o2 ← walkers s2 !! r;
  Some (List.length (walkers s2),
        mkStore (subwalkersA s2) (subwalkersB s2)
                (walkers s2
                 ++ [mkFields (ended o) (hasAttrs o) ra rb nr'
                       (canEndAttribute o2) (canEnd o2)]),
        memo3).


End Def.
Arguments Store {_} WA WB.
Arguments SubClone {_} WA WB.
End Objects.

(** * Properties of the interleave walker *)

(** Case analysis along the branches of [InterleaveWalker.fireEvent]. *)
Ltac fire_cases w name params :=
  destruct (isAttributeEvent name && negb (InterleaveWalker.hasAttrs w))
    eqn:Hskip;
  [| destruct (InterleaveWalker.ended w) eqn:Hended;
     [| destruct (Walker.fireEvent (InterleaveWalker.walkerA w) name params)
          as [a' retA] eqn:HfA;
        destruct (matched retA) eqn:HmA;
        [| destruct (Walker.fireEvent (InterleaveWalker.walkerB w) name params)
             as [b' retB] eqn:HfB;
           destruct (matched retB) eqn:HmB ]]].

Section WalkerFacts.
Context `{Walker.InternalWalker W}.

Lemma reachable_run (w0 w : W) (evs : list Event) :
  Walker.Reachable w0 w → Walker.Reachable w0 (Walker.run evs w).
Proof.
  revert w. induction evs as [|e evs IH]; intros w Hw; simpl.
  - exact Hw.
  - apply IH. unfold Walker.fire. by constructor.
Qed.

Lemma equivalent_observe (w1 w2 : W) :
  Walker.Equivalent w1 w2 → Walker.observe w1 = Walker.observe w2.
Proof. intros He. exact (proj2 (He [])). Qed.

Lemma equivalent_step (w1 w2 : W) (e : Event) :
  Walker.Equivalent w1 w2 →
  (Walker.fire w1 e).2 = (Walker.fire w2 e).2
  ∧ Walker.Equivalent (Walker.fire w1 e).1 (Walker.fire w2 e).1.
Proof.
  intros He. split.
  - destruct (He [e]) as [Ht _]. simpl in Ht. congruence.
  - intros evs. destruct (He (e :: evs)) as [Ht Ho]. simpl in Ht, Ho.
    split; [congruence | exact Ho].
Qed.
End WalkerFacts.

Section InterleaveWalkerFacts.
Context `{Host} {WA WB : Type}.
Context `{!Walker.InternalWalker WA} `{!Walker.InternalWalker WB}.

Import InterleaveWalker.
Implicit Types w : InterleaveWalker.t WA WB.

(** The log is an annotation: dropping it gives [fireEvent]. *)
Lemma fireEventLog_erase w name params :
  (fireEventLog w name params).1 = fireEvent w name params.
Proof.
  unfold fireEventLog, fireEvent. fire_cases w name params; reflexivity.
Qed.

Lemma fireEvent_keeps_hasAttrs w name params :
  hasAttrs (fireEvent w name params).1 = hasAttrs w.
Proof. unfold fireEvent. fire_cases w name params; reflexivity. Qed.

Lemma fireEvent_keeps_ended w name params :
  ended (fireEvent w name params).1 = ended w.
Proof.
  unfold fireEvent. fire_cases w name params; simpl; congruence.
Qed.

(** A subwalker of the new state is the old one or the old one after
    the event. *)
Lemma fireEvent_walkerA w name params :
  walkerA (fireEvent w name params).1 = walkerA w
  ∨ walkerA (fireEvent w name params).1
    = (Walker.fireEvent (walkerA w) name params).1.
Proof.
  unfold fireEvent. fire_cases w name params; simpl; auto.
Qed.

Lemma fireEvent_walkerB w name params :
  walkerB (fireEvent w name params).1 = walkerB w
  ∨ walkerB (fireEvent w name params).1
    = (Walker.fireEvent (walkerB w) name params).1.
Proof.
  unfold fireEvent. fire_cases w name params; simpl; auto.
Qed.

Lemma ended_inert w :
  ended w = true →
  (∀ name params,
      fireEventLog w name params = (w, mkResult false None, []))
  ∧ possible w = ∅ ∧ possibleAttributes w = ∅
  ∧ end_ w = (w, None) ∧ endAttributes w = (w, None).
Proof.
  intros He. repeat split.
  - intros name params. unfold fireEventLog. rewrite He.
    destruct (isAttributeEvent name && negb (hasAttrs w)); reflexivity.
  - unfold possible. by rewrite He.
  - unfold possibleAttributes. by rewrite He.
  - unfold end_. by rewrite He.
  - unfold endAttributes. by rewrite He.
Qed.

(** C10: a walker whose [end()] has returned false because [canEnd] was
    true is ended; from then on [fireEvent] returns an unmatched result
    without errors, calls no subwalker and leaves the whole walker as it
    is, [possible()] and [possibleAttributes()] are empty, and [end()] and
    [endAttributes()] return false. *)
Theorem ended_walker_is_inert w :
  canEnd w = true →
  let w' := (end_ w).1 in
  (end_ w).2 = None ∧ ended w' = true
  ∧ (∀ name params,
        fireEvent w' name params = (w', mkResult false None)
        ∧ (fireEventLog w' name params).2 = [])
  ∧ possible w' = ∅ ∧ possibleAttributes w' = ∅
  ∧ end_ w' = (w', None) ∧ endAttributes w' = (w', None).
Proof.
  intros Hc w'.
  assert (Hres : (end_ w).2 = None ∧ ended w' = true).
  { subst w'. unfold end_. destruct (ended w) eqn:He.
    - simpl. auto.
    - rewrite Hc. simpl. auto. }
  destruct Hres as [Hnone He]. split; [exact Hnone|]. split; [exact He|].
  destruct (ended_inert w' He) as (Hfire & Hp & Hpa & Hend & Hea).
  repeat split; try assumption.
  - rewrite <- fireEventLog_erase, Hfire. reflexivity.
  - rewrite Hfire. reflexivity.
Qed.

(** C1, as the code has it: [fireEvent] keeps no tag balance.  Every event
    that is not filtered out is fed to [walkerA] first, and to [walkerB]
    exactly when [walkerA] did not match it; a subwalker that is not
    called is left as it was, and the result is that of the subwalker
    that matched. *)
Theorem fireEvent_tries_A_then_B w name params :
  let '(w', ret, log) := fireEventLog w name params in
  let skipped := isAttributeEvent name && negb (hasAttrs w) || ended w in
  let fa := Walker.fireEvent (walkerA w) name params in
  let fb := Walker.fireEvent (walkerB w) name params in
  (w', ret) = fireEvent w name params
  ∧ log = (if skipped then []
           else if matched fa.2 then [(BranchA, true)]
           else [(BranchA, false); (BranchB, matched fb.2)])
  ∧ walkerA w' = (if skipped then walkerA w else fa.1)
  ∧ walkerB w' = (if skipped || matched fa.2 then walkerB w else fb.1)
  ∧ ret = (if skipped then mkResult false None
           else if matched fa.2 then fa.2
           else if matched fb.2 then fb.2 else mkResult false None).
Proof.
  pose proof (fireEventLog_erase w name params) as Herase.
  destruct (fireEventLog w name params) as [[w' ret] log] eqn:Hlog.
  split; [exact Herase|].
  unfold fireEventLog in Hlog.
  fire_cases w name params; simplify_eq; simpl; rewrite ?HmA, ?HmB;
    simpl; auto.
Qed.
(** The interleave walker keeps the discipline it expects of its
    subwalkers: an event it does not match changes neither of its flags,
    and only an attribute event changes [canEndAttribute]. *)
Lemma interleave_keeps_canEnd (w0 : InterleaveWalker.t WA WB) :
  Contract.UnmatchedKeepsCanEnd w0.
Proof.
  intros w name params _. simpl. unfold fireEvent.
  fire_cases w name params; simpl; intros; congruence.
Qed.

Lemma interleave_keeps_canEndAttribute (w0 : InterleaveWalker.t WA WB) :
  Contract.KeepsCanEndAttribute w0.
Proof.
  split; intros w name params _; simpl; unfold fireEvent.
  - fire_cases w name params; simpl; intros; congruence.
  - intros Hattr.
    fire_cases w name params; simpl; rewrite ?Hattr; congruence.
Qed.

End InterleaveWalkerFacts.

(** ** The cached [canEnd] and [canEndAttribute] *)
Section InterleaveInvariants.
Context `{Host} {PA WA PB WB : Type}.
Context `{!Walker.InternalWalker WA} `{!Walker.InternalWalker WB}.
Context `{!Pattern.BasePattern PA WA} `{!Pattern.BasePattern PB WB}.
Variables (pA : PA) (pB : PB) (nr : NameResolver).

Import InterleaveWalker.
Implicit Types w : InterleaveWalker.t WA WB.

Local Abbreviation a0 := (Pattern.newWalker pA nr).
Local Abbreviation b0 := (Pattern.newWalker pB nr).
Local Abbreviation w0 := (InterleaveWalker.new (Interleave.mk pA pB) nr).

Lemma reachable_parts w :
  Walker.Reachable w0 w →
  ended w = false
  ∧ Walker.Reachable a0 (walkerA w) ∧ Walker.Reachable b0 (walkerB w).
Proof.
  induction 1 as [|w name params _ (He & Ha & Hb)].
  - repeat split; constructor.
  - change (Walker.fireEvent w name params)
      with (InterleaveWalker.fireEvent w name params).
    rewrite fireEvent_keeps_ended. split; [exact He|]. split.
    + destruct (fireEvent_walkerA w name params) as [-> | ->];
        [exact Ha | by constructor].
    + destruct (fireEvent_walkerB w name params) as [-> | ->];
        [exact Hb | by constructor].
Qed.

Lemma fireEvent_canEnd_cached w name params :
  Contract.UnmatchedKeepsCanEnd a0 → Contract.UnmatchedKeepsCanEnd b0 →
  Walker.Reachable a0 (walkerA w) → Walker.Reachable b0 (walkerB w) →
  CanEndCached w → CanEndCached (fireEvent w name params).1.
Proof.
  intros HA HB Ha Hb Hc. unfold CanEndCached, fireEvent in *.
  specialize (HA _ name params Ha). specialize (HB _ name params Hb).
  fire_cases w name params; simpl in *; try done.
  by rewrite (HA HmA), (HB HmB).
Qed.

Lemma fireEvent_canEndAttribute_cached w name params :
  Contract.KeepsCanEndAttribute a0 → Contract.KeepsCanEndAttribute b0 →
  Walker.Reachable a0 (walkerA w) → Walker.Reachable b0 (walkerB w) →
  CanEndAttributeCached w →
  CanEndAttributeCached (fireEvent w name params).1.
Proof.
  intros HA HB Ha Hb Hca. unfold CanEndAttributeCached, fireEvent in *.
  pose proof (Contract.unmatched_keeps _ HA _ name params Ha) as HuA.
  pose proof (Contract.unmatched_keeps _ HB _ name params Hb) as HuB.
  pose proof (Contract.content_keeps _ HA _ name params Ha) as HkA.
  pose proof (Contract.content_keeps _ HB _ name params Hb) as HkB.
  fire_cases w name params; simpl in *; try done.
  - (* walkerA matched *)
    destruct (isAttributeEvent name) eqn:Hattr.
    + destruct (hasAttrs w); [reflexivity | discriminate].
    + by rewrite (HkA eq_refl).
  - (* walkerB matched *)
    destruct (isAttributeEvent name) eqn:Hattr.
    + destruct (hasAttrs w); [reflexivity | discriminate].
    + by rewrite (HkA eq_refl), (HkB eq_refl).
  - (* no subwalker matched *)
    by rewrite (HuA HmA), (HuB HmB).
Qed.

Lemma reachable_canEnd_cached w :
  Contract.UnmatchedKeepsCanEnd a0 → Contract.UnmatchedKeepsCanEnd b0 →
  Walker.Reachable w0 w → CanEndCached w.
Proof.
  intros HA HB Hw. induction Hw as [|w name params Hw IH].
  - reflexivity.
  - destruct (reachable_parts w Hw) as (_ & Ha & Hb).
    by apply fireEvent_canEnd_cached.
Qed.

(** C5, amended: for a walker made from a pattern by the constructor and
    then given events by [fireEvent] only (no [end()], no
    [endAttributes()], no clone in between), [canEnd = walkerA.canEnd &&
    walkerB.canEnd] and [canEndAttribute = !hasAttrs ||
    (walkerA.canEndAttribute && walkerB.canEndAttribute)] hold after
    construction and after every call, when the walkers of both operands
    keep [canEnd] and [canEndAttribute] on an event they do not match and
    change [canEndAttribute] on attribute events only. *)
Theorem canEnd_equations_hold w :
  Contract.UnmatchedKeepsCanEnd a0 → Contract.UnmatchedKeepsCanEnd b0 →
  Contract.KeepsCanEndAttribute a0 → Contract.KeepsCanEndAttribute b0 →
  Walker.Reachable w0 w →
  canEnd w = Walker.canEnd (walkerA w) && Walker.canEnd (walkerB w)
  ∧ canEndAttribute w =
      negb (hasAttrs w)
      || (Walker.canEndAttribute (walkerA w)
          && Walker.canEndAttribute (walkerB w)).
Proof.
  intros HA HB HAa HBa Hw.
  change (CanEndCached w ∧ CanEndAttributeCached w).
  induction Hw as [|w name params Hw [IHc IHa]].
  - (* the constructor *)
    split; reflexivity.
  - (* a call to fireEvent *)
    destruct (reachable_parts w Hw) as (_ & Ha & Hb). split.
    + by apply fireEvent_canEnd_cached.
    + by apply fireEvent_canEndAttribute_cached.
Qed.

(** C3, amended: for a walker reached from a fresh one by any sequence
    of events, [canEnd] is true exactly when [end()] returns false, when
    the same holds of the walkers of both operands and these keep
    [canEnd] on an event they do not match. *)
Theorem canEnd_iff_end_returns_false w :
  Contract.UnmatchedKeepsCanEnd a0 → Contract.UnmatchedKeepsCanEnd b0 →
  Contract.EndAgrees a0 → Contract.EndAgrees b0 →
  Walker.Reachable w0 w →
  canEnd w = true ↔ (end_ w).2 = None.
Proof.
  intros HA HB EA EB Hw.
  destruct (reachable_parts w Hw) as (He & Ha & Hb).
  pose proof (reachable_canEnd_cached w HA HB Hw) as Hc.
  unfold CanEndCached in Hc.
  specialize (EA _ Ha). specialize (EB _ Hb).
  unfold end_. rewrite He.
  destruct (canEnd w) eqn:Hcw; simpl; [done|].
  destruct (Walker.end_ (walkerA w)) as [a' retA].
  destruct (Walker.end_ (walkerB w)) as [b' retB]. simpl in *.
  split; [done|]. intros Hnone. exfalso.
  destruct retA as [ea|]; [by destruct retB|].
  simpl in Hnone. subst retB.
  rewrite (proj2 EA eq_refl), (proj2 EB eq_refl) in Hc. discriminate.
Qed.
End InterleaveInvariants.

(** ** Commutativity *)
Section InterleaveCommutes.
Context `{Host} {PA WA PB WB : Type}.
Context `{!Walker.InternalWalker WA} `{!Walker.InternalWalker WB}.
Context `{!Pattern.BasePattern PA WA} `{!Pattern.BasePattern PB WB}.
Variables (pA : PA) (pB : PB) (nr : NameResolver).

Import InterleaveWalker.

Local Abbreviation a0 := (Pattern.newWalker pA nr).
Local Abbreviation b0 := (Pattern.newWalker pB nr).

Lemma new_swapped :
  Swapped (InterleaveWalker.new (Interleave.mk pA pB) nr)
          (InterleaveWalker.new (Interleave.mk pB pA) nr).
Proof.
  unfold Swapped, InterleaveWalker.new, Interleave.hasAttrs. simpl.
  repeat split; try reflexivity.
  - apply orb_comm.
  - apply andb_comm.
  - rewrite (orb_comm (Pattern.hasAttrs pA)).
    by rewrite (andb_comm (Walker.canEndAttribute a0)).
Qed.

Ltac swapped_fields :=
  unfold Swapped; simpl; repeat split; try congruence;
  try apply andb_comm;
  match goal with
  | |- context [isAttributeEvent ?n] =>
      destruct (isAttributeEvent n); [apply andb_comm | congruence]
  end.

Lemma fireEvent_swapped (w : InterleaveWalker.t WA WB)
    (w' : InterleaveWalker.t WB WA) name params :
  Contract.Disjoint a0 b0 →
  Contract.UnmatchedIdle a0 → Contract.UnmatchedIdle b0 →
  Walker.Reachable a0 (walkerA w) → Walker.Reachable b0 (walkerB w) →
  Swapped w w' →
  (fireEvent w name params).2 = (fireEvent w' name params).2
  ∧ Swapped (fireEvent w name params).1 (fireEvent w' name params).1.
Proof.
  intros HD IA IB Ha Hb Hs.
  pose proof Hs as (He & Hh & HwA & HwB & Hc & Hca).
  specialize (HD _ _ name params Ha Hb).
  specialize (IA _ name params Ha). specialize (IB _ name params Hb).
  unfold fireEvent. rewrite <- He, <- Hh, <- HwA, <- HwB.
  fire_cases w name params; simpl in *;
    try (split; [reflexivity | exact Hs]).
  - (* walkerA matches; by disjointness walkerB does not *)
    destruct (Walker.fireEvent (walkerB w) name params) as [b' retB].
    simpl in *. destruct (matched retB) eqn:HmB; [by destruct HD|].
    rewrite (IB eq_refl). simpl. split; [done|]. swapped_fields.
  - (* walkerB matches *)
    rewrite (IA HmA). simpl. split; [done|]. swapped_fields.
  - (* neither matches *)
    rewrite (IA HmA), (IB HmB). simpl. split; [done|].
    swapped_fields.
Qed.

Lemma end_swapped (w : InterleaveWalker.t WA WB)
    (w' : InterleaveWalker.t WB WA) :
  Swapped w w' → (end_ w).2 = None ↔ (end_ w').2 = None.
Proof.
  intros (He & Hh & HwA & HwB & Hc & Hca).
  unfold end_. rewrite <- He, <- Hc, <- HwA, <- HwB.
  destruct (ended w); [done|]. destruct (canEnd w); [done|].
  destruct (Walker.end_ (walkerA w)) as [a' [ea|]];
    destruct (Walker.end_ (walkerB w)) as [b' [eb|]]; simpl; done.
Qed.

Lemma runs_swapped evs :
  ∀ (w : InterleaveWalker.t WA WB) (w' : InterleaveWalker.t WB WA),
  Contract.Disjoint a0 b0 →
  Contract.UnmatchedIdle a0 → Contract.UnmatchedIdle b0 →
  Walker.Reachable a0 (walkerA w) → Walker.Reachable b0 (walkerB w) →
  Swapped w w' →
  Walker.trace evs w = Walker.trace evs w'
  ∧ Swapped (Walker.run evs w) (Walker.run evs w').
Proof.
  induction evs as [|e evs IH]; intros w w' HD IA IB Ha Hb Hs; simpl.
  - done.
  - destruct (fireEvent_swapped w w' (ev_name e) (ev_params e)
                HD IA IB Ha Hb Hs) as [Hr Hs'].
    unfold Walker.fire. simpl.
    assert (Ha' : Walker.Reachable a0
              (walkerA (fireEvent w (ev_name e) (ev_params e)).1)).
    { destruct (fireEvent_walkerA w (ev_name e) (ev_params e)) as [-> | ->];
        [exact Ha | by constructor]. }
    assert (Hb' : Walker.Reachable b0
              (walkerB (fireEvent w (ev_name e) (ev_params e)).1)).
    { destruct (fireEvent_walkerB w (ev_name e) (ev_params e)) as [-> | ->];
        [exact Hb | by constructor]. }
    destruct (IH _ _ HD IA IB Ha' Hb' Hs') as [Ht Hrun].
    split; [by f_equal | exact Hrun].
Qed.

(** C2, amended: [Interleave(a,b)] and [Interleave(b,a)] accept the same
    sequences of events when no event is matched both by a state that the
    walker of a reaches and by a state that the walker of b reaches,
    whatever the events that led each of them there, and the walker of an
    operand is left as it was by an event it does not match. *)
Theorem interleave_commutes_when_disjoint :
  Contract.Disjoint a0 b0 →
  Contract.UnmatchedIdle a0 → Contract.UnmatchedIdle b0 →
  SameLanguage pA pB nr.
Proof.
  intros HD IA IB evs.
  destruct (runs_swapped evs
              (InterleaveWalker.new (Interleave.mk pA pB) nr)
              (InterleaveWalker.new (Interleave.mk pB pA) nr) HD IA IB
              (Walker.reach_init _) (Walker.reach_init _) new_swapped)
    as [Ht Hs].
  unfold Walker.accepts. rewrite <- Ht.
  rewrite !andb_true_iff, !bool_decide_eq_true.
  pose proof (end_swapped _ _ Hs) as Hend. simpl in *. tauto.
Qed.
End InterleaveCommutes.

(** ** Cloning *)
Section InterleaveClone.
Context `{Host} {WA WB : Type}.
Context `{!Walker.InternalWalker WA} `{!Walker.InternalWalker WB}.

Import InterleaveWalker.
Implicit Types w : InterleaveWalker.t WA WB.

Lemma clone_alike w memo :
  Contract.CloneFaithful (W := WA) → Contract.CloneFaithful (W := WB) →
  Alike w (_clone w memo).1.
Proof.
  intros CA CB. unfold _clone.
  destruct (cloneIfNeeded (nameResolver w) memo) as [nr' memo1].
  pose proof (CA (walkerA w) memo1) as Ha.
  destruct (Walker._clone (walkerA w) memo1) as [a' memo2].
  pose proof (CB (walkerB w) memo2) as Hb.
  destruct (Walker._clone (walkerB w) memo2) as [b' memo3].
  unfold Alike; simpl in *. split_and!; done.
Qed.

Lemma fireEvent_alike w w' name params :
  Alike w w' →
  (fireEvent w name params).2 = (fireEvent w' name params).2
  ∧ Alike (fireEvent w name params).1 (fireEvent w' name params).1.
Proof.
  intros Hal. pose proof Hal as (He & Hh & Hc & Hca & Ha & Hb).
  destruct (equivalent_step _ _ (mkEvent name params) Ha) as [HrA Ha'].
  destruct (equivalent_step _ _ (mkEvent name params) Hb) as [HrB Hb'].
  pose proof (equivalent_observe _ _ Ha) as HoA.
  pose proof (equivalent_observe _ _ Hb) as HoB.
  pose proof (equivalent_observe _ _ Ha') as HoA'.
  pose proof (equivalent_observe _ _ Hb') as HoB'.
  unfold Walker.fire, Walker.observe in *. simpl in *.
  unfold fireEvent. rewrite <- He, <- Hh.
  destruct (Walker.fireEvent (walkerA w') name params) as [a2 retA2].
  destruct (Walker.fireEvent (walkerB w') name params) as [b2 retB2].
  fire_cases w name params; simpl in *;
    try (split; [reflexivity | exact Hal]); subst; rewrite ?HmA, ?HmB;
    (split; [reflexivity|]); unfold Alike; simpl;
    split_and!; try done; simplify_eq; try congruence;
    destruct (isAttributeEvent name); congruence.
Qed.

Lemma observe_alike w w' :
  Alike w w' → Walker.observe w = Walker.observe w'.
Proof.
  intros (He & Hh & Hc & Hca & Ha & Hb).
  pose proof (equivalent_observe _ _ Ha) as HoA.
  pose proof (equivalent_observe _ _ Hb) as HoB.
  unfold Walker.observe in *. simpl in *.
  unfold end_, endAttributes. rewrite <- He, <- Hc, <- Hca.
  destruct (Walker.end_ (walkerA w)) as [a1 eA].
  destruct (Walker.end_ (walkerA w')) as [a2 eA'].
  destruct (Walker.end_ (walkerB w)) as [b1 eB].
  destruct (Walker.end_ (walkerB w')) as [b2 eB'].
  destruct (Walker.endAttributes (walkerA w)) as [a3 tA].
  destruct (Walker.endAttributes (walkerA w')) as [a4 tA'].
  destruct (Walker.endAttributes (walkerB w)) as [b3 tB].
  destruct (Walker.endAttributes (walkerB w')) as [b4 tB'].
  simpl in *. simplify_eq.
  destruct (ended w), (canEnd w), (canEndAttribute w); simpl;
    repeat case_match; simplify_eq; reflexivity.
Qed.

Lemma alike_equivalent w w' : Alike w w' → Walker.Equivalent w w'.
Proof.
  intros Hal evs. revert w w' Hal.
  induction evs as [|e evs IH]; intros w w' Hal; simpl.
  - split; [done | by apply observe_alike].
  - destruct (fireEvent_alike w w' (ev_name e) (ev_params e) Hal)
      as [Hr Hal'].
    unfold Walker.fire. simpl. destruct (IH _ _ Hal') as [Ht Ho].
    split; [by f_equal | exact Ho].
Qed.

(** With walkers as values: the fields that [_clone] gives the new walker
    make it behave as the walker it was made from, event by event, and
    give the same [canEnd], [canEndAttribute], [end()] and
    [endAttributes()] afterwards, whatever the memo, provided cloning a
    subwalker gives a subwalker that behaves the same.  That the new
    walker and its subwalkers are objects of their own is shown on the
    store of objects, below. *)
Lemma clone_same_fields_same_behaviour w memo evs :
  Contract.CloneFaithful (W := WA) → Contract.CloneFaithful (W := WB) →
  Walker.trace evs w = Walker.trace evs (_clone w memo).1
  ∧ (Walker.end_ (Walker.run evs w)).2
    = (Walker.end_ (Walker.run evs (_clone w memo).1)).2
  ∧ (Walker.endAttributes (Walker.run evs w)).2
    = (Walker.endAttributes (Walker.run evs (_clone w memo).1)).2
  ∧ Walker.observe (Walker.run evs w)
    = Walker.observe (Walker.run evs (_clone w memo).1).
Proof.
  intros CA CB.
  destruct (alike_equivalent _ _ (clone_alike w memo CA CB) evs) as [Ht Ho].
  split; [exact Ht|]. pose proof Ho as Ho'.
  unfold Walker.observe in Ho'. injection Ho' as _ _ Hend HendAttrs.
  split_and!; assumption.
Qed.
End InterleaveClone.

(** ** Nullability *)
Section InterleaveNullable.
Context `{Host} {PA WA PB WB : Type}.
Context `{!Walker.InternalWalker WA} `{!Walker.InternalWalker WB}.
Context `{!Pattern.BasePattern PA WA} `{!Pattern.BasePattern PB WB}.

(** C6: [hasEmptyPattern] of [Interleave(a,b)] is the conjunction of that
    of [a] and of [b]; when the operands' values are the Relax NG
    nullability of the patterns they stand for, the value is the Relax NG
    nullability of the interleave of these patterns. *)
Theorem interleave_hasEmptyPattern_is_nullable
    (a : PA) (b : PB) (ra rb : RelaxNG.pattern) :
  Pattern.hasEmptyPattern a = RelaxNG.nullable ra →
  Pattern.hasEmptyPattern b = RelaxNG.nullable rb →
  Pattern.hasEmptyPattern (Interleave.mk a b)
    = Pattern.hasEmptyPattern a && Pattern.hasEmptyPattern b
  ∧ Pattern.hasEmptyPattern (Interleave.mk a b)
    = RelaxNG.nullable (RelaxNG.Interleave ra rb).
Proof.
  intros Ha Hb. split; [reflexivity|].
  simpl. unfold Interleave.hasEmptyPattern, Interleave._computeHasEmptyPattern.
  simpl. by rewrite Ha, Hb.
Qed.
End InterleaveNullable.

(** ** The example walkers keep the contract *)
Section ScriptFacts.
Context `{Host}.
Implicit Types w : Script.t.

Lemma script_unmatched w name params :
  matched (Script.fireEvent w name params).2 = false →
  (Script.fireEvent w name params).1 = w.
Proof.
  unfold Script.fireEvent. destruct w as [|e rest]; [done|].
  by case_bool_decide.
Qed.

Lemma script_keeps_canEnd (w0 : Script.t) : Contract.UnmatchedKeepsCanEnd w0.
Proof.
  intros w name params _ Hm. simpl.
  by rewrite (script_unmatched w name params Hm).
Qed.

Lemma script_keeps_canEndAttribute (w0 : Script.t) :
  Contract.KeepsCanEndAttribute w0.
Proof.
  split; intros w name params _.
  - intros Hm. simpl. by rewrite (script_unmatched w name params Hm).
  - intros Hattr. simpl. unfold Script.fireEvent.
    destruct w as [|e rest]; [done|]. case_bool_decide; [|done].
    subst e. simpl. unfold Script.canEndAttribute. simpl.
    by rewrite Hattr.
Qed.

Lemma script_end_agrees (w0 : Script.t) : Contract.EndAgrees w0.
Proof.
  intros w _. simpl. unfold Script.end_.
  destruct (Script.canEnd w); simpl; split; done.
Qed.

Lemma script_unmatched_idle (w0 : Script.t) : Contract.UnmatchedIdle w0.
Proof. intros w name params _. apply script_unmatched. Qed.


Lemma script_reachable_suffix (w0 w : Script.t) :
  Walker.Reachable w0 w → w `suffix_of` w0.
Proof.
  induction 1 as [|w name params _ IH]; [done|].
  simpl. unfold Script.fireEvent. destruct w as [|e rest]; [done|].
  case_bool_decide; [|done]. simpl.
  etrans; [|exact IH]. by apply suffix_cons_r.
Qed.

Lemma script_matched_head w name params :
  matched (Script.fireEvent w name params).2 = true →
  mkEvent name params ∈ w.
Proof.
  unfold Script.fireEvent. destruct w as [|e rest]; [done|].
  case_bool_decide; [|done]. intros _. subst e. apply list_elem_of_here.
Qed.

Lemma script_disjoint (a0 b0 : Script.t) :
  forallb (λ e, negb (bool_decide (e ∈ b0))) a0 = true →
  Contract.Disjoint a0 b0.
Proof.
  intros Hd a b name params Ha Hb Hma Hmb.
  apply script_matched_head in Hma, Hmb.
  apply script_reachable_suffix in Ha, Hb.
  destruct Ha as [pa ->]. destruct Hb as [pb ->].
  rewrite forallb_forall in Hd.
  specialize (Hd (mkEvent name params)).
  rewrite negb_true_iff, bool_decide_eq_false in Hd.
  apply Hd.
  - apply list_elem_of_In. apply elem_of_app. by right.
  - apply elem_of_app. by right.
Qed.
End ScriptFacts.

(** ** Examples *)

Import Script Examples.

(** C1, counterexample: in interleave { a, b }, each operand consuming the
    start tag of its element, branch B has consumed one start tag and no end
    tag after the start tag of [b]; the start tag of [a] that comes next is
    fed to branch A, which consumes it. *)
Lemma in_flight_branch_is_not_exclusive :
  ¬ InterleaveWalker.InFlightExclusive (interleave startA startB).
Proof.
  intros Hrule.
  specialize (Hrule [startTag "b"] (startTag "a") InterleaveWalker.BranchB).
  vm_compute in Hrule. destruct (Hrule eq_refl) as [_ Hconsumed].
  discriminate Hconsumed.
Qed.

(** Order independence, as in the schema interleave { a, b } of the spec:
    b before a is accepted, a alone is not. *)
Example interleave_accepts_any_order :
  Walker.accepts [startTag "b"; startTag "a"] (interleave startA startB) = true
  ∧ Walker.accepts [startTag "a"; startTag "b"] (interleave startA startB)
    = true
  ∧ Walker.accepts [startTag "a"] (interleave startA startB) = false.
Proof. split_and!; vm_compute; reflexivity. Qed.

(** C2, counterexample: the sequence <x/><y/><x/> is accepted by
    interleave { (x, y), x } and not by interleave { x, (x, y) }. *)
Lemma interleave_order_matters :
  ¬ SameLanguage elementsXY elementX resolver.
Proof.
  intros Hsame.
  specialize (Hsame [startTag "x"; endTag "x"; startTag "y"; endTag "y";
                     startTag "x"; endTag "x"]).
  vm_compute in Hsame. destruct Hsame as [Hab _].
  discriminate (Hab eq_refl).
Qed.

Lemma interleave_commutes_when_disjoint_witness :
  SameLanguage textX elementB resolver.
Proof.
  apply (interleave_commutes_when_disjoint textX elementB resolver).
  - apply script_disjoint. reflexivity.
  - apply script_unmatched_idle.
  - apply script_unmatched_idle.
Defined.

Lemma canEnd_equations_hold_witness :
  let w := Walker.run [attributeName "a"; startTag "b"]
             (interleave attributeA elementB) in
  InterleaveWalker.canEnd w
    = Walker.canEnd (InterleaveWalker.walkerA w)
      && Walker.canEnd (InterleaveWalker.walkerB w)
  ∧ InterleaveWalker.canEndAttribute w
    = negb (InterleaveWalker.hasAttrs w)
      || (Walker.canEndAttribute (InterleaveWalker.walkerA w)
          && Walker.canEndAttribute (InterleaveWalker.walkerB w)).
Proof.
  apply (canEnd_equations_hold attributeA elementB resolver).
  - apply script_keeps_canEnd.
  - apply script_keeps_canEnd.
  - apply script_keeps_canEndAttribute.
  - apply script_keeps_canEndAttribute.
  - apply reachable_run. constructor.
Defined.

Lemma canEnd_iff_end_returns_false_witness :
  let w := Walker.run [startTag "b"; text "x"; endTag "b"]
             (interleave textX elementB) in
  InterleaveWalker.canEnd w = true ↔ (InterleaveWalker.end_ w).2 = None.
Proof.
  apply (canEnd_iff_end_returns_false textX elementB resolver).
  - apply script_keeps_canEnd.
  - apply script_keeps_canEnd.
  - apply script_end_agrees.
  - apply script_end_agrees.
  - apply reachable_run. constructor.
Defined.

Lemma interleave_hasEmptyPattern_is_nullable_witness :
  Pattern.hasEmptyPattern (Interleave.mk (mkPat []) elementB)
    = Pattern.hasEmptyPattern (mkPat []) && Pattern.hasEmptyPattern elementB
  ∧ Pattern.hasEmptyPattern (Interleave.mk (mkPat []) elementB)
    = RelaxNG.nullable
        (RelaxNG.Interleave RelaxNG.Empty
           (RelaxNG.Element (RelaxNG.Name "" "b") RelaxNG.Empty)).
Proof.
  apply (interleave_hasEmptyPattern_is_nullable (mkPat []) elementB
           RelaxNG.Empty
           (RelaxNG.Element (RelaxNG.Name "" "b") RelaxNG.Empty)).
  - reflexivity.
  - reflexivity.
Defined.

Lemma ended_walker_is_inert_witness :
  let w := Walker.run [startTag "b"; endTag "b"; text "x"]
             (interleave textX elementB) in
  let w' := (InterleaveWalker.end_ w).1 in
  (InterleaveWalker.end_ w).2 = None ∧ InterleaveWalker.ended w' = true
  ∧ (∀ name params,
        InterleaveWalker.fireEvent w' name params = (w', mkResult false None)
        ∧ (InterleaveWalker.fireEventLog w' name params).2 = [])
  ∧ InterleaveWalker.possible w' = ∅
  ∧ InterleaveWalker.possibleAttributes w' = ∅
  ∧ InterleaveWalker.end_ w' = (w', None)
  ∧ InterleaveWalker.endAttributes w' = (w', None).
Proof.
  apply (ended_walker_is_inert
           (Walker.run [startTag "b"; endTag "b"; text "x"]
              (interleave textX elementB))).
  reflexivity.
Defined.


(** * The regexp translator *)

Lemma subtraction_is_lookahead negated items sub :
  Regexp.toString (Regexp.translateClass (Regexp.XSubtract negated items sub))
  = "(?:"
    ++ (("(?!" ++ Regexp.toString (Regexp.translateClass sub) ++ ")")
        ++ Regexp.toString
             (Regexp.JSet negated (items ≫= Regexp.translateItem)))
    ++ ")".
Proof. reflexivity. Qed.

(** The rows of the conversion table of test/regexp_test.js that are in
    the fragment. *)
Example conversion_table :
  Forall (λ row, fst <$> Regexp.parse row.1 = Some row.2)
    [("", "^$"); ("abc", "^abc$"); ("abc|def", "^abc|def$");
     ("abc+", "^abc+$"); ("abc?", "^abc?$"); ("abc*", "^abc*$");
     ("ab(123)cd", "^ab(?:123)cd$"); ("ab.", "^ab.$");
     ("ab\scd", "^ab[ \t\n\r]cd$"); ("ab[A-Z]cd", "^ab[A-Z]cd$");
     ("ab[a\sq]cd", "^ab[a \t\n\rq]cd$");
     ("ab[abcd-[bc]]cd", "^ab(?:(?![bc])[abcd])cd$");
     ("ab[abcd-[bc-[c]]]cd", "^ab(?:(?!(?:(?![c])[bc]))[abcd])cd$");
     ("ab[a-d-[bc-[c]]]cd", "^ab(?:(?!(?:(?![c])[bc]))[a-d])cd$")].
Proof. repeat constructor. Qed.

(** The rows of its matching table that are in the fragment. *)
Example matching_table :
  Forall (λ row, (λ p, Regexp.test p.2 row.1.2) <$> Regexp.parse row.1.1
                 = Some row.2)
    [("ab[abcd-[bc]]cd", "abdcd", true);
     ("ab[abcd-[bc]]cd", "abbcd", false);
     ("ab[abcd-[bc]]cd", "ab1cd", false);
     ("ab[abcd-[bc-[c]]]cd", "abacd", true);
     ("ab[abcd-[bc-[c]]]cd", "ab1cd", false);
     ("ab[a\sq]cd", "abacd", true);
     ("ab[a\sq]cd", "ab cd", true);
     ("ab[a\sq]cd", "ab1cd", false)].
Proof. repeat constructor. Qed.

(** C7: the expression ab[abcd-[bc]]cd is translated to the anchored string
    ^ab(?:(?![bc])[abcd])cd$, a negative lookahead for the subtracted class
    followed by the positive class; its matcher accepts abdcd and rejects
    abbcd and ab1cd. *)
Theorem subtraction_example :
  ∃ matcher,
    Regexp.parse "ab[abcd-[bc]]cd"
      = Some ("^ab(?:(?![bc])[abcd])cd$", matcher)
    ∧ matcher
      = Regexp.anchored
          (Regexp.JSeq (Regexp.JLit "a")
             (Regexp.JSeq (Regexp.JLit "b")
                (Regexp.JSeq
                   (Regexp.JGroup
                      (Regexp.JSeq
                         (Regexp.JNotAhead
                            (Regexp.JSet false
                               [Regexp.JChar "b"; Regexp.JChar "c"]))
                         (Regexp.JSet false
                            [Regexp.JChar "a"; Regexp.JChar "b";
                             Regexp.JChar "c"; Regexp.JChar "d"])))
                   (Regexp.JSeq (Regexp.JLit "c") (Regexp.JLit "d")))))
    ∧ Regexp.test matcher "abdcd" = true
    ∧ Regexp.test matcher "abbcd" = false
    ∧ Regexp.test matcher "ab1cd" = false.
Proof.
  eexists. split; [vm_compute; reflexivity|].
  split; [reflexivity|]. split_and!; vm_compute; reflexivity.
Qed.

(** * The format version of salve-convert *)

Lemma adjust_format_version args :
  SalveConvert.format_version (SalveConvert.adjust args)
  = SalveConvert.format_version args.
Proof. reflexivity. Qed.

Lemma strictEq_not_lt (v : Js.Number) (z : Z) :
  Js.strictEq v (Js.ofZ z) = true → Js.lt v (Js.ofZ z) = false.
Proof.
  destruct v as [|negative|p]; simpl; try discriminate.
  intros Heq. apply Qeq_bool_iff in Heq.
  apply negb_false_iff, Qle_bool_iff. rewrite Heq. apply Qle_refl.
Qed.

(** C9: only format version 3 is accepted.  A version below 3 makes the
    tool throw [Fatal], which ends the process with exit code 1; for any
    version other than 3 the constructor of [DefaultConversionWalker]
    throws, and the tool gets no walker; with version 3 the tool goes on
    and gets its walker. *)
Theorem only_format_version_3 (prog : string) (args : SalveConvert.Args) :
  let v := SalveConvert.format_version args in
  (Js.lt v (Js.ofZ 3) = true →
   SalveConvert.main prog args
   = SalveConvert.Ended
       (SalveConvert.Exit 1
          [(prog ++ ": ",
            Js.MsgNumber "can't produce format version " v)]))
  ∧ (Js.strictEq v (Js.ofZ 3) = false →
     (∀ includePaths verbose,
         Conversion.new v includePaths verbose
         = inl (Js.Error
                  (Js.Msg "DefaultConversionWalker only supports version 3")))
     ∧ ∃ ex, SalveConvert.makeWalker (SalveConvert.adjust args) = inl ex)
  ∧ (Js.strictEq v (Js.ofZ 3) = true →
     SalveConvert.main prog args
     = SalveConvert.Proceeds (SalveConvert.adjust args)
     ∧ ∃ walker,
         SalveConvert.makeWalker (SalveConvert.adjust args) = inr walker).
Proof.
  intros v. split_and!.
  - intros Hlt. unfold SalveConvert.main, SalveConvert.checkFormatVersion.
    rewrite adjust_format_version. fold v. rewrite Hlt. reflexivity.
  - intros Hne. split.
    + intros includePaths verbose. unfold Conversion.new. by rewrite Hne.
    + unfold SalveConvert.makeWalker. rewrite adjust_format_version.
      fold v. rewrite Hne. eauto.
  - intros Heq. split.
    + unfold SalveConvert.main, SalveConvert.checkFormatVersion.
      rewrite adjust_format_version. fold v.
      by rewrite (strictEq_not_lt v 3 Heq).
    + unfold SalveConvert.makeWalker, Conversion.new.
      rewrite adjust_format_version. fold v. rewrite Heq. simpl. eauto.
Qed.

Lemma only_format_version_3_witness :
  let args v :=
    SalveConvert.mkArgs false false (Js.ofZ v) false false false false false
      false None "schema.rng" "schema.json" in
  SalveConvert.main "salve-convert" (args 2%Z)
  = SalveConvert.Ended
      (SalveConvert.Exit 1
         [("salve-convert: ",
           Js.MsgNumber "can't produce format version " (Js.ofZ 2))])
  ∧ (∃ ex, SalveConvert.makeWalker (SalveConvert.adjust (args 4%Z)) = inl ex)
  ∧ SalveConvert.main "salve-convert" (args 3%Z)
    = SalveConvert.Proceeds (SalveConvert.adjust (args 3%Z)).
Proof.
  intros args. split_and!.
  - apply (proj1 (only_format_version_3 "salve-convert" (args 2%Z))).
    reflexivity.
  - apply (proj1 (proj2 (only_format_version_3 "salve-convert" (args 4%Z)))).
    reflexivity.
  - apply (proj2 (proj2 (only_format_version_3 "salve-convert" (args 3%Z)))).
    reflexivity.
Defined.

(** * The writer of the JSON format *)

Section ConversionFacts.
Import Js Conversion.

Lemma append_assoc (a b c : string) : (a ++ b) ++ c = a ++ (b ++ c).
Proof.
  induction a as [|x a IH]; [reflexivity|].
  change (String x ((a ++ b) ++ c) = String x (a ++ (b ++ c))).
  by rewrite IH.
Qed.

Lemma append_empty_r (a : string) : a ++ "" = a.
Proof.
  induction a as [|x a IH]; [reflexivity|].
  change (String x (a ++ "") = String x a). by rewrite IH.
Qed.

Lemma touch_touch cs : touch (touch cs) = touch cs.
Proof. by destruct cs. Qed.

Lemma drop_touch n cs : (1 ≤ n)%nat → drop n (touch cs) = drop n cs.
Proof. intros Hn. destruct n; [lia|]. by destruct cs. Qed.

Lemma touch_length cs : List.length (touch cs) = List.length cs.
Proof. by destruct cs. Qed.

Lemma andThen_inr (m1 m2 : Method) st st' :
  (m1 ;; m2) st = inr st' ↔ ∃ st1, m1 st = inr st1 ∧ m2 st1 = inr st'.
Proof.
  unfold andThen. destruct (m1 st) as [e|st1]; split.
  - done.
  - by intros (? & ? & ?).
  - eauto.
  - by intros (? & [= <-] & ?).
Qed.

Lemma sameConfig_refl st : SameConfig st st.
Proof. by repeat split. Qed.

Lemma sameConfig_trans st1 st2 st3 :
  SameConfig st1 st2 → SameConfig st2 st3 → SameConfig st1 st3.
Proof.
  unfold SameConfig. intros (? & ? & ?) (? & ? & ?). split_and!; congruence.
Qed.

(** *** The rules of [Pops] *)

Lemma pops_done : Appends done_.
Proof.
  intros st st' [= <-] _.
  split_and!; [exists ""; by rewrite append_empty_r | by left
              | apply sameConfig_refl].
Qed.

Lemma pops_throw n e : Pops n (throw e).
Proof. by intros st st' Hrun. Qed.

Lemma pops_emit s : Appends (emit s).
Proof.
  intros st st' [= <-] _. simpl.
  split_and!; [by exists s | by left | by repeat split].
Qed.

Lemma pops_setInNameClass b : Appends (setInNameClass b).
Proof.
  intros st st' [= <-] _. simpl.
  split_and!; [exists ""; by rewrite append_empty_r | by left
              | by repeat split].
Qed.

Lemma pops_andThen n m1 m2 : Appends m1 → Pops n m2 → Pops n (m1 ;; m2).
Proof.
  intros H1 H2 st st' Hrun Hn.
  apply andThen_inr in Hrun as (st1 & Hr1 & Hr2).
  destruct (H1 st st1 Hr1) as ([s1 Ho1] & Hs1 & Hc1); [lia|].
  rewrite !drop_0 in Hs1.
  destruct (H2 st1 st' Hr2) as ([s2 Ho2] & Hs2 & Hc2).
  { destruct Hs1 as [-> | ->]; by rewrite ?touch_length. }
  split_and!.
  - exists (s1 ++ s2). by rewrite Ho2, Ho1, append_assoc.
  - destruct n as [|n].
    + rewrite !drop_0 in *.
      destruct Hs1 as [Hs1 | Hs1]; rewrite Hs1 in Hs2;
        rewrite ?touch_touch in Hs2; tauto.
    + destruct Hs1 as [Hs1 | Hs1]; rewrite Hs1 in Hs2;
        rewrite ?drop_touch in Hs2 by lia; exact Hs2.
  - by eapply sameConfig_trans.
Qed.

Lemma pops_withValue {A : Type} n (r : Result A) (k : A → Method) :
  (∀ a, Pops n (k a)) → Pops n (withValue r k).
Proof.
  intros Hk st st' Hrun Hn. unfold withValue in Hrun.
  destruct r as [e|a]; [done|]. by apply (Hk a).
Qed.

Lemma pops_withState n (f : t → Method) :
  (∀ x, Pops n (f x)) → Pops n (withState f).
Proof. intros Hf st st' Hrun Hn. by apply (Hf st). Qed.

Lemma pops_newItem : Appends newItem.
Proof.
  intros st st' Hrun _. unfold newItem in Hrun. rewrite drop_0.
  destruct (_constructState st) as [|top rest] eqn:Hs; [done|].
  destruct (first top) eqn:Hf; injection Hrun as <-; simpl.
  - split_and!; [exists ""; by rewrite append_empty_r | by right
                | by repeat split].
  - split_and!; [by exists "," | by left | by repeat split].
Qed.

Lemma pops_open n o c m : Pops (S n) m → Pops n (openConstruct o c ;; m).
Proof.
  intros Hm st st' Hrun Hn.
  apply andThen_inr in Hrun as (st1 & Hr1 & Hr2).
  injection Hr1 as <-.
  destruct (Hm _ st' Hr2) as ([s Ho] & Hs & Hc); [simpl; lia|].
  simpl in *. split_and!; [|done..].
  exists (o ++ s). by rewrite Ho, append_assoc.
Qed.

Lemma pops_close n c m : Pops n m → Pops (S n) (closeConstruct c ;; m).
Proof.
  intros Hm st st' Hrun Hn.
  apply andThen_inr in Hrun as (st1 & Hr1 & Hr2).
  unfold closeConstruct in Hr1.
  destruct (_constructState st) as [|top rest] eqn:Hst; [simpl in Hn; lia|].
  case_bool_decide; [done|]. injection Hr1 as <-.
  destruct (Hm _ st' Hr2) as ([s Ho] & Hs & Hc); [simpl in *; lia|].
  simpl in *. split_and!; [|done..].
  exists (c ++ s). by rewrite Ho, append_assoc.
Qed.

Lemma pops_close_last c : Pops 1 (closeConstruct c).
Proof.
  intros st st' Hrun Hn. unfold closeConstruct in Hrun.
  destruct (_constructState st) as [|top rest] eqn:Hst; [simpl in Hn; lia|].
  case_bool_decide; [done|]. injection Hrun as <-. simpl.
  split_and!; [by exists c | by left | by repeat split].
Qed.

Lemma pops_if n (b : bool) (m1 m2 : Method) :
  Pops n m1 → Pops n m2 → Pops n (if b then m1 else m2).
Proof. by destruct b. Qed.

(** Deriving [Pops] along the structure of a method. *)
Ltac pops_step :=
  lazymatch goal with
  | |- Pops _ (openConstruct _ _ ;; _) => apply pops_open
  | |- Pops _ (closeConstruct _ ;; _) => apply pops_close
  | |- Pops _ (closeConstruct _) => apply pops_close_last
  | |- Pops _ (_ ;; _) => apply pops_andThen
  | |- Pops _ (withValue _ _) => apply pops_withValue; intros ?
  | |- Pops _ (withState _) => apply pops_withState; intros ?
  | |- Pops _ (if _ then _ else _) => apply pops_if
  | |- Pops _ (match ?x with Some _ => _ | None => _ end) => destruct x
  | |- Pops _ (throw _) => apply pops_throw
  | |- Pops _ done_ => apply pops_done
  | |- Pops _ (emit _) => apply pops_emit
  | |- Pops _ (setInNameClass _) => apply pops_setInNameClass
  | |- Pops _ newItem => apply pops_newItem
  | |- Pops _ (let _ := _ in _) => cbv zeta
  end.

Ltac pops := repeat (first [assumption | pops_step]).

Lemma pops_outputItem item : Appends (outputItem item).
Proof. unfold outputItem. pops. Qed.

Lemma pops_outputAsString thing : Appends (outputAsString thing).
Proof. unfold outputAsString. pops. Qed.

Lemma pops_outputName name : Appends (outputName name).
Proof.
  unfold outputName. pops; [apply pops_outputItem | apply pops_outputAsString].
Qed.

Lemma pops_openArray n m : Pops (S n) m → Pops n (openArray ;; m).
Proof.
  intros Hm st st' Hrun Hn.
  apply andThen_inr in Hrun as (st1 & Hr1 & Hr2).
  assert (Hseq : (openConstruct "[" "]" ;;
                  withState (λ st, outputItem (arrayStart st)) ;; m) st
                 = inr st').
  { apply andThen_inr. unfold openArray in Hr1.
    apply andThen_inr in Hr1 as (st0 & Ho & Hi).
    exists st0. split; [done|]. apply andThen_inr. eauto. }
  revert Hseq Hn. generalize st st'.
  change (Pops n (openConstruct "[" "]" ;;
                  withState (λ st, outputItem (arrayStart st)) ;; m)).
  pops. apply pops_outputItem.
Qed.

Lemma pops_outputHead name code path : Appends (outputHead name code path).
Proof.
  unfold outputHead. pops;
    first [apply pops_outputItem | apply pops_outputAsString].
Qed.

Ltac pops_all :=
  repeat (first [ assumption
                | apply pops_outputItem | apply pops_outputAsString
                | apply pops_outputName | apply pops_outputHead
                | apply pops_openArray
                | pops_step ]).

Section WithCodes.
Variable nameToCode : string → option Z.

Lemma walkArguments_appends elName attributes text hasParams hasExcept
    length walkChildren walkFirst walkLast :
  (∀ s e, Appends (walkChildren s e)) →
  Appends walkFirst → Appends walkLast →
  Appends (walkArguments elName attributes text hasParams hasExcept length
             walkChildren walkFirst walkLast).
Proof.
  intros Hc Hf Hl. unfold walkArguments. pops_all; apply Hc.
Qed.

Lemma walkElement_appends elName path attributes text firstText hasParams
    hasExcept length walkChildren walkFirst walkLast :
  (∀ s e, Appends (walkChildren s e)) →
  Appends walkFirst → Appends walkLast →
  Appends (walkElement nameToCode elName path attributes text firstText
             hasParams hasExcept length walkChildren walkFirst walkLast).
Proof.
  intros Hc Hf Hl. unfold walkElement.
  pops_all; try apply Hc.
  by apply walkArguments_appends.
Qed.

(** Induction on trees, with the hypothesis for every child. *)
Lemma Node_ind' (P : Node → Prop) :
  (∀ text, P (Text text)) →
  (∀ local path attributes children,
      Forall P children → P (Element local path attributes children)) →
  ∀ n, P n.
Proof.
  intros HText HElement.
  fix IH 1. intros [local path attributes children | text].
  - apply HElement. induction children as [|c cs IHcs].
    + constructor.
    + constructor; [apply IH | exact IHcs].
  - apply HText.
Qed.

Lemma walkChildren_appends (walk : Node → Method) children startAt endAt :
  Forall (λ child, Appends (walk child)) children →
  Appends (walkChildren walk children startAt endAt).
Proof.
  intros Hall. unfold walkChildren.
  generalize (default (List.length children) endAt) as limit. intros limit.
  match goal with
  | |- Appends (?go children 0%nat) =>
      enough (Hgo : ∀ ix, Appends (go children ix)) by apply Hgo
  end.
  induction Hall as [|child rest Hchild _ IHrest]; intros ix.
  - apply pops_done.
  - apply pops_andThen; [|apply IHrest].
    destruct ((startAt <=? ix)%nat && (ix <? limit)%nat); [|apply pops_done].
    destruct child; [exact Hchild | apply pops_done].
Qed.

Lemma walkFirst_appends (walk : Node → Method) children :
  Forall (λ child, Appends (walk child)) children →
  Appends (walkFirst walk children).
Proof.
  intros [|child rest Hchild _]; [apply pops_throw | exact Hchild].
Qed.

Lemma walkLast_appends (walk : Node → Method) children :
  Forall (λ child, Appends (walk child)) children →
  Appends (walkLast walk children).
Proof.
  intros Hall. unfold walkLast.
  induction Hall as [|child rest Hchild Hrest IHrest]; [apply pops_throw|].
  destruct Hrest; [exact Hchild | exact IHrest].
Qed.

Lemma walk_appends el : Appends (walk nameToCode el).
Proof.
  induction el as [text | elName path attributes children IH]
    using Node_ind'.
  - apply pops_throw.
  - simpl. apply walkElement_appends.
    + intros startAt endAt. by apply walkChildren_appends.
    + by apply walkFirst_appends.
    + by apply walkLast_appends.
Qed.

Lemma children_append children :
  Forall (λ child, Appends (walk nameToCode child)) children.
Proof. apply Forall_forall. intros child _. apply walk_appends. Qed.

(** *** What the primitives write *)

Lemma item_inr (x : string) st st' :
  (newItem ;; emit x) st = inr st' →
  _constructState st ≠ []
  ∧ _output st' = _output st ++ separator (_constructState st) ++ x
  ∧ _constructState st' = touch (_constructState st)
  ∧ SameConfig st st'.
Proof.
  intros Hrun. apply andThen_inr in Hrun as (st1 & Hn & He).
  injection He as <-. unfold newItem in Hn.
  destruct (_constructState st) as [|[o c f] rest] eqn:Hs; [done|].
  destruct f; injection Hn as <-; simpl; rewrite ?Hs; simpl;
    split_and!; try done.
  by rewrite append_assoc.
Qed.

Lemma closeConstruct_inr c st st' top rest :
  closeConstruct c st = inr st' →
  _constructState st = top :: rest →
  _output st' = _output st ++ c ∧ _constructState st' = rest
  ∧ SameConfig st st'.
Proof.
  intros Hrun Hs. unfold closeConstruct in Hrun. rewrite Hs in Hrun.
  case_bool_decide; [done|]. injection Hrun as <-. simpl.
  split_and!; done.
Qed.

Lemma outputHead_inr name code path st st' o c rest :
  outputHead name code path st = inr st' →
  _constructState st = mkConstruct o c true :: rest →
  _output st' = _output st ++ headText st name code path
  ∧ _constructState st' = mkConstruct o c false :: rest
  ∧ SameConfig st st'.
Proof.
  intros Hrun Hs. unfold outputHead in Hrun.
  apply andThen_inr in Hrun as (st1 & Hctor & Hpath).
  unfold withState in Hctor, Hpath.
  assert (H1 : _output st1
               = _output st ++ (if verbose st then quoted name else pretty code)
               ∧ _constructState st1 = mkConstruct o c false :: rest
               ∧ SameConfig st st1).
  { destruct (verbose st);
      apply item_inr in Hctor as (_ & Ho & Hst & Hc);
      rewrite Hs in Ho, Hst; simpl in Ho, Hst; done. }
  destruct H1 as (Ho1 & Hs1 & Hc1).
  pose proof Hc1 as (Hip & _ & _). rewrite Hip in Hpath.
  unfold headText. destruct (includePaths st).
  - apply item_inr in Hpath as (_ & Ho & Hst & Hc).
    rewrite Hs1 in Ho, Hst. simpl in Ho, Hst.
    split_and!; [|done|by eapply sameConfig_trans].
    by rewrite Ho, Ho1, append_assoc.
  - injection Hpath as <-.
    split_and!; [|done..]. by rewrite Ho1, append_empty_r.
Qed.

Lemma lookupCode_inr name code :
  lookupCode nameToCode name = inr code → nameToCode name = Some code.
Proof. unfold lookupCode. destruct (nameToCode name); naive_solver. Qed.

Lemma node_array elName path attributes children st st' :
  elName ≠ "start" → elName ≠ "param" → elName ≠ "grammar" →
  capitalize elName ≠ "Except" →
  walk nameToCode (Element elName path attributes children) st = inr st' →
  ∃ code body,
    let name := constructorName (inNameClass st) elName in
    nameToCode name = Some code
    ∧ _output st'
      = _output st ++ separator (_constructState st)
        ++ "[" ++ headText st name code path ++ body ++ "]"
    ∧ SameConfig st st'.
Proof.
  intros Hstart Hparam Hgrammar Hexcept Hrun. simpl in Hrun.
  unfold walkElement in Hrun.
  rewrite !bool_decide_eq_false_2 in Hrun by done.
  unfold withState in Hrun. cbv zeta in Hrun.
  set (name := constructorName (inNameClass st) elName) in *.
  apply andThen_inr in Hrun as (st1 & Hitem & Hrun).
  assert (Hitem' : (newItem ;; emit "") st = inr st1).
  { apply andThen_inr. exists st1. split; [done|].
    unfold emit. rewrite append_empty_r. by destruct st1. }
  apply item_inr in Hitem' as (Hne & Ho1 & Hs1 & Hc1).
  rewrite append_empty_r in Ho1.
  unfold withValue in Hrun.
  destruct (lookupCode nameToCode name) as [e|code] eqn:Hcode; [done|].
  apply lookupCode_inr in Hcode.
  apply andThen_inr in Hrun as (st2 & Hopen & Hrun).
  injection Hopen as <-.
  apply andThen_inr in Hrun as (st3 & Hhead & Hrun).
  eapply outputHead_inr in Hhead as (Ho3 & Hs3 & Hc3); [|reflexivity].
  apply andThen_inr in Hrun as (st4 & Hargs & Hclose).
  destruct (walkArguments_appends _ _ _ _ _ _ _ _ _
              (λ s e, walkChildren_appends _ _ s e (children_append children))
              (walkFirst_appends _ _ (children_append children))
              (walkLast_appends _ _ (children_append children))
              st3 st4 Hargs) as ([body Ho4] & Hs4 & Hc4); [lia|].
  rewrite drop_0, Hs3 in Hs4.
  assert (∃ top, _constructState st4 = top :: _constructState st1)
    as [top Hs4'] by (destruct Hs4 as [-> | ->]; eauto).
  eapply closeConstruct_inr in Hclose as (Ho5 & Hs5 & Hc5); [|exact Hs4'].
  exists code, body. split; [done|]. split.
  - rewrite Ho5, Ho4, Ho3. simpl. rewrite Ho1.
    unfold headText. simpl.
    destruct Hc1 as (-> & -> & _). by rewrite !append_assoc.
  - unfold SameConfig in *. simpl in *. split_and!; intuition congruence.
Qed.
Lemma grammar_object path attributes children st st' :
  walk nameToCode (Element "grammar" path attributes children) st = inr st' →
  ∃ code body,
    nameToCode "Grammar" = Some code
    ∧ _output st'
      = _output st ++ "{"
        ++ objectStart (if includePaths st then 0%Z else OPTION_NO_PATHS)
        ++ "[" ++ headText st "Grammar" code path ++ body ++ "]" ++ "}"
    ∧ SameConfig st st'.
Proof.
  intros Hrun. simpl in Hrun. unfold walkElement in Hrun.
  rewrite !bool_decide_eq_false_2 in Hrun by done.
  rewrite bool_decide_eq_true_2 in Hrun by done.
  apply andThen_inr in Hrun as (st1 & Hopen & Hrun).
  injection Hopen as <-.
  apply andThen_inr in Hrun as (st2 & Hitem & Hrun).
  unfold withState, outputItem in Hitem.
  apply item_inr in Hitem as (_ & Ho2 & Hs2 & Hc2). simpl in Ho2, Hs2.
  unfold withValue in Hrun.
  destruct (lookupCode nameToCode "Grammar") as [e|code] eqn:Hcode; [done|].
  apply lookupCode_inr in Hcode.
  apply andThen_inr in Hrun as (st3 & Hopen & Hrun).
  injection Hopen as <-.
  apply andThen_inr in Hrun as (st4 & Hhead & Hrun).
  eapply outputHead_inr in Hhead as (Ho4 & Hs4 & Hc4); [|reflexivity].
  apply andThen_inr in Hrun as (st5 & Hfirst & Hrun).
  apply andThen_inr in Hrun as (st6 & Hnew & Hrun).
  apply andThen_inr in Hrun as (st7 & Harray & Hrun).
  apply andThen_inr in Hrun as (st8 & Hrest & Hrun).
  apply andThen_inr in Hrun as (st9 & Hclose1 & Hrun).
  apply andThen_inr in Hrun as (st10 & Hclose2 & Hclose3).
  set (wc := walkChildren (walk nameToCode) children 1 None) in *.
  set (wf := walkFirst (walk nameToCode) children) in *.
  assert (Hinner : (wf ;; newItem ;; openArray ;; wc ;; closeConstruct "]")
                     st4 = inr st9).
  { repeat (apply andThen_inr; eexists; split; [eassumption|]).
    exact Hclose1. }
  assert (Happ : Appends (wf ;; newItem ;; openArray ;; wc
                          ;; closeConstruct "]")).
  { pops_all.
    - apply walkFirst_appends, children_append.
    - apply walkChildren_appends, children_append. }
  destruct (Happ st4 st9 Hinner) as ([body Ho9] & Hs9 & Hc9); [lia|].
  rewrite drop_0, Hs4 in Hs9.
  assert (∃ top, _constructState st9 = top :: _constructState st2)
    as [top Hs9'] by (destruct Hs9 as [-> | ->]; eauto).
  eapply closeConstruct_inr in Hclose2 as (Ho10 & Hs10 & Hc10);
    [|exact Hs9'].
  rewrite Hs2 in Hs10.
  eapply closeConstruct_inr in Hclose3 as (Ho11 & Hs11 & Hc11);
    [|exact Hs10].
  exists code, body. split; [done|]. split.
  - rewrite Ho11, Ho10, Ho9, Ho4. simpl. rewrite Ho2. simpl.
    unfold headText. simpl.
    destruct Hc2 as (Hip & Hvb & _). simpl in Hip, Hvb. rewrite Hip, Hvb.
    by rewrite !append_assoc.
  - unfold SameConfig in *. simpl in *. split_and!; intuition congruence.
Qed.

End WithCodes.
End ConversionFacts.


(** * Further properties of the interleave walker *)

Section InterleaveMore.
Context `{Host} {PA WA PB WB : Type}.
Context `{!Walker.InternalWalker WA} `{!Walker.InternalWalker WB}.
Context `{!Pattern.BasePattern PA WA} `{!Pattern.BasePattern PB WB}.
Variables (pA : PA) (pB : PB) (nr : NameResolver).

Import InterleaveWalker.
Implicit Types w : InterleaveWalker.t WA WB.

Local Abbreviation a0 := (Pattern.newWalker pA nr).
Local Abbreviation b0 := (Pattern.newWalker pB nr).
Local Abbreviation w0 := (InterleaveWalker.new (Interleave.mk pA pB) nr).

Lemma reachable_canEndAttribute_cached w :
  Contract.KeepsCanEndAttribute a0 → Contract.KeepsCanEndAttribute b0 →
  Walker.Reachable w0 w → CanEndAttributeCached w.
Proof.
  intros HA HB Hw. induction Hw as [|w name params Hw IH].
  - reflexivity.
  - destruct (reachable_parts pA pB nr w Hw) as (_ & Ha & Hb).
    by apply (fireEvent_canEndAttribute_cached pA pB nr).
Qed.

(** X1: [canEndAttribute] is true exactly when [endAttributes()] returns
    false, for a walker reached from a fresh one by events, provided the
    same holds of the subwalkers and they change [canEndAttribute] only when
    they match an attribute event. *)
Theorem canEndAttribute_iff_endAttributes_returns_false w :
  Contract.KeepsCanEndAttribute a0 → Contract.KeepsCanEndAttribute b0 →
  EndAttributesAgrees a0 → EndAttributesAgrees b0 →
  Walker.Reachable w0 w →
  canEndAttribute w = true ↔ (endAttributes w).2 = None.
Proof.
  intros HA HB EA EB Hw.
  destruct (reachable_parts pA pB nr w Hw) as (He & Ha & Hb).
  pose proof (reachable_canEndAttribute_cached w HA HB Hw) as Hc.
  unfold CanEndAttributeCached in Hc.
  specialize (EA _ Ha). specialize (EB _ Hb).
  unfold endAttributes. rewrite He. simpl.
  destruct (canEndAttribute w) eqn:Hcw; simpl; [done|].
  destruct (Walker.endAttributes (walkerA w)) as [a' retA].
  destruct (Walker.endAttributes (walkerB w)) as [b' retB]. simpl in *.
  split; [done|]. intros Hnone. exfalso.
  destruct retA as [ea|]; [by destruct retB|].
  simpl in Hnone. subst retB.
  rewrite (proj2 EA eq_refl), (proj2 EB eq_refl) in Hc.
  by destruct (hasAttrs w).
Qed.

(** X2: an event the walker does not match leaves the walker, subwalkers
    included, exactly as it was, when the same holds of the subwalkers: a
    parent can offer an event to an interleave and then to an alternative. *)
Theorem interleave_unmatched_idle :
  Contract.UnmatchedIdle a0 → Contract.UnmatchedIdle b0 →
  Contract.UnmatchedIdle w0.
Proof.
  intros IA IB w name params Hw.
  destruct (reachable_parts pA pB nr w Hw) as (_ & Ha & Hb).
  specialize (IA _ name params Ha). specialize (IB _ name params Hb).
  simpl. unfold fireEvent.
  fire_cases w name params; simpl in *; intros Hm; try congruence.
  rewrite (IA HmA), (IB HmB). by destruct w.
Qed.
End InterleaveMore.

Section InterleaveFlags.
Context `{Host} {WA WB : Type}.
Context `{!Walker.InternalWalker WA} `{!Walker.InternalWalker WB}.

Import InterleaveWalker.
Implicit Types w : InterleaveWalker.t WA WB.

(** X3: [fireEvent] recomputes [canEnd] from the subwalkers exactly when
    the event was matched, and [canEndAttribute] exactly when a matched event is
    an attribute event; otherwise the flags stay as they were.  It never
    changes [ended], [hasAttrs] or the name resolver. *)
Theorem flags_change_only_on_match w name params :
  let '(w', ret) := fireEvent w name params in
  canEnd w'
  = (if matched ret
     then Walker.canEnd (walkerA w') && Walker.canEnd (walkerB w')
     else canEnd w)
  ∧ canEndAttribute w'
    = (if matched ret && isAttributeEvent name
       then Walker.canEndAttribute (walkerA w')
            && Walker.canEndAttribute (walkerB w')
       else canEndAttribute w)
  ∧ ended w' = ended w ∧ hasAttrs w' = hasAttrs w
  ∧ nameResolver w' = nameResolver w.
Proof.
  unfold fireEvent.
  fire_cases w name params; simpl; rewrite ?HmA, ?HmB; simpl;
    split_and!; try done; by destruct (isAttributeEvent name).
Qed.
End InterleaveFlags.

Lemma canEndAttribute_iff_endAttributes_returns_false_witness :
  let w := Walker.run [Script.attributeName "a"]
             (Examples.interleave Examples.attributeA Examples.elementB) in
  InterleaveWalker.canEndAttribute w = true
  ↔ (InterleaveWalker.endAttributes w).2 = None.
Proof.
  apply (canEndAttribute_iff_endAttributes_returns_false
           Examples.attributeA Examples.elementB Examples.resolver).
  - apply script_keeps_canEndAttribute.
  - apply script_keeps_canEndAttribute.
  - intros w _. simpl. unfold Script.endAttributes.
    destruct (Script.canEndAttribute w); simpl; split; done.
  - intros w _. simpl. unfold Script.endAttributes.
    destruct (Script.canEndAttribute w); simpl; split; done.
  - apply reachable_run. constructor.
Defined.

Lemma interleave_unmatched_idle_witness :
  Contract.UnmatchedIdle
    (Examples.interleave Examples.textX Examples.elementB).
Proof.
  apply (interleave_unmatched_idle Examples.textX Examples.elementB
           Examples.resolver).
  - apply script_unmatched_idle.
  - apply script_unmatched_idle.
Defined.

(** * More on the conversion walker *)
Section WriterFacts.
Import Js Conversion DefaultConversionWalker.

(** ** Every construct is closed with its own string *)

Lemma typeError_not_mismatch : ¬ IsMismatch TypeError.
Proof. by intros (a & b & H). Qed.

Lemma mustGetAttribute_not_mismatch attributes name e :
  mustGetAttribute attributes name = inl e → ¬ IsMismatch e.
Proof.
  unfold mustGetAttribute. destruct (List.find _ _); [done|].
  intros [= <-] (a & b & H). unfold mismatch in H. by vm_compute in H.
Qed.

Lemma lookupCode_not_mismatch nameToCode name e :
  lookupCode nameToCode name = inl e → ¬ IsMismatch e.
Proof.
  unfold lookupCode. destruct (nameToCode name); [done|].
  intros [= <-] (a & b & H). unfold mismatch in H. by vm_compute in H.
Qed.

Lemma closeConstruct_mismatches c st top rest :
  _constructState st = top :: rest → c ≠ close top →
  closeConstruct c st = inl (mismatch (close top) c).
Proof.
  intros Hs Hne. unfold closeConstruct. rewrite Hs.
  by rewrite bool_decide_eq_true_2.
Qed.

Lemma paired_done : Paired [] done_.
Proof. by intros st _. Qed.

Lemma paired_throw expect e : ¬ IsMismatch e → Paired expect (throw e).
Proof. by intros He st _. Qed.

Lemma paired_emit s : Paired [] (emit s).
Proof. by intros st _. Qed.

Lemma paired_setInNameClass b : Paired [] (setInNameClass b).
Proof. by intros st _. Qed.

Lemma paired_newItem : Paired [] newItem.
Proof.
  intros st _. unfold newItem.
  destruct (_constructState st) as [|top rest] eqn:Hs.
  - apply typeError_not_mismatch.
  - destruct (first top); simpl; by rewrite ?Hs.
Qed.

Lemma paired_andThen expect m1 m2 :
  Paired [] m1 → Paired expect m2 → Paired expect (m1 ;; m2).
Proof.
  intros H1 H2 st Hpre. specialize (H1 st eq_refl). unfold andThen.
  destruct (m1 st) as [e|st1]; [done|]. simpl in H1.
  specialize (H2 st1). rewrite fmap_take, H1, <-fmap_take in H2.
  specialize (H2 Hpre). destruct (m2 st1) as [e|st2]; [done|].
  by rewrite H2, !fmap_drop, H1.
Qed.

Lemma paired_withValue {A : Type} expect (r : Result A) (k : A → Method) :
  (∀ e, r = inl e → ¬ IsMismatch e) →
  (∀ a, Paired expect (k a)) → Paired expect (withValue r k).
Proof.
  intros Hr Hk st Hpre. unfold withValue.
  destruct r as [e|a]; [by apply Hr | by apply Hk].
Qed.

Lemma paired_withState expect (f : t → Method) :
  (∀ x, Paired expect (f x)) → Paired expect (withState f).
Proof. intros Hf st Hpre. by apply (Hf st). Qed.

Lemma paired_if expect (b : bool) (m1 m2 : Method) :
  Paired expect m1 → Paired expect m2 →
  Paired expect (if b then m1 else m2).
Proof. by destruct b. Qed.

Lemma paired_open expect o c m :
  Paired (c :: expect) m → Paired expect (openConstruct o c ;; m).
Proof.
  intros Hm st Hpre. unfold andThen, openConstruct. simpl.
  match goal with |- match m ?st1 with _ => _ end => specialize (Hm st1) end.
  simpl in Hm. apply Hm. f_equal. exact Hpre.
Qed.

Lemma paired_close expect c m :
  Paired expect m → Paired (c :: expect) (closeConstruct c ;; m).
Proof.
  intros Hm st Hpre. unfold andThen, closeConstruct.
  destruct (_constructState st) as [|top rest] eqn:Hs; [done|].
  simpl in Hpre. injection Hpre as Hc Hpre.
  rewrite bool_decide_eq_false_2 by (intros Hne; by apply Hne).
  simpl.
  match goal with |- match m ?st1 with _ => _ end => specialize (Hm st1) end.
  simpl in Hm. apply Hm. exact Hpre.
Qed.

Lemma paired_close_last c : Paired [c] (closeConstruct c).
Proof.
  intros st Hpre. unfold closeConstruct.
  destruct (_constructState st) as [|top rest] eqn:Hs; [done|].
  simpl in Hpre. injection Hpre as Hc.
  rewrite bool_decide_eq_false_2 by (intros Hne; by apply Hne).
  simpl. by rewrite drop_0.
Qed.

Ltac paired_step :=
  lazymatch goal with
  | |- Paired _ (openConstruct _ _ ;; _) => apply paired_open
  | |- Paired _ (closeConstruct _ ;; _) => apply paired_close
  | |- Paired _ (closeConstruct _) => apply paired_close_last
  | |- Paired _ (_ ;; _) => apply paired_andThen
  | |- Paired _ (withValue (mustGetAttribute _ _) _) =>
      apply paired_withValue;
      [intros ?; apply mustGetAttribute_not_mismatch | intros ?]
  | |- Paired _ (withValue (lookupCode _ _) _) =>
      apply paired_withValue;
      [intros ?; apply lookupCode_not_mismatch | intros ?]
  | |- Paired _ (withState _) => apply paired_withState; intros ?
  | |- Paired _ (if _ then _ else _) => apply paired_if
  | |- Paired _ (match ?x with Some _ => _ | None => _ end) => destruct x
  | |- Paired _ (throw TypeError) =>
      apply paired_throw, typeError_not_mismatch
  | |- Paired _ done_ => apply paired_done
  | |- Paired _ (emit _) => apply paired_emit
  | |- Paired _ (setInNameClass _) => apply paired_setInNameClass
  | |- Paired _ newItem => apply paired_newItem
  | |- Paired _ (let _ := _ in _) => cbv zeta
  end.

Ltac paired := repeat (first [assumption | paired_step]).

Lemma paired_outputItem item : Paired [] (outputItem item).
Proof. unfold outputItem. paired. Qed.

Lemma paired_outputAsString thing : Paired [] (outputAsString thing).
Proof. unfold outputAsString. paired. Qed.

Lemma paired_outputName name : Paired [] (outputName name).
Proof.
  unfold outputName.
  paired; [apply paired_outputItem | apply paired_outputAsString].
Qed.

Lemma paired_outputHead name code path :
  Paired [] (outputHead name code path).
Proof.
  unfold outputHead.
  paired; first [apply paired_outputItem | apply paired_outputAsString].
Qed.

Lemma paired_openArray expect m :
  Paired ("]" :: expect) m → Paired expect (openArray ;; m).
Proof.
  intros Hm.
  assert (Hseq : Paired expect
                   (openConstruct "[" "]" ;;
                    withState (λ st, outputItem (arrayStart st)) ;; m)).
  { paired. apply paired_outputItem. }
  intros st Hpre. specialize (Hseq st Hpre).
  unfold openArray, andThen in *.
  by destruct (openConstruct "[" "]" st) as [e|st0].
Qed.

Ltac paired_all :=
  repeat (first [ assumption
                | apply paired_outputItem | apply paired_outputAsString
                | apply paired_outputName | apply paired_outputHead
                | apply paired_openArray
                | paired_step ]).

(** ** [inNameClass] is false again after an element *)

Lemma leaves_of_out m : OutOfNameClass m → LeavesNameClass m.
Proof. intros Hm st st' Hrun. right. by eapply Hm. Qed.

Lemma leaves_done : LeavesNameClass done_.
Proof. intros st st' [= <-]. by left. Qed.

Lemma leaves_throw e : LeavesNameClass (throw e).
Proof. by intros st st' Hrun. Qed.

Lemma out_throw e : OutOfNameClass (throw e).
Proof. by intros st st' Hrun. Qed.

Lemma leaves_emit s : LeavesNameClass (emit s).
Proof. intros st st' [= <-]. by left. Qed.

Lemma leaves_newItem : LeavesNameClass newItem.
Proof.
  intros st st' Hrun. unfold newItem in Hrun.
  destruct (_constructState st) as [|top rest]; [done|].
  destruct (first top); injection Hrun as <-; by left.
Qed.

Lemma leaves_openConstruct o c : LeavesNameClass (openConstruct o c).
Proof. intros st st' [= <-]. by left. Qed.

Lemma leaves_closeConstruct c : LeavesNameClass (closeConstruct c).
Proof.
  intros st st' Hrun. unfold closeConstruct in Hrun.
  destruct (_constructState st) as [|top rest]; [injection Hrun as <-; by left|].
  case_bool_decide; [done|]. injection Hrun as <-. by left.
Qed.

Lemma leaves_andThen m1 m2 :
  LeavesNameClass m1 → LeavesNameClass m2 → LeavesNameClass (m1 ;; m2).
Proof.
  intros H1 H2 st st' Hrun.
  apply andThen_inr in Hrun as (st1 & Hr1 & Hr2).
  destruct (H1 _ _ Hr1), (H2 _ _ Hr2); [left|right..]; congruence.
Qed.

Lemma leaves_enter m :
  OutOfNameClass m → LeavesNameClass (setInNameClass true ;; m).
Proof.
  intros Hm st st' Hrun.
  apply andThen_inr in Hrun as (st1 & Hr1 & Hr2). right. by eapply Hm.
Qed.

Lemma out_skip m1 m2 : OutOfNameClass m2 → OutOfNameClass (m1 ;; m2).
Proof.
  intros Hm st st' Hrun.
  apply andThen_inr in Hrun as (st1 & Hr1 & Hr2). by eapply Hm.
Qed.

Lemma out_leave m :
  LeavesNameClass m → OutOfNameClass (setInNameClass false ;; m).
Proof.
  intros Hm st st' Hrun.
  apply andThen_inr in Hrun as (st1 & Hr1 & Hr2). injection Hr1 as <-.
  by destruct (Hm _ _ Hr2).
Qed.

Lemma leaves_withValue {A : Type} (r : Result A) (k : A → Method) :
  (∀ a, LeavesNameClass (k a)) → LeavesNameClass (withValue r k).
Proof.
  intros Hk st st' Hrun. unfold withValue in Hrun.
  destruct r as [e|a]; [done|]. by apply (Hk a).
Qed.

Lemma leaves_withState (f : t → Method) :
  (∀ x, LeavesNameClass (f x)) → LeavesNameClass (withState f).
Proof. intros Hf st st' Hrun. by apply (Hf st). Qed.

Lemma leaves_if (b : bool) (m1 m2 : Method) :
  LeavesNameClass m1 → LeavesNameClass m2 →
  LeavesNameClass (if b then m1 else m2).
Proof. by destruct b. Qed.

Ltac leaves_step :=
  lazymatch goal with
  | |- LeavesNameClass (setInNameClass true ;; _) => apply leaves_enter
  | |- OutOfNameClass (setInNameClass false ;; _) => apply out_leave
  | |- OutOfNameClass (_ ;; _) => apply out_skip
  | |- LeavesNameClass (_ ;; _) => apply leaves_andThen
  | |- LeavesNameClass (withValue _ _) => apply leaves_withValue; intros ?
  | |- LeavesNameClass (withState _) => apply leaves_withState; intros ?
  | |- LeavesNameClass (if _ then _ else _) => apply leaves_if
  | |- LeavesNameClass (match ?x with Some _ => _ | None => _ end) =>
      destruct x
  | |- LeavesNameClass (throw _) => apply leaves_throw
  | |- LeavesNameClass done_ => apply leaves_done
  | |- LeavesNameClass (emit _) => apply leaves_emit
  | |- LeavesNameClass newItem => apply leaves_newItem
  | |- LeavesNameClass (openConstruct _ _) => apply leaves_openConstruct
  | |- LeavesNameClass (closeConstruct _) => apply leaves_closeConstruct
  | |- LeavesNameClass (let _ := _ in _) => cbv zeta
  | |- LeavesNameClass (outputItem _) => unfold outputItem
  | |- LeavesNameClass (outputAsString _) => unfold outputAsString
  | |- LeavesNameClass (outputName _) => unfold outputName
  | |- LeavesNameClass (outputHead _ _ _) => unfold outputHead
  | |- LeavesNameClass openArray => unfold openArray
  end.

Ltac leaves := repeat (first [assumption | leaves_step]).

Section PairedWithCodes.
Variable nameToCode : string → option Z.

Lemma walkArguments_paired elName attributes text hasParams hasExcept
    length walkChildren walkFirst walkLast :
  (∀ s e, Paired [] (walkChildren s e)) →
  Paired [] walkFirst → Paired [] walkLast →
  Paired [] (walkArguments elName attributes text hasParams hasExcept length
               walkChildren walkFirst walkLast).
Proof.
  intros Hc Hf Hl. unfold walkArguments. paired_all; apply Hc.
Qed.

Lemma walkElement_paired elName path attributes text firstText hasParams
    hasExcept length walkChildren walkFirst walkLast :
  (∀ s e, Paired [] (walkChildren s e)) →
  Paired [] walkFirst → Paired [] walkLast →
  Paired [] (walkElement nameToCode elName path attributes text firstText
               hasParams hasExcept length walkChildren walkFirst walkLast).
Proof.
  intros Hc Hf Hl. unfold walkElement.
  paired_all; try apply Hc.
  by apply walkArguments_paired.
Qed.

Lemma walkChildren_paired (walk : Node → Method) children startAt endAt :
  Forall (λ child, Paired [] (walk child)) children →
  Paired [] (walkChildren walk children startAt endAt).
Proof.
  intros Hall. unfold walkChildren.
  generalize (default (List.length children) endAt) as limit. intros limit.
  match goal with
  | |- Paired [] (?go children 0%nat) =>
      enough (Hgo : ∀ ix, Paired [] (go children ix)) by apply Hgo
  end.
  induction Hall as [|child rest Hchild _ IHrest]; intros ix.
  - apply paired_done.
  - apply paired_andThen; [|apply IHrest].
    destruct ((startAt <=? ix)%nat && (ix <? limit)%nat); [|apply paired_done].
    destruct child; [exact Hchild | apply paired_done].
Qed.

Lemma walkFirst_paired (walk : Node → Method) children :
  Forall (λ child, Paired [] (walk child)) children →
  Paired [] (walkFirst walk children).
Proof.
  intros [|child rest Hchild _]; [|exact Hchild].
  apply paired_throw, typeError_not_mismatch.
Qed.

Lemma walkLast_paired (walk : Node → Method) children :
  Forall (λ child, Paired [] (walk child)) children →
  Paired [] (walkLast walk children).
Proof.
  intros Hall. unfold walkLast.
  induction Hall as [|child rest Hchild Hrest IHrest].
  - apply paired_throw, typeError_not_mismatch.
  - destruct Hrest; [exact Hchild | exact IHrest].
Qed.

Lemma walk_paired el : Paired [] (walk nameToCode el).
Proof.
  induction el as [text | elName path attributes children IH]
    using Node_ind'.
  - apply paired_throw, typeError_not_mismatch.
  - simpl. apply walkElement_paired.
    + intros startAt endAt. by apply walkChildren_paired.
    + by apply walkFirst_paired.
    + by apply walkLast_paired.
Qed.

Lemma walkArguments_leaves elName attributes text hasParams hasExcept
    length walkChildren walkFirst walkLast :
  (∀ s e, LeavesNameClass (walkChildren s e)) →
  LeavesNameClass walkFirst → LeavesNameClass walkLast →
  LeavesNameClass
    (walkArguments elName attributes text hasParams hasExcept length
       walkChildren walkFirst walkLast).
Proof.
  intros Hc Hf Hl. unfold walkArguments. leaves; apply Hc.
Qed.

Lemma walkElement_leaves elName path attributes text firstText hasParams
    hasExcept length walkChildren walkFirst walkLast :
  (∀ s e, LeavesNameClass (walkChildren s e)) →
  LeavesNameClass walkFirst → LeavesNameClass walkLast →
  LeavesNameClass
    (walkElement nameToCode elName path attributes text firstText
       hasParams hasExcept length walkChildren walkFirst walkLast).
Proof.
  intros Hc Hf Hl. unfold walkElement.
  leaves; try apply Hc.
  by apply walkArguments_leaves.
Qed.

Lemma walkChildren_leaves (walk : Node → Method) children startAt endAt :
  Forall (λ child, LeavesNameClass (walk child)) children →
  LeavesNameClass (walkChildren walk children startAt endAt).
Proof.
  intros Hall. unfold walkChildren.
  generalize (default (List.length children) endAt) as limit. intros limit.
  match goal with
  | |- LeavesNameClass (?go children 0%nat) =>
      enough (Hgo : ∀ ix, LeavesNameClass (go children ix)) by apply Hgo
  end.
  induction Hall as [|child rest Hchild _ IHrest]; intros ix.
  - apply leaves_done.
  - apply leaves_andThen; [|apply IHrest].
    destruct ((startAt <=? ix)%nat && (ix <? limit)%nat); [|apply leaves_done].
    destruct child; [exact Hchild | apply leaves_done].
Qed.

Lemma walkFirst_leaves (walk : Node → Method) children :
  Forall (λ child, LeavesNameClass (walk child)) children →
  LeavesNameClass (walkFirst walk children).
Proof.
  intros [|child rest Hchild _]; [apply leaves_throw | exact Hchild].
Qed.

Lemma walkLast_leaves (walk : Node → Method) children :
  Forall (λ child, LeavesNameClass (walk child)) children →
  LeavesNameClass (walkLast walk children).
Proof.
  intros Hall. unfold walkLast.
  induction Hall as [|child rest Hchild Hrest IHrest]; [apply leaves_throw|].
  destruct Hrest; [exact Hchild | exact IHrest].
Qed.

Lemma walk_leaves el : LeavesNameClass (walk nameToCode el).
Proof.
  induction el as [text | elName path attributes children IH]
    using Node_ind'.
  - apply leaves_throw.
  - simpl. apply walkElement_leaves.
    + intros startAt endAt. by apply walkChildren_leaves.
    + by apply walkFirst_leaves.
    + by apply walkLast_leaves.
Qed.

(** X4: a walk that returns has only appended to the output, has closed
    every construct it opened (the stack of constructs is the one it
    started with, up to an item announced in the construct on top, and so
    has the same height), and has left [includePaths], [verbose] and
    [arrayStart] alone. *)
Theorem walk_closes_what_it_opens el st st' :
  walk nameToCode el st = inr st' →
  (∃ written, _output st' = _output st ++ written)
  ∧ (_constructState st' = _constructState st
     ∨ _constructState st' = touch (_constructState st))
  ∧ List.length (_constructState st') = List.length (_constructState st)
  ∧ SameConfig st st'.
Proof.
  intros Hrun.
  destruct (walk_appends nameToCode el st st' Hrun) as (Ho & Hs & Hc);
    [lia|].
  rewrite drop_0 in Hs. split_and!; [done..| |done].
  destruct Hs as [-> | ->]; by rewrite ?touch_length.
Qed.

(** X5: [walk] never throws the construct mismatch error of
    [closeConstruct], whatever the tree and the state it starts in: every
    [closeConstruct] it runs finds on top of the stack the construct that
    was opened with the same closing string. *)
Theorem walk_never_mismatches el st :
  match walk nameToCode el st with
  | inl e => ¬ IsMismatch e
  | inr st' =>
      close <$> _constructState st' = close <$> _constructState st
  end.
Proof.
  pose proof (walk_paired el st eq_refl) as H.
  destruct (walk nameToCode el st); [done|]. by rewrite drop_0 in H.
Qed.

(** X6: [reset()] after a walk that returned gives the walker back as it
    was when reset before the walk, provided the walk was not started
    inside a name class; for a walker made by the constructor this is the
    walker as it was made.  [reset()] does not assign [inNameClass]: the
    walk itself has set it to false again. *)
Theorem reset_after_walk el st st' :
  walk nameToCode el st = inr st' →
  inNameClass st = false →
  reset st' = reset st
  ∧ (∀ version includePaths verbose,
        new version includePaths verbose = inr st → reset st' = inr st).
Proof.
  intros Hrun Hin.
  assert (Hreset : reset st' = reset st).
  { destruct (walk_appends nameToCode el st st' Hrun)
      as (_ & _ & Hip & Hvb & Has); [lia|].
    unfold reset. destruct (walk_leaves el st st' Hrun) as [Hn | Hn];
      rewrite Hip, Hvb, Has, Hn, ?Hin; done. }
  split; [done|]. intros version ip vb Hnew. rewrite Hreset.
  unfold new in Hnew. destruct (negb _); [done|]. by injection Hnew as <-.
Qed.

End PairedWithCodes.
End WriterFacts.

(** * What the conversion walker writes for strings, values and names *)
Section WrittenItems.
Import Js Conversion DefaultConversionWalker Items.

(** ** String literals *)

Lemma dquote_not_control : isControl dquote = false.
Proof. reflexivity. Qed.



(** ** Items that follow the first item of a construct *)

Lemma outputStrings_inr items st st' o c rest :
  outputStrings items st = inr st' →
  _constructState st = mkConstruct o c false :: rest →
  _output st' = _output st ++ itemsText items
  ∧ _constructState st' = _constructState st.
Proof.
  revert st. induction items as [|item items IH]; intros st Hrun Hs.
  - injection Hrun as <-. by rewrite append_empty_r.
  - simpl in Hrun. apply andThen_inr in Hrun as (st1 & Hitem & Hrun).
    apply item_inr in Hitem as (_ & Ho & Hs1 & _).
    rewrite Hs in Ho, Hs1. simpl in Ho, Hs1.
    destruct (IH st1 Hrun Hs1) as (Ho' & Hs'). split; [|congruence].
    rewrite Ho', Ho. unfold itemsText. simpl.
    by rewrite !append_assoc.
Qed.

(** ** The arguments of [value] *)

Ltac value_case items :=
  exists items;
  solve [ split; [by subst|];
          split;
          [ intros [|a [|b [|c' [|d [|? ?]]]]] Hfill; simplify_eq/=;
            done || lia
          | intros st; simpl orb; cbv iota; simpl outputStrings;
            unfold andThen; repeat (case_match; try done) ] ].

Lemma value_items attributes text hasParams hasExcept length
    walkChildren walkFirst walkLast type library ns :
  mustGetAttribute attributes "type" = inr type →
  mustGetAttribute attributes "datatypeLibrary" = inr library →
  mustGetAttribute attributes "ns" = inr ns →
  ∃ items,
    fillValue items = Some (text, type, library, ns)
    ∧ (∀ items', fillValue items' = Some (text, type, library, ns) →
                 (List.length items ≤ List.length items')%nat)
    ∧ ∀ st, walkArguments "value" attributes text hasParams hasExcept length
              walkChildren walkFirst walkLast st
            = outputStrings items st.
Proof.
  intros Ht Hl Hn. unfold walkArguments.
  rewrite (bool_decide_eq_false_2 ("value" = "ref")) by done.
  rewrite (bool_decide_eq_false_2 ("value" = "define")) by done.
  rewrite (bool_decide_eq_true_2 ("value" = "value")) by done.
  rewrite Ht, Hl, Hn. unfold withValue.
  repeat case_bool_decide;
    first [ value_case [text] | value_case [text; type]
          | value_case [text; type; library]
          | value_case [text; type; library; ns] ].
Qed.

Section ItemsWithCodes.
Variable nameToCode : string → option Z.

(** The run of [walk] on an element that is written as an array: the
    state in which the arguments are written, and the state after them. *)
Lemma node_array_run elName path attributes children st st' :
  elName ≠ "start" → elName ≠ "param" → elName ≠ "grammar" →
  capitalize elName ≠ "Except" →
  walk nameToCode (Element elName path attributes children) st = inr st' →
  ∃ code st3 st4,
    let name := constructorName (inNameClass st) elName in
    nameToCode name = Some code
    ∧ _output st3
      = _output st ++ separator (_constructState st)
        ++ "[" ++ headText st name code path
    ∧ _constructState st3
      = mkConstruct "[" "]" false :: touch (_constructState st)
    ∧ walkArguments elName attributes
        (nodeText (Element elName path attributes children))
        (isNamed "param" (head children))
        (isNamed "except" (List.last (Some <$> children) None))
        (List.length children)
        (walkChildren (walk nameToCode) children)
        (walkFirst (walk nameToCode) children)
        (walkLast (walk nameToCode) children) st3 = inr st4
    ∧ _output st' = _output st4 ++ "]".
Proof.
  intros Hstart Hparam Hgrammar Hexcept Hrun.
  change (walk nameToCode (Element elName path attributes children))
    with (walkElement nameToCode elName path attributes
            (nodeText (Element elName path attributes children))
            (nodeText <$> head children)
            (isNamed "param" (head children))
            (isNamed "except" (List.last (Some <$> children) None))
            (List.length children)
            (walkChildren (walk nameToCode) children)
            (walkFirst (walk nameToCode) children)
            (walkLast (walk nameToCode) children)) in Hrun.
  unfold walkElement in Hrun.
  rewrite !bool_decide_eq_false_2 in Hrun by done.
  unfold withState in Hrun. cbv zeta in Hrun.
  set (name := constructorName (inNameClass st) elName) in *.
  apply andThen_inr in Hrun as (st1 & Hitem & Hrun).
  assert (Hitem' : (newItem ;; emit "") st = inr st1).
  { apply andThen_inr. exists st1. split; [done|].
    unfold emit. rewrite append_empty_r. by destruct st1. }
  apply item_inr in Hitem' as (Hne & Ho1 & Hs1 & Hc1).
  rewrite append_empty_r in Ho1.
  unfold withValue in Hrun.
  destruct (lookupCode nameToCode name) as [e|code] eqn:Hcode; [done|].
  apply lookupCode_inr in Hcode.
  apply andThen_inr in Hrun as (st2 & Hopen & Hrun).
  injection Hopen as <-.
  apply andThen_inr in Hrun as (st3 & Hhead & Hrun).
  eapply outputHead_inr in Hhead as (Ho3 & Hs3 & Hc3); [|reflexivity].
  apply andThen_inr in Hrun as (st4 & Hargs & Hclose).
  destruct (walkArguments_appends _ _ _ _ _ _ _ _ _
              (λ s e, walkChildren_appends _ _ s e
                        (children_append nameToCode children))
              (walkFirst_appends _ _ (children_append nameToCode children))
              (walkLast_appends _ _ (children_append nameToCode children))
              st3 st4 Hargs) as (_ & Hs4 & _); [lia|].
  rewrite drop_0, Hs3 in Hs4.
  assert (∃ top, _constructState st4 = top :: _constructState st1)
    as [top Hs4'] by (destruct Hs4 as [-> | ->]; eauto).
  eapply closeConstruct_inr in Hclose as (Ho5 & _ & _); [|exact Hs4'].
  exists code, st3, st4. split_and!; [done| |by rewrite Hs3, Hs1|done..].
  rewrite Ho3. simpl. rewrite Ho1. unfold headText. simpl.
  destruct Hc1 as (-> & -> & _). by rewrite !append_assoc.
Qed.

(** X8: the array written for a [value] element holds, after the
    constructor entry and the path, the text of the element and then as
    few of the type, the datatype library and the namespace as the table
    of defaults allows: filling the defaults in gives the four back, and
    no shorter list of items does. *)
Theorem value_is_written_shortest path attributes children st st' :
  let el := Element "value" path attributes children in
  walk nameToCode el st = inr st' →
  ∃ code type library ns items,
    nameToCode "Value" = Some code
    ∧ mustGetAttribute attributes "type" = inr type
    ∧ mustGetAttribute attributes "datatypeLibrary" = inr library
    ∧ mustGetAttribute attributes "ns" = inr ns
    ∧ _output st'
      = _output st ++ separator (_constructState st)
        ++ "[" ++ headText st "Value" code path ++ itemsText items ++ "]"
    ∧ fillValue items = Some (nodeText el, type, library, ns)
    ∧ (∀ items',
          fillValue items' = Some (nodeText el, type, library, ns) →
          (List.length items ≤ List.length items')%nat).
Proof.
  intros el Hrun.
  apply node_array_run in Hrun
      as (code & st3 & st4 & Hcode & Ho3 & Hs3 & Hargs & Ho'); [|done..].
  assert (Hname : constructorName (inNameClass st) "value" = "Value")
    by (by destruct (inNameClass st)).
  simpl in Hcode, Ho3. rewrite Hname in Hcode, Ho3.
  assert (∃ type library ns,
             mustGetAttribute attributes "type" = inr type
             ∧ mustGetAttribute attributes "datatypeLibrary" = inr library
             ∧ mustGetAttribute attributes "ns" = inr ns)
    as (type & library & ns & Ht & Hl & Hn).
  { unfold walkArguments in Hargs.
    rewrite (bool_decide_eq_false_2 ("value" = "ref")) in Hargs by done.
    rewrite (bool_decide_eq_false_2 ("value" = "define")) in Hargs by done.
    rewrite (bool_decide_eq_true_2 ("value" = "value")) in Hargs by done.
    apply andThen_inr in Hargs as (st0 & _ & Hargs).
    unfold withValue in Hargs.
    destruct (mustGetAttribute attributes "type"); [done|].
    destruct (mustGetAttribute attributes "datatypeLibrary"); [done|].
    destruct (mustGetAttribute attributes "ns"); [done|].
    by eexists _, _, _. }
  destruct (value_items attributes (nodeText el)
              (isNamed "param" (head children))
              (isNamed "except" (List.last (Some <$> children) None))
              (List.length children)
              (walkChildren (walk nameToCode) children)
              (walkFirst (walk nameToCode) children)
              (walkLast (walk nameToCode) children)
              type library ns Ht Hl Hn) as (items & Hfill & Hmin & Heq).
  rewrite Heq in Hargs.
  eapply outputStrings_inr in Hargs as (Ho4 & _); [|exact Hs3].
  exists code, type, library, ns, items. split_and!; try done.
  rewrite Ho', Ho4, Ho3. by rewrite !append_assoc.
Qed.

End ItemsWithCodes.

(** ** Names that are numbers *)

Lemma pretty_N_char_digit d :
  (d < 10)%N →
  isDigit (pretty_N_char d) = true
  ∧ Z.of_nat (Ascii.nat_of_ascii (pretty_N_char d) - 48) = Z.of_N d.
Proof.
  intros Hd.
  assert (d = 0 ∨ d = 1 ∨ d = 2 ∨ d = 3 ∨ d = 4 ∨ d = 5 ∨ d = 6 ∨ d = 7
          ∨ d = 8 ∨ d = 9)%N as Hcases by lia.
  repeat (destruct Hcases as [-> | Hcases]); try subst d; by vm_compute.
Qed.

Lemma pretty_N_go_digits x s :
  allDigits s = true → allDigits (pretty_N_go x s) = true.
Proof.
  revert s. induction (N.lt_wf_0 x) as [x _ IH]; intros s Hs.
  assert (x = 0 ∨ 0 < x)%N as [-> | Hx] by lia; [done|].
  rewrite pretty_N_go_step by done. apply IH; [by apply N.div_lt|].
  simpl. rewrite Hs.
  by destruct (pretty_N_char_digit (x `mod` 10)%N) as [-> _];
    [apply N.mod_lt|].
Qed.

Lemma pretty_N_go_nonempty x s : s ≠ "" → pretty_N_go x s ≠ "".
Proof.
  revert s. induction (N.lt_wf_0 x) as [x _ IH]; intros s Hs.
  assert (x = 0 ∨ 0 < x)%N as [-> | Hx] by lia; [done|].
  rewrite pretty_N_go_step by done. apply IH; [by apply N.div_lt | done].
Qed.

Lemma pretty_N_go_parse x s :
  parseDigits (pretty_N_go x s) 0 = parseDigits s (Z.of_N x).
Proof.
  revert s. induction (N.lt_wf_0 x) as [x _ IH]; intros s.
  assert (x = 0 ∨ 0 < x)%N as [-> | Hx] by lia; [done|].
  rewrite pretty_N_go_step by done. rewrite IH by (by apply N.div_lt).
  simpl parseDigits.
  destruct (pretty_N_char_digit (x `mod` 10)%N) as [_ ->];
    [by apply N.mod_lt|].
  f_equal. rewrite (N.div_mod x 10) at 3 by done. lia.
Qed.

Lemma pretty_N_numeric (n : N) :
  isNumeric (pretty n) = true ∧ parseInt (pretty n) = Z.of_N n.
Proof.
  unfold pretty, pretty_N. destruct (decide (n = 0%N)) as [-> | Hn]; [done|].
  unfold isNumeric, parseInt. split.
  - apply andb_true_intro. split.
    + apply negb_true_iff, bool_decide_eq_false_2.
      rewrite pretty_N_go_step by lia. by apply pretty_N_go_nonempty.
    + by apply pretty_N_go_digits.
  - by rewrite pretty_N_go_parse.
Qed.

Lemma pretty_Z_of_N (n : N) : pretty (Z.of_N n) = pretty n.
Proof. by destruct n. Qed.

(** X9: a name that is the decimal numeral of a number (up to 2^53, where
    [parseInt] is exact) is written by [outputName] as that numeral,
    without quotes: [outputName] does what [outputItem] does with the
    number, whose text is the name. *)
Theorem numeral_name_is_written_bare (n : N) :
  (n ≤ 2 ^ 53)%N →
  outputName (pretty n) = outputItem (Num (Z.of_N n))
  ∧ itemText (Num (Z.of_N n)) = pretty n.
Proof.
  intros _. destruct (pretty_N_numeric n) as [Hnum Hparse].
  unfold outputName. rewrite Hnum, Hparse. split; [done|].
  apply pretty_Z_of_N.
Qed.

(** X10: zeros in front of a numeral are lost: the name made of a zero and
    the numeral of [n] is written as the numeral of [n], so two different
    names are written alike. *)
Theorem leading_zero_is_dropped (n : N) :
  (n ≤ 2 ^ 53)%N →
  String "0" (pretty n) ≠ pretty n
  ∧ outputName (String "0" (pretty n)) = outputName (pretty n).
Proof.
  intros _. destruct (pretty_N_numeric n) as [Hnum Hparse]. split.
  - intros Heq. apply (f_equal String.length) in Heq. simpl in Heq. lia.
  - unfold outputName. rewrite Hnum.
    assert (isNumeric (String "0" (pretty n)) = true) as ->.
    { unfold isNumeric in *. simpl.
      apply andb_prop in Hnum as [_ ->]. done. }
    reflexivity.
Qed.

End WrittenItems.

(** * Renaming the names of [ref] and [define] *)
Section RenamingFacts.
Import Js Conversion Renaming.

(** ** Objects used as maps *)

Lemma getOwn_cons {V : Type} (o : list (string * V)) k' v' k :
  getOwn ((k', v') :: o) k = if bool_decide (k' = k) then Some v' else getOwn o k.
Proof. unfold getOwn. simpl. by destruct (bool_decide (k' = k)). Qed.

Lemma getOwn_setOwn {V : Type} (o : list (string * V)) key v k :
  getOwn (setOwn o key v) k
  = if bool_decide (k = key) then Some v else getOwn o k.
Proof.
  induction o as [|[k' v'] o IH]; cbn [setOwn].
  - rewrite getOwn_cons.
    destruct (decide (k = key)) as [-> | Hne].
    + by rewrite !bool_decide_eq_true_2.
    + by rewrite !bool_decide_eq_false_2.
  - destruct (decide (k' = key)) as [-> | Hk'].
    + rewrite (bool_decide_eq_true_2 (key = key)) by done.
      rewrite !getOwn_cons.
      destruct (decide (k = key)) as [-> | Hne].
      * by rewrite !bool_decide_eq_true_2.
      * by rewrite !bool_decide_eq_false_2.
    + rewrite (bool_decide_eq_false_2 (k' = key)) by done.
      rewrite !getOwn_cons, IH.
      destruct (decide (k' = k)) as [-> | Hne].
      * by rewrite bool_decide_eq_true_2, bool_decide_eq_false_2.
      * by rewrite (bool_decide_eq_false_2 (k' = k)).
Qed.

Lemma getOwn_is_Some {V : Type} (o : list (string * V)) k :
  is_Some (getOwn o k) ↔ k ∈ o.*1.
Proof.
  induction o as [|[k' v'] o IH].
  - split; [by intros [? ?] | by intros ?%elem_of_nil].
  - rewrite getOwn_cons, fmap_cons, elem_of_cons. cbn [fst].
    destruct (decide (k' = k)) as [-> | Hne].
    + rewrite bool_decide_eq_true_2 by done. split; [by left | by eauto].
    + rewrite bool_decide_eq_false_2 by done. rewrite IH.
      split; [by right | by intros [-> | ?]].
Qed.

Lemma getOwn_None {V : Type} (o : list (string * V)) k :
  getOwn o k = None ↔ k ∉ o.*1.
Proof. rewrite <-getOwn_is_Some, eq_None_not_Some. done. Qed.

Lemma setOwn_keys {V : Type} (o : list (string * V)) key v :
  (setOwn o key v).*1 = if has o key then o.*1 else (o.*1 ++ [key])%list.
Proof.
  unfold has. induction o as [|[k' v'] o IH].
  - rewrite bool_decide_eq_false_2; [reflexivity|].
    intros H. by apply elem_of_nil in H.
  - cbn [setOwn]. destruct (decide (k' = key)) as [-> | Hk'].
    + rewrite (bool_decide_eq_true_2 (key = key)) by done.
      rewrite bool_decide_eq_true_2; [done | apply list_elem_of_here].
    + rewrite (bool_decide_eq_false_2 (k' = key)) by done.
      rewrite !fmap_cons, IH. cbn [fst].
      destruct (decide (key ∈ o.*1)) as [Hin|Hin].
      * rewrite !bool_decide_eq_true_2;
          [done | by apply list_elem_of_further | done].
      * rewrite !bool_decide_eq_false_2; [done| |done].
        rewrite elem_of_cons. intros [? | ?]; by subst.
Qed.

(** ** [NameGatherer] *)

Lemma countName_gathered names name :
  Gathered names (countName names name) [name].
Proof.
  intros Hnd. unfold countName.
  set (names1 := if has names name then names else setOwn names name 0%nat).
  assert (H1 : NoDup names1.*1
               ∧ (∀ k, k ∈ names1.*1 ↔ k ∈ names.*1 ∨ k = name)
               ∧ ∀ k, default 0%nat (getOwn names1 k)
                      = default 0%nat (getOwn names k)).
  { subst names1. unfold has.
    destruct (decide (name ∈ names.*1)) as [Hin|Hin].
    - rewrite bool_decide_eq_true_2 by done. split_and!; [done| |done].
      intros k. split; [by left | by intros [?| ->]].
    - rewrite bool_decide_eq_false_2 by done.
      assert (Hk : (setOwn names name 0%nat).*1 = (names.*1 ++ [name])%list).
      { rewrite setOwn_keys. unfold has.
        by rewrite bool_decide_eq_false_2. }
      split_and!.
      + rewrite Hk. apply NoDup_app. split_and!; [done| |apply NoDup_singleton].
        intros x Hx Hx'. apply list_elem_of_singleton in Hx'. by subst.
      + intros k. by rewrite Hk, elem_of_app, list_elem_of_singleton.
      + intros k. rewrite getOwn_setOwn.
        destruct (decide (k = name)) as [-> | Hne].
        * rewrite bool_decide_eq_true_2 by done.
          apply getOwn_None in Hin. by rewrite Hin.
        * by rewrite bool_decide_eq_false_2. }
  clearbody names1. destruct H1 as (Hnd1 & Hkeys & Hget).
  destruct (getOwn names1 name) as [n|] eqn:Hn.
  - assert (Hhas : has names1 name = true).
    { apply bool_decide_eq_true_2, getOwn_is_Some. by rewrite Hn. }
    split_and!.
    + by rewrite setOwn_keys, Hhas.
    + intros k. rewrite setOwn_keys, Hhas, Hkeys.
      by rewrite list_elem_of_singleton.
    + intros k. rewrite getOwn_setOwn, <-Hget.
      rewrite filter_cons, filter_nil.
      destruct (decide (k = name)) as [-> | Hne].
      * rewrite bool_decide_eq_true_2 by done. rewrite Hn.
        rewrite decide_True by done. simpl. lia.
      * rewrite bool_decide_eq_false_2 by done.
        rewrite decide_False by done. simpl. lia.
  - exfalso. apply getOwn_None in Hn. apply Hn, Hkeys. by right.
Qed.

Lemma gathered_nil names : Gathered names names [].
Proof. intros Hnd. split_and!; [done|..]; intros k.
  - rewrite elem_of_nil. tauto.
  - rewrite filter_nil. simpl. lia.
Qed.

Lemma gathered_trans names1 names2 names3 l1 l2 l :
  Gathered names1 names2 l1 → Gathered names2 names3 l2 →
  l ≡ₚ (l1 ++ l2)%list → Gathered names1 names3 l.
Proof.
  intros H1 H2 Hl Hnd.
  destruct (H1 Hnd) as (Hnd2 & Hk2 & Hf2).
  destruct (H2 Hnd2) as (Hnd3 & Hk3 & Hf3).
  split_and!; [done|..]; intros k.
  - rewrite Hk3, Hk2, Hl, elem_of_app. tauto.
  - rewrite Hf3, Hf2, Hl, filter_app, length_app. lia.
Qed.

Lemma eachElement_gathered children names names' :
  Forall (λ child, ∀ names names',
            gather child names = inr names' →
            Gathered names names' (refNames child)) children →
  eachElement gather children names = inr names' →
  Gathered names names' (flat_map refNames children).
Proof.
  intros Hall. revert names.
  induction Hall as [|child rest Hchild _ IH]; intros names Hrun.
  - injection Hrun as <-. apply gathered_nil.
  - simpl in Hrun. destruct child as [local path attributes children|text].
    + destruct (gather _ names) as [e|names1] eqn:Hg; [done|].
      eapply gathered_trans; [by apply Hchild | by apply IH | done].
    + simpl. by apply IH.
Qed.

Lemma gather_gathered tree names names' :
  gather tree names = inr names' →
  Gathered names names' (refNames tree).
Proof.
  revert names names'.
  induction tree as [text | local path attributes children IH]
    using Node_ind'; intros names names' Hrun; [done|].
  simpl in Hrun.
  destruct (eachElement gather children names) as [e|names1] eqn:Hc; [done|].
  apply eachElement_gathered in Hc; [|done].
  simpl. destruct (isRefOrDefine local).
  - destruct (mustGetAttribute attributes "name") as [e|name]; [done|].
    injection Hrun as <-.
    eapply gathered_trans; [exact Hc | apply countName_gathered|].
    apply Permutation_app_comm.
  - injection Hrun as <-. by rewrite app_nil_l.
Qed.


(** ** [Object.keys] and the sort *)

Lemma insertIndex_perm k l : insertIndex k l ≡ₚ k :: l.
Proof.
  induction l as [|k' l IH]; [done|]. cbn [insertIndex].
  destruct (_ <? _)%Z; [done|]. rewrite IH. apply Permutation_swap.
Qed.

Lemma ownKeys_perm {V : Type} (o : list (string * V)) : ownKeys o ≡ₚ o.*1.
Proof.
  unfold ownKeys.
  assert (Hsort : ∀ l, foldr insertIndex [] l ≡ₚ l).
  { induction l as [|k l IH]; [done|]. simpl.
    by rewrite insertIndex_perm, IH. }
  rewrite Hsort. apply filter_app_complement.
Qed.

Lemma insertEntry_perm a l : insertEntry a l ≡ₚ a :: l.
Proof.
  induction l as [|b l IH]; [done|]. cbn [insertEntry].
  destruct (_ <=? _)%nat; [done|]. rewrite IH. apply Permutation_swap.
Qed.

Lemma sort_perm l : sort l ≡ₚ l.
Proof.
  induction l as [|a l IH]; [done|]. unfold sort in *. simpl.
  by rewrite insertEntry_perm, IH.
Qed.

Lemma insertEntry_descending a l :
  Descending l → Descending (insertEntry a l).
Proof.
  induction l as [|b l IH]; intros Hl; [by split|].
  destruct Hl as [Hall Hl]. cbn [insertEntry].
  destruct (freq b <=? freq a)%nat eqn:Hle.
  - apply Nat.leb_le in Hle. split; [|by split].
    constructor; [done|]. eapply Forall_impl; [exact Hall|].
    simpl. intros c Hc. lia.
  - apply Nat.leb_gt in Hle. split; [|by apply IH].
    rewrite insertEntry_perm. constructor; [lia | done].
Qed.

Lemma sort_descending l : Descending (sort l).
Proof.
  induction l as [|a l IH]; [done|]. by apply insertEntry_descending.
Qed.

Lemma descending_lookup l i j x y :
  Descending l → l !! i = Some x → l !! j = Some y → (i < j)%nat →
  (freq y ≤ freq x)%nat.
Proof.
  revert i j. induction l as [|a l IH]; intros i j Hl Hi Hj Hlt.
  - by rewrite lookup_nil in Hi.
  - destruct Hl as [Hall Hl]. destruct i as [|i], j as [|j]; try lia.
    + injection Hi as ->. simpl in Hj.
      eapply Forall_forall in Hall; [exact Hall|].
      by eapply list_elem_of_lookup_2.
    + simpl in Hi, Hj. eapply IH; [done..|lia].
Qed.

(** ** Places in a list of keys *)

Lemma position_lookup k l i : position k l = Some i → l !! i = Some k.
Proof.
  revert i. induction l as [|k' l IH]; intros i Hp; [done|].
  cbn [position] in Hp. destruct (decide (k' = k)) as [-> | Hne].
  - rewrite bool_decide_eq_true_2 in Hp by done. by injection Hp as <-.
  - rewrite bool_decide_eq_false_2 in Hp by done.
    destruct (position k l) as [i'|]; [|done]. injection Hp as <-.
    by apply IH.
Qed.

Lemma position_elem k l : k ∈ l → is_Some (position k l).
Proof.
  induction l as [|k' l IH]; intros Hin; [by apply elem_of_nil in Hin|].
  cbn [position]. destruct (decide (k' = k)) as [-> | Hne].
  - rewrite bool_decide_eq_true_2 by done. eauto.
  - rewrite bool_decide_eq_false_2 by done.
    apply elem_of_cons in Hin as [-> | Hin]; [done|].
    destruct (IH Hin) as [i ->]. eauto.
Qed.

Lemma position_None k l : k ∉ l → position k l = None.
Proof.
  intros Hin. destruct (position k l) as [i|] eqn:Hp; [|done].
  apply position_lookup, list_elem_of_lookup_2 in Hp. done.
Qed.

Lemma position_of_lookup k l i :
  NoDup l → l !! i = Some k → position k l = Some i.
Proof.
  intros Hnd Hi.
  destruct (position_elem k l) as [j Hj]; [by eapply list_elem_of_lookup_2|].
  rewrite Hj. f_equal. apply position_lookup in Hj.
  by eapply NoDup_lookup.
Qed.

(** ** The new names *)

Lemma getOwn_assign o k v k' :
  k' ≠ "__proto__" →
  getOwn (assign o k v) k'
  = if bool_decide (k' = k) then Some v else getOwn o k'.
Proof.
  intros Hk'. unfold assign. destruct (decide (k = "__proto__")) as [-> | Hk].
  - rewrite bool_decide_eq_true_2 by done.
    by rewrite bool_decide_eq_false_2.
  - rewrite bool_decide_eq_false_2 by done. apply getOwn_setOwn.
Qed.

Lemma getOwn_assign_proto o k v :
  getOwn (assign o k v) "__proto__" = getOwn o "__proto__".
Proof.
  unfold assign. destruct (decide (k = "__proto__")) as [-> | Hk].
  - by rewrite bool_decide_eq_true_2.
  - rewrite bool_decide_eq_false_2 by done. rewrite getOwn_setOwn.
    by rewrite bool_decide_eq_false_2.
Qed.

Lemma assignIds_cons e rest o id :
  assignIds (e :: rest) o id
  = assignIds rest (assign o (key e) (pretty id)) (N.succ id).
Proof. reflexivity. Qed.

Lemma assignIds_getOwn sorted o id k :
  k ≠ "__proto__" → NoDup (key <$> sorted) →
  getOwn (assignIds sorted o id).1 k
  = match position k (key <$> sorted) with
    | Some i => Some (pretty (id + N.of_nat i)%N)
    | None => getOwn o k
    end.
Proof.
  intros Hk. revert o id.
  induction sorted as [|e rest IH]; intros o id Hnd; [done|].
  rewrite fmap_cons in Hnd. apply NoDup_cons in Hnd as [Hnotin Hnd].
  rewrite assignIds_cons, IH by done. rewrite fmap_cons. cbn [position].
  destruct (decide (key e = k)) as [<- | Hne].
  - rewrite bool_decide_eq_true_2 by done.
    rewrite position_None by done. rewrite getOwn_assign by done.
    rewrite bool_decide_eq_true_2 by done. do 2 f_equal. lia.
  - rewrite bool_decide_eq_false_2 by done.
    destruct (position k (key <$> rest)) as [i|]; simpl.
    + do 2 f_equal. lia.
    + rewrite getOwn_assign by done. by rewrite bool_decide_eq_false_2.
Qed.

Lemma assignIds_proto sorted o id :
  getOwn (assignIds sorted o id).1 "__proto__" = getOwn o "__proto__".
Proof.
  revert o id. induction sorted as [|e rest IH]; intros o id; [done|].
  by rewrite assignIds_cons, IH, getOwn_assign_proto.
Qed.

Lemma lookup_newNames sorted name :
  NoDup (key <$> sorted) → name ∈ key <$> sorted →
  lookup (assignIds sorted [] 1%N).1 name = numbered (number sorted) name.
Proof.
  intros Hnd Hin. unfold numbered.
  destruct (decide (name = "__proto__")) as [-> | Hne].
  - rewrite bool_decide_eq_true_2 by done.
    unfold lookup. by rewrite assignIds_proto.
  - rewrite bool_decide_eq_false_2 by done. unfold lookup, number.
    rewrite assignIds_getOwn by done.
    destruct (position_elem _ _ Hin) as [i ->]. do 2 f_equal. lia.
Qed.

(** ** [Renamer] *)

Lemma eachChild_cons walk child rest :
  eachChild walk (child :: rest)
  = match match child with
          | Element _ _ _ _ => walk child
          | Text s => inr (TText s)
          end with
    | inr child' =>
        match eachChild walk rest with
        | inr rest' => inr (child' :: rest')
        | inl e => inl e
        end
    | inl e => inl e
    end.
Proof. reflexivity. Qed.

Lemma eachChild_mapNames newNames children names names' :
  Forall (λ child, ∀ names names',
            gather child names = inr names' →
            rename newNames child = inr (mapNames (lookup newNames) child))
         children →
  eachElement gather children names = inr names' →
  eachChild (rename newNames) children
  = inr (mapNames (lookup newNames) <$> children).
Proof.
  intros Hall. revert names.
  induction Hall as [|child rest Hchild _ IH]; intros names Hrun; [done|].
  rewrite eachChild_cons. simpl in Hrun.
  destruct child as [local path attributes children|text].
  - destruct (gather _ names) as [e|names1] eqn:Hg; [done|].
    by rewrite (Hchild _ _ Hg), (IH _ Hrun).
  - by rewrite (IH _ Hrun).
Qed.

(** On a tree whose names could be gathered the renamer returns, and has
    set every name of a [define] or [ref] to what the object gives for
    it. *)
Lemma rename_mapNames newNames tree names names' :
  gather tree names = inr names' →
  rename newNames tree = inr (mapNames (lookup newNames) tree).
Proof.
  revert names names'.
  induction tree as [text | local path attributes children IH]
    using Node_ind'; intros names names' Hrun; [done|].
  simpl in Hrun.
  destruct (eachElement gather children names) as [e|names1] eqn:Hc; [done|].
  cbn [rename mapNames].
  rewrite (eachChild_mapNames _ _ _ _ IH Hc).
  destruct (isRefOrDefine local); [|done].
  by destruct (mustGetAttribute attributes "name") as [e|name].
Qed.

Lemma mapNames_ext f g tree :
  (∀ name, name ∈ refNames tree → f name = g name) →
  mapNames f tree = mapNames g tree.
Proof.
  induction tree as [text | local path attributes children IH]
    using Node_ind'; intros Hfg; [done|].
  cbn [mapNames refNames] in *. f_equal.
  - destruct (isRefOrDefine local); [|done].
    destruct (mustGetAttribute attributes "name") as [e|name]; [done|].
    rewrite Hfg; [done|]. apply elem_of_app. left. apply list_elem_of_here.
  - assert (Hc : ∀ name, name ∈ flat_map refNames children →
                         f name = g name).
    { intros name Hin. apply Hfg, elem_of_app. by right. }
    clear Hfg. induction IH as [|child rest Hchild _ IHrest]; [done|].
    cbn [flat_map] in Hc. rewrite !fmap_cons. f_equal.
    + apply Hchild. intros name Hin. apply Hc, elem_of_app. by left.
    + apply IHrest. intros name Hin. apply Hc, elem_of_app. by right.
Qed.

Lemma find_values attributes name :
  List.find (λ a, bool_decide (a.1 = name)) (values attributes)
  = (λ a, (a.1, StringValue a.2))
    <$> List.find (λ a, bool_decide (a.1 = name)) attributes.
Proof.
  induction attributes as [|[k v] attributes IH]; [done|].
  simpl. by destruct (bool_decide (k = name)).
Qed.

Lemma getAttribute_setAttribute attributes name value :
  getAttribute (setAttribute attributes name value) name = Some value.
Proof.
  unfold getAttribute.
  induction attributes as [|[k v] attributes IH]; cbn [setAttribute].
  - simpl. by rewrite bool_decide_eq_true_2.
  - destruct (decide (k = name)) as [-> | Hne].
    + rewrite (bool_decide_eq_true_2 (name = name)) by done. simpl.
      by rewrite bool_decide_eq_true_2.
    + rewrite (bool_decide_eq_false_2 (k = name)) by done. simpl.
      by rewrite bool_decide_eq_false_2.
Qed.

Lemma nameValues_mapNames f tree :
  nameValues (mapNames f tree) = f <$> refNames tree.
Proof.
  induction tree as [text | local path attributes children IH]
    using Node_ind'; [done|].
  cbn [mapNames refNames nameValues]. rewrite fmap_app. f_equal.
  - destruct (isRefOrDefine local); [|done].
    destruct (mustGetAttribute attributes "name") as [e|name] eqn:Hname.
    + unfold getAttribute. rewrite find_values.
      unfold mustGetAttribute in Hname.
      by destruct (List.find _ attributes).
    + by rewrite getAttribute_setAttribute.
  - induction IH as [|child rest Hchild _ IHrest]; [done|].
    rewrite fmap_cons. cbn [flat_map]. by rewrite fmap_app, Hchild, IHrest.
Qed.

(** ** [renameRefsDefines] *)

Lemma entries_keys names : key <$> entries names = ownKeys names.
Proof.
  unfold entries. rewrite <-list_fmap_compose.
  rewrite <-(list_fmap_id (ownKeys names)) at 2. by apply list_fmap_ext.
Qed.

Lemma renameRefsDefines_outcome tree names :
  gather tree [] = inr names →
  let sorted := sort (entries names) in
  NoDup (key <$> sorted)
  ∧ (∀ k, k ∈ key <$> sorted ↔ k ∈ refNames tree)
  ∧ List.length sorted = List.length (remove_dups (refNames tree))
  ∧ Descending sorted
  ∧ (∀ e, e ∈ sorted → freq e = occurrences (key e) tree)
  ∧ renameRefsDefines tree
    = inr (mapNames (numbered (number sorted)) tree).
Proof.
  intros Hg sorted.
  destruct (gather_gathered _ _ _ Hg (NoDup_nil_2)) as (Hnd & Hkeys & Hfreq).
  assert (Hperm : key <$> sorted ≡ₚ names.*1).
  { subst sorted. by rewrite sort_perm, entries_keys, ownKeys_perm. }
  assert (Hk : ∀ k, k ∈ key <$> sorted ↔ k ∈ refNames tree).
  { intros k. rewrite Hperm, Hkeys. rewrite elem_of_nil. tauto. }
  assert (Hnd' : NoDup (key <$> sorted)) by (by rewrite Hperm).
  split_and!; [done|done| |apply sort_descending| |].
  - rewrite <-(length_fmap key). apply Permutation_length.
    apply NoDup_Permutation; [done|apply NoDup_remove_dups|].
    intros k. by rewrite Hk, elem_of_remove_dups.
  - intros e He. subst sorted. rewrite sort_perm in He.
    unfold entries in He. apply list_elem_of_fmap in He as (k & -> & _).
    simpl. rewrite Hfreq. done.
  - unfold renameRefsDefines. rewrite Hg. cbv zeta. fold sorted.
    rewrite (rename_mapNames _ _ _ _ Hg). f_equal.
    apply mapNames_ext. intros name Hin.
    apply lookup_newNames; [done | by apply Hk].
Qed.

(** What the numbers of the names are, whenever the call returns. *)
Lemma renameRefsDefines_inr tree tree' :
  renameRefsDefines tree = inr tree' →
  ∃ sorted,
    NoDup (key <$> sorted)
    ∧ (∀ k, k ∈ key <$> sorted ↔ k ∈ refNames tree)
    ∧ List.length sorted = List.length (remove_dups (refNames tree))
    ∧ Descending sorted
    ∧ (∀ e, e ∈ sorted → freq e = occurrences (key e) tree)
    ∧ tree' = mapNames (numbered (number sorted)) tree
    ∧ (∀ a, a ∈ refNames tree →
            ∃ i, position a (key <$> sorted) = Some i
                 ∧ (i < List.length sorted)%nat
                 ∧ number sorted a = N.of_nat (S i)).
Proof.
  intros Hrun.
  destruct (gather tree []) as [e|names] eqn:Hg;
    [by unfold renameRefsDefines in Hrun; rewrite Hg in Hrun|].
  destruct (renameRefsDefines_outcome tree names Hg)
    as (Hnd & Hk & Hlen & Hdesc & Hfreq & Hout).
  rewrite Hout in Hrun. injection Hrun as <-.
  exists (sort (entries names)). split_and!; try done.
  intros a Ha. apply Hk in Ha.
  destruct (position_elem _ _ Ha) as [i Hi]. exists i.
  split_and!; [done| |by unfold number; rewrite Hi].
  apply position_lookup, lookup_lt_Some in Hi.
  by rewrite length_fmap in Hi.
Qed.

(** X11: after [NameGatherer] has walked a tree, [names] has one key for
    every name that a [define] or a [ref] of the tree has, and no other,
    and the number under a key is the number of [define] and [ref]
    elements that have this name. *)
Theorem gatherer_counts_the_names tree names :
  gather tree [] = inr names →
  NoDup names.*1
  ∧ (∀ name, has names name = true ↔ name ∈ refNames tree)
  ∧ (∀ name, default 0%nat (getOwn names name) = occurrences name tree).
Proof.
  intros Hg.
  destruct (gather_gathered _ _ _ Hg (NoDup_nil_2)) as (Hnd & Hkeys & Hfreq).
  split_and!; [done|..]; intros name.
  - unfold has. rewrite bool_decide_eq_true, Hkeys, elem_of_nil. tauto.
  - by rewrite Hfreq.
Qed.

(** X12: whenever [renameRefsDefines] returns, the tree is as it was but
    for the [name] attributes of the [define] and [ref] elements.  Every
    name has a number: the numbers are 1, 2, ... up to the number of
    different names, different names have different numbers and every
    number is that of a name.  The attribute of an element is set to the
    numeral of the number of its name, except that for the name
    [__proto__] it is set to what [Object.prototype] has under this key
    (the number of this name is then the numeral of no name).  Elements
    with the same name get the same value and elements with different
    names different values, so every [ref] still names its [define]. *)
Theorem renaming_numbers_the_names tree tree' :
  renameRefsDefines tree = inr tree' →
  ∃ id : string → N,
    let n := N.of_nat (List.length (remove_dups (refNames tree))) in
    tree' = mapNames (numbered id) tree
    ∧ (∀ a b, a ∈ refNames tree → b ∈ refNames tree → id a = id b → a = b)
    ∧ (∀ a b, a ∈ refNames tree → b ∈ refNames tree →
              numbered id a = numbered id b → a = b)
    ∧ (∀ a, a ∈ refNames tree → (1 ≤ id a ≤ n)%N)
    ∧ (∀ k : N, (1 ≤ k ≤ n)%N → ∃ a, a ∈ refNames tree ∧ id a = k).
Proof.
  intros Hrun.
  destruct (renameRefsDefines_inr tree tree' Hrun)
    as (sorted & Hnd & Hk & Hlen & _ & _ & -> & Hpos).
  assert (Hinj : ∀ a b, a ∈ refNames tree → b ∈ refNames tree →
                        number sorted a = number sorted b → a = b).
  { intros a b Ha Hb Heq.
    destruct (Hpos a Ha) as (i & Hi & _ & Hia).
    destruct (Hpos b Hb) as (j & Hj & _ & Hjb).
    rewrite Hia, Hjb in Heq. assert (i = j) as -> by lia.
    apply position_lookup in Hi, Hj. congruence. }
  exists (number sorted). split_and!; [done|exact Hinj|..].
  - intros a b Ha Hb Heq. unfold numbered in Heq.
    destruct (decide (a = "__proto__")) as [-> | Hna],
             (decide (b = "__proto__")) as [-> | Hnb]; [done|..].
    + by rewrite bool_decide_eq_true_2, bool_decide_eq_false_2 in Heq.
    + by rewrite bool_decide_eq_false_2, bool_decide_eq_true_2 in Heq.
    + rewrite !bool_decide_eq_false_2 in Heq by done.
      injection Heq as Heq. apply (inj pretty) in Heq. by apply Hinj.
  - intros a Ha. destruct (Hpos a Ha) as (i & _ & Hlt & ->). lia.
  - intros k Hk'.
    destruct (lookup_lt_is_Some_2 (key <$> sorted) (N.to_nat k - 1))
      as [a Ha]; [rewrite length_fmap; lia|].
    exists a. split; [by eapply Hk, list_elem_of_lookup_2|].
    unfold number. rewrite (position_of_lookup _ _ _ Hnd Ha). lia.
Qed.

(** X13: the new names follow the frequencies: of two names, the one that
    more [define] and [ref] elements have gets the numeral of the smaller
    number. *)
Theorem frequent_names_get_small_numbers tree tree' :
  renameRefsDefines tree = inr tree' →
  ∃ newName : string → Value,
    tree' = mapNames newName tree
    ∧ ∀ a b (ida idb : N),
        a ∈ refNames tree → b ∈ refNames tree →
        newName a = StringValue (pretty ida) →
        newName b = StringValue (pretty idb) →
        (occurrences b tree < occurrences a tree)%nat →
        (ida < idb)%N.
Proof.
  intros Hrun.
  destruct (renameRefsDefines_inr tree tree' Hrun)
    as (sorted & Hnd & Hk & _ & Hdesc & Hfreq & -> & Hpos).
  exists (numbered (number sorted)). split; [done|].
  intros a b ida idb Ha Hb Hia Hib Hlt.
  destruct (Hpos a Ha) as (i & Hi & _ & Hna).
  destruct (Hpos b Hb) as (j & Hj & _ & Hnb).
  unfold numbered in Hia, Hib. rewrite Hna in Hia. rewrite Hnb in Hib.
  destruct (bool_decide (a = "__proto__")); [done|].
  destruct (bool_decide (b = "__proto__")); [done|].
  injection Hia as Hia. injection Hib as Hib.
  apply (inj pretty) in Hia, Hib. subst ida idb.
  apply position_lookup in Hi, Hj.
  apply list_lookup_fmap_Some in Hi as (ea & -> & Hea).
  apply list_lookup_fmap_Some in Hj as (eb & -> & Heb).
  rewrite <-(Hfreq ea), <-(Hfreq eb) in Hlt
    by (by eapply list_elem_of_lookup_2).
  destruct (decide (i < j)%nat) as [Hij|Hij]; [lia|].
  destruct (decide (i = j)) as [-> | Hne]; [simplify_eq; lia|].
  pose proof (descending_lookup sorted j i eb ea Hdesc Heb Hea). lia.
Qed.

(** X14: on a tree in which every [define] and [ref] has a name,
    [renameRefsDefines] returns, and every name attribute it has set
    holds a string exactly when none of the names is [__proto__].  With
    this name in the tree the object of new names, made with [{}], has no
    entry for it, and the attribute is set to what the renamer reads
    under it: the value that [Object.prototype] has there, which is not a
    string. *)
Theorem renaming_fails_on_proto tree names :
  gather tree [] = inr names →
  ∃ tree',
    renameRefsDefines tree = inr tree'
    ∧ ("__proto__" ∈ refNames tree
       ↔ InheritedValue "__proto__" ∈ nameValues tree')
    ∧ ("__proto__" ∉ refNames tree
       ↔ ∀ value, value ∈ nameValues tree' → ∃ s, value = StringValue s).
Proof.
  intros Hg.
  destruct (renameRefsDefines_outcome tree names Hg)
    as (_ & _ & _ & _ & _ & Hout).
  eexists. split; [exact Hout|]. rewrite nameValues_mapNames.
  set (f := numbered (number (sort (entries names)))).
  assert (Hf : ∀ name, f name = InheritedValue "__proto__"
                       ↔ name = "__proto__").
  { intros name. unfold f, numbered.
    destruct (decide (name = "__proto__")) as [-> | Hne].
    - by rewrite bool_decide_eq_true_2.
    - by rewrite bool_decide_eq_false_2. }
  assert (Hin : "__proto__" ∈ refNames tree
                ↔ InheritedValue "__proto__" ∈ f <$> refNames tree).
  { rewrite list_elem_of_fmap. split.
    - intros Hp. exists "__proto__". split; [|done].
      symmetry. by apply Hf.
    - intros (name & Heq & Hp). symmetry in Heq. apply Hf in Heq.
      by subst. }
  split; [exact Hin|]. split.
  - intros Hnot value Hv.
    apply list_elem_of_fmap in Hv as (name & -> & Hname).
    unfold f, numbered. rewrite bool_decide_eq_false_2; [by eexists|].
    by intros ->.
  - intros Hall Hp. apply Hin in Hp.
    by destruct (Hall _ Hp) as [s Hs].
Qed.

(** X16: with the option for the verbose format the tool keeps the names:
    the adjustment of the arguments turns the renaming off. *)
Theorem verbose_format_keeps_names args tree :
  SalveConvert.verbose_format args = true →
  optimizeIds (SalveConvert.adjust args) tree = inr (ofNode tree).
Proof.
  intros Hv. unfold optimizeIds, SalveConvert.adjust. simpl. by rewrite Hv.
Qed.

(** ** The renamed tree and the writer *)

Lemma remove_dups_shorter (l : list string) :
  (List.length (remove_dups l) ≤ List.length l)%nat.
Proof.
  induction l as [|x l IH]; [done|]. simpl.
  destruct (decide_rel _ x l); simpl; lia.
Qed.

(** X15: the names that [renameRefsDefines] has put into a tree are
    written by the conversion walker as numbers: for every string that a
    name attribute holds after the call, [outputName] does what
    [outputItem] does with a number, and the text of that number is the
    name.  (The number of names is taken to be one that [parseInt] gives
    exactly.) *)
Theorem renamed_names_are_written_as_numbers tree tree' :
  renameRefsDefines tree = inr tree' →
  (N.of_nat (List.length (refNames tree)) ≤ 2 ^ 53)%N →
  ∀ name, StringValue name ∈ nameValues tree' →
    ∃ id : N,
      (1 ≤ id ≤ 2 ^ 53)%N
      ∧ outputName name = outputItem (Num (Z.of_N id))
      ∧ itemText (Num (Z.of_N id)) = name.
Proof.
  intros Hrun Hbound name Hname.
  destruct (renameRefsDefines_inr tree tree' Hrun)
    as (sorted & Hnd & Hk & Hlen & _ & _ & -> & Hpos).
  rewrite nameValues_mapNames in Hname.
  apply list_elem_of_fmap in Hname as (old & Heq & Hold).
  destruct (Hpos old Hold) as (i & _ & Hi & Hnum).
  unfold numbered in Heq. rewrite Hnum in Heq.
  destruct (bool_decide (old = "__proto__")); [done|].
  injection Heq as ->.
  rewrite Hlen in Hi.
  pose proof (remove_dups_shorter (refNames tree)) as Hle.
  exists (N.of_nat (S i)). split; [lia|].
  destruct (pretty_N_numeric (N.of_nat (S i))) as [Hnum' Hparse].
  unfold outputName. rewrite Hnum', Hparse. split; [done|].
  apply pretty_Z_of_N.
Qed.

End RenamingFacts.

(** * The files of the simplification steps *)
Section StepFiles.
Import Conversion Steps.

Lemma append_cons c (a b : string) : String c a ++ b = String c (a ++ b).
Proof. reflexivity. Qed.

Lemma digits_split a b x y :
  allDigits a = true → allDigits b = true →
  a ++ String "." x = b ++ String "." y → a = b ∧ x = y.
Proof.
  revert b. induction a as [|c a IH]; intros [|c' b] Ha Hb Heq.
  - by injection Heq as ->.
  - rewrite append_cons in Heq. injection Heq as <- _.
    simpl in Hb. done.
  - rewrite append_cons in Heq. injection Heq as -> _.
    simpl in Ha. done.
  - rewrite !append_cons in Heq. injection Heq as -> Heq.
    simpl in Ha, Hb. apply andb_prop in Ha as [_ Ha].
    apply andb_prop in Hb as [_ Hb].
    destruct (IH b Ha Hb Heq) as [-> ->]. done.
Qed.

Lemma pretty_nat_digits (n : nat) :
  allDigits (pretty n) = true ∧ pretty n ≠ "".
Proof.
  destruct (pretty_N_numeric (N.of_nat n)) as [Hnum _].
  unfold isNumeric in Hnum. apply andb_prop in Hnum as [Hne Hd].
  split; [exact Hd|]. apply negb_true_iff, bool_decide_eq_false in Hne.
  exact Hne.
Qed.

Lemma outBase_parts stepNo repeat_no :
  outBase stepNo repeat_no
  = "out" ++ (pretty (stepNo + 1)%nat
              ++ String "."
                   match repeat_no with
                   | Some n => pretty (n + 1)%nat ++ String "." "rng"
                   | None => "rng"
                   end).
Proof.
  unfold outBase. destruct repeat_no as [n|]; [|done].
  by rewrite !append_assoc.
Qed.

(** X17: the file names that [executeStep] gives are different for
    different steps and for different repetitions of a step, so that no
    run of a step writes the file it reads or a file of another run. *)
Theorem outBase_differs stepNo repeat_no stepNo' repeat_no' :
  (stepNo, repeat_no) ≠ (stepNo', repeat_no') →
  outBase stepNo repeat_no ≠ outBase stepNo' repeat_no'.
Proof.
  intros Hne Heq. apply Hne. clear Hne.
  rewrite !outBase_parts in Heq.
  assert (Heq' : ∀ a b : string, "out" ++ a = "out" ++ b → a = b).
  { intros a b H. by injection H. }
  apply Heq' in Heq.
  apply digits_split in Heq as [Hstep Hrest];
    [|apply pretty_nat_digits..].
  apply (inj pretty) in Hstep. assert (stepNo = stepNo') as -> by lia.
  f_equal. destruct repeat_no as [n|], repeat_no' as [n'|]; [| | |done].
  - apply digits_split in Hrest as [Hn _]; [|apply pretty_nat_digits..].
    apply (inj pretty) in Hn. f_equal. lia.
  - destruct (pretty_nat_digits (n + 1)) as [Hd Hnon].
    destruct (pretty (n + 1)%nat) as [|c s]; [done|].
    rewrite append_cons in Hrest. injection Hrest as -> _. done.
  - destruct (pretty_nat_digits (n' + 1)) as [Hd Hnon].
    destruct (pretty (n' + 1)%nat) as [|c s]; [done|].
    rewrite append_cons in Hrest. injection Hrest as <- _. done.
Qed.

End StepFiles.

Lemma outBase_differs_witness :
  Steps.outBase 0 (Some 0%nat) ≠ Steps.outBase 0 (Some 1%nat).
Proof. apply (outBase_differs 0 (Some 0%nat) 0 (Some 1%nat)). discriminate. Defined.

(** * The added properties at concrete inputs *)

Lemma walk_closes_what_it_opens_witness :
  ∃ st',
    Conversion.walk ConversionExamples.codes ConversionExamples.grammar
      WriterExamples.fresh = inr st'
    ∧ (∃ written,
          Conversion._output st'
          = Conversion._output WriterExamples.fresh ++ written)
    ∧ (Conversion._constructState st'
       = Conversion._constructState WriterExamples.fresh
       ∨ Conversion._constructState st'
         = Conversion.touch
             (Conversion._constructState WriterExamples.fresh))
    ∧ List.length (Conversion._constructState st')
      = List.length (Conversion._constructState WriterExamples.fresh)
    ∧ Conversion.SameConfig WriterExamples.fresh st'.
Proof.
  eexists. split; [vm_compute; reflexivity|].
  apply (walk_closes_what_it_opens ConversionExamples.codes
           ConversionExamples.grammar WriterExamples.fresh).
  vm_compute. reflexivity.
Defined.

Lemma reset_after_walk_witness :
  ∃ st',
    Conversion.walk ConversionExamples.codes ConversionExamples.grammar
      WriterExamples.fresh = inr st'
    ∧ DefaultConversionWalker.reset st'
      = DefaultConversionWalker.reset WriterExamples.fresh
    ∧ (∀ version includePaths verbose,
          Conversion.new version includePaths verbose
          = inr WriterExamples.fresh →
          DefaultConversionWalker.reset st' = inr WriterExamples.fresh).
Proof.
  eexists. split; [vm_compute; reflexivity|].
  apply (reset_after_walk ConversionExamples.codes
           ConversionExamples.grammar WriterExamples.fresh).
  - vm_compute. reflexivity.
  - reflexivity.
Defined.

Lemma value_is_written_shortest_witness :
  ∃ st',
    Conversion.walk WriterExamples.codes WriterExamples.valueYes
      (ConversionExamples.inArray false) = inr st'
    ∧ ∃ code type library ns items,
        WriterExamples.codes "Value" = Some code
        ∧ Conversion.mustGetAttribute
            [("type", "string"); ("datatypeLibrary", ""); ("ns", "")]
            "type" = inr type
        ∧ Conversion.mustGetAttribute
            [("type", "string"); ("datatypeLibrary", ""); ("ns", "")]
            "datatypeLibrary" = inr library
        ∧ Conversion.mustGetAttribute
            [("type", "string"); ("datatypeLibrary", ""); ("ns", "")]
            "ns" = inr ns
        ∧ Conversion._output st'
          = Conversion._output (ConversionExamples.inArray false)
            ++ Conversion.separator
                 (Conversion._constructState
                    (ConversionExamples.inArray false))
            ++ "["
            ++ Conversion.headText (ConversionExamples.inArray false)
                 "Value" code "/grammar/define/value"
            ++ DefaultConversionWalker.itemsText items ++ "]"
        ∧ DefaultConversionWalker.fillValue items
          = Some (Conversion.nodeText WriterExamples.valueYes, type,
                  library, ns)
        ∧ (∀ items',
              DefaultConversionWalker.fillValue items'
              = Some (Conversion.nodeText WriterExamples.valueYes, type,
                      library, ns) →
              (List.length items ≤ List.length items')%nat).
Proof.
  eexists. split; [vm_compute; reflexivity|].
  apply (value_is_written_shortest WriterExamples.codes
           "/grammar/define/value"
           [("type", "string"); ("datatypeLibrary", ""); ("ns", "")]
           [Conversion.Text "yes"] (ConversionExamples.inArray false)).
  vm_compute. reflexivity.
Defined.

Lemma numeral_name_is_written_bare_witness :
  Conversion.outputName (pretty 12%N)
  = Conversion.outputItem (Conversion.Num (Z.of_N 12))
  ∧ Conversion.itemText (Conversion.Num (Z.of_N 12)) = pretty 12%N.
Proof. apply (numeral_name_is_written_bare 12). lia. Defined.

Lemma leading_zero_is_dropped_witness :
  String "0" (pretty 7%N) ≠ pretty 7%N
  ∧ Conversion.outputName (String "0" (pretty 7%N))
    = Conversion.outputName (pretty 7%N).
Proof. apply (leading_zero_is_dropped 7). lia. Defined.

Lemma gatherer_counts_the_names_witness :
  ∃ names,
    Renaming.gather RenamingExamples.grammar [] = inr names
    ∧ NoDup names.*1
    ∧ (∀ name, Renaming.has names name = true
               ↔ name ∈ Renaming.refNames RenamingExamples.grammar)
    ∧ (∀ name, default 0%nat (Renaming.getOwn names name)
               = Renaming.occurrences name RenamingExamples.grammar).
Proof.
  eexists. split; [vm_compute; reflexivity|].
  apply (gatherer_counts_the_names RenamingExamples.grammar).
  vm_compute. reflexivity.
Defined.

Lemma renaming_numbers_the_names_witness :
  ∃ tree',
    Renaming.renameRefsDefines RenamingExamples.protoAndA = inr tree'
    ∧ ∃ id : string → N,
        let n :=
          N.of_nat
            (List.length
               (remove_dups
                  (Renaming.refNames RenamingExamples.protoAndA))) in
        tree' = Renaming.mapNames (Renaming.numbered id)
                  RenamingExamples.protoAndA
        ∧ (∀ a b,
              a ∈ Renaming.refNames RenamingExamples.protoAndA →
              b ∈ Renaming.refNames RenamingExamples.protoAndA →
              id a = id b → a = b)
        ∧ (∀ a b,
              a ∈ Renaming.refNames RenamingExamples.protoAndA →
              b ∈ Renaming.refNames RenamingExamples.protoAndA →
              Renaming.numbered id a = Renaming.numbered id b → a = b)
        ∧ (∀ a, a ∈ Renaming.refNames RenamingExamples.protoAndA →
                (1 ≤ id a ≤ n)%N)
        ∧ (∀ k : N, (1 ≤ k ≤ n)%N →
                    ∃ a, a ∈ Renaming.refNames RenamingExamples.protoAndA
                         ∧ id a = k).
Proof.
  eexists. split; [vm_compute; reflexivity|].
  apply (renaming_numbers_the_names RenamingExamples.protoAndA).
  vm_compute. reflexivity.
Defined.

Lemma frequent_names_get_small_numbers_witness :
  ∃ tree',
    Renaming.renameRefsDefines RenamingExamples.grammar = inr tree'
    ∧ ∃ newName : string → Renaming.Value,
        tree' = Renaming.mapNames newName RenamingExamples.grammar
        ∧ ∀ a b (ida idb : N),
            a ∈ Renaming.refNames RenamingExamples.grammar →
            b ∈ Renaming.refNames RenamingExamples.grammar →
            newName a = Renaming.StringValue (pretty ida) →
            newName b = Renaming.StringValue (pretty idb) →
            (Renaming.occurrences b RenamingExamples.grammar
             < Renaming.occurrences a RenamingExamples.grammar)%nat →
            (ida < idb)%N.
Proof.
  eexists. split; [vm_compute; reflexivity|].
  apply (frequent_names_get_small_numbers RenamingExamples.grammar).
  vm_compute. reflexivity.
Defined.

Lemma renaming_fails_on_proto_witness :
  ∃ names,
    Renaming.gather RenamingExamples.protoGrammar [] = inr names
    ∧ ∃ tree',
        Renaming.renameRefsDefines RenamingExamples.protoGrammar = inr tree'
        ∧ ("__proto__" ∈ Renaming.refNames RenamingExamples.protoGrammar
           ↔ Renaming.InheritedValue "__proto__" ∈ Renaming.nameValues tree')
        ∧ ("__proto__" ∉ Renaming.refNames RenamingExamples.protoGrammar
           ↔ ∀ value, value ∈ Renaming.nameValues tree' →
                      ∃ s, value = Renaming.StringValue s).
Proof.
  eexists. split; [vm_compute; reflexivity|].
  eapply (renaming_fails_on_proto RenamingExamples.protoGrammar).
  vm_compute. reflexivity.
Defined.

Lemma renamed_names_are_written_as_numbers_witness :
  ∃ tree',
    Renaming.renameRefsDefines RenamingExamples.grammar = inr tree'
    ∧ ∀ name,
        Renaming.StringValue name ∈ Renaming.nameValues tree' →
        ∃ id : N,
          (1 ≤ id ≤ 2 ^ 53)%N
          ∧ Conversion.outputName name
            = Conversion.outputItem (Conversion.Num (Z.of_N id))
          ∧ Conversion.itemText (Conversion.Num (Z.of_N id)) = name.
Proof.
  eexists. split; [vm_compute; reflexivity|].
  apply (renamed_names_are_written_as_numbers RenamingExamples.grammar).
  - vm_compute. reflexivity.
  - vm_compute. discriminate.
Defined.

Lemma verbose_format_keeps_names_witness :
  Renaming.optimizeIds
    (SalveConvert.adjust
       (SalveConvert.mkArgs false false (Js.ofZ 3) false false false false
          false true None "schema.rng" "schema.json"))
    RenamingExamples.grammar
  = inr (Renaming.ofNode RenamingExamples.grammar).
Proof.
  apply (verbose_format_keeps_names
           (SalveConvert.mkArgs false false (Js.ofZ 3) false false false
              false false true None "schema.rng" "schema.json")).
  reflexivity.
Defined.

(** * The top-level object and the place of the path *)
Section PathsFollowIncludePaths.
Import Js Conversion DefaultConversionWalker Written.






Section PathsWithCodes.
Variable nameToCode : string → option Z.



End PathsWithCodes.



End PathsFollowIncludePaths.

(** * Cloning, with walkers as objects *)
Section ObjectFacts.
Context `{Host} {WA WB : Type}.
Context `{!Walker.InternalWalker WA} `{!Walker.InternalWalker WB}.

Import Objects.
Implicit Types s : Store WA WB.
Implicit Types w : InterleaveWalker.t WA WB.









End ObjectFacts.



(** * Operands that change on events they do not match *)
Section LateOperands.
Import Script Examples.
(** C3, counterexample: an operand that matches no event and can end once
    an event was offered to it has [canEnd] true exactly when its [end()]
    returns false.  The interleave of two such operands does not: after an
    event, which neither operand matches, its [canEnd] is still false (the
    flag is assigned only when an operand matches) while [end()] asks the
    operands and returns false. *)
Lemma canEnd_can_lag_behind_end :
  Contract.EndAgrees (Pattern.newWalker (W := Late.t) Late.mkPat resolver)
  ∧ ¬ Contract.EndAgrees Late.interleave.
Proof.
  split.
  - intros [|] _; simpl; done.
  - intros Hagrees.
    pose proof (Hagrees _ (Walker.reach_fire _ _ "text" ["x"]
                             (Walker.reach_init Late.interleave)))
      as [_ Hend].
    vm_compute in Hend. discriminate (Hend eq_refl).
Qed.

(** C5, counterexample: with the same operands the first equation fails
    after a call to [fireEvent]: the event is matched by neither operand,
    so [canEnd] is not assigned and stays false, while [canEnd] of both
    operands has become true. *)
Lemma canEnd_equation_fails_after_unmatched_event :
  let w := (InterleaveWalker.fireEvent Late.interleave "text" ["x"]).1 in
  ¬ CanEndCached w
  ∧ InterleaveWalker.canEnd w = false
  ∧ Walker.canEnd (InterleaveWalker.walkerA w) = true
  ∧ Walker.canEnd (InterleaveWalker.walkerB w) = true.
Proof. vm_compute. split_and!; [discriminate | reflexivity..]. Qed.

End LateOperands.
